(** * Cordle: the matching/reveal engine and the three game modes

    A shallow embedding of [CodeSnippet], of the classes derived from
    [Game], of [StatisticsRepo], [GameHistoryFormatter], [AutoGuess] and
    of the guess handler of [GUI] in [src/main.cpp], followed by the
    properties stated about them.  The embedding comes first, function
    by function under the names of the source; then the closed forms,
    predicates and sample states that the statements use ([SnippetSpec],
    [GameSpec], [MoreSpec]); then the lemmas and theorems
    ([SnippetFacts], [GameFacts], [SnippetMore], [GameMore]).

    Modelling conventions.
    - A C++ [int] or [long] is a [Z]: the integers of the engine are
      sizes, indices and counters bounded by the size of the snippet, the
      number of guesses made and the seconds played; arithmetic that
      leaves the range of its type is outside the model.
    - A [std::string] holding snippet text or a guess is a [list ascii];
      user-facing messages are [string]s.
    - [std::vector] and [std::string] element accesses are checked: an
      access outside the container is a fault, [None] in the option
      monad.  A result [Some _] therefore says that every access of the
      run was in bounds.
    - A [double] is a binary64 [float].
    - The clock, the random generator and the file system are inputs. *)

From Stdlib Require Import ZArith Ascii String List Lia Floats DecimalString.
From stdpp Require Import base option list strings.

Local Open Scope Z_scope.

(** ** Loops *)

(** [for(int k=start; k<start+count; k++) s = body(k,s)], stopping at the
    first fault. *)
Fixpoint for_loop {St : Type} (body : nat → St → option St)
    (start count : nat) (s : St) : option St :=
  match count with
  | O => Some s
  | S c => s' ← body start s; for_loop body (S start) c s'
  end.

(** ** CodeSnippet *)

Module CodeSnippet.

Definition MIN_LEN : Z := 3.
Definition UNGUESSED : Z := 0.
Definition FUZZY_MATCH : Z := 1.
Definition EXACT_MATCH : Z := 2.
Definition FUZZY_FAIL : Z := 1.
Definition FUZZY_COUNT : Z := 2.

Definition blank : ascii := " "%char.
Definition tab : ascii := "009"%char.

Record t : Type := mk {
  code : list (list ascii);
  state : list (list Z);
  fuzzyAllowed : bool
}.

Definition set_state (st : list (list Z)) (cs : t) : t :=
  {| code := code cs; state := st; fuzzyAllowed := fuzzyAllowed cs |}.

(** [state[i][p]] read. *)
Definition state_get (st : list (list Z)) (i p : nat) : option Z :=
  row ← st !! i; row !! p.

(** [state[i][p]=v]. *)
Definition state_put (st : list (list Z)) (i p : nat) (v : Z)
    : option (list (list Z)) :=
  row ← st !! i;
  if decide (p < length row)%nat then Some (<[i := <[p := v]> row]> st)
  else None.

(** [line.substr(pos,n)]: throws when [pos > size], else clamps. *)
Definition substr (line : list ascii) (pos n : nat) : option (list ascii) :=
  if decide (pos ≤ length line)%nat then Some (take n (drop pos line))
  else None.

(** The tab expansion of [loadFromFile]: every tab becomes four blanks,
    and the scan resumes after the inserted blanks. *)
Fixpoint expand_tabs (line : list ascii) : list ascii :=
  match line with
  | [] => []
  | c :: rest =>
      if decide (c = tab) then replicate 4 blank ++ expand_tabs rest
      else c :: expand_tabs rest
  end.

Definition load_line (raw : list ascii) : list ascii :=
  expand_tabs raw ++ replicate (Z.to_nat (MIN_LEN - 1)) blank.

(** [CodeSnippet(filePath,fuzzy)] on a file that opened, given the lines
    [std::getline] yields. *)
Definition loadFromFile (lines : list (list ascii)) (fuzzy : bool) : t :=
  let cd := load_line <$> lines in
  {| code := cd;
     state := (λ line, replicate (length line) 0%Z) <$> cd;
     fuzzyAllowed := fuzzy |}.

(** The default-constructed snippet. *)
Definition empty : t := {| code := []; state := []; fuzzyAllowed := true |}.

Definition getMinLen (cs : t) : Z := MIN_LEN.

Definition getTotalNumber (cs : t) : Z :=
  foldl (λ total line,
           foldl (λ total c, if decide (c ≠ blank) then total + 1 else total)
                 total line)
        0 (code cs).

Definition guessed_cell (st : list (list Z)) (line : list ascii) (i j : nat)
    (guessed : Z) : option Z :=
  c ← line !! j;
  if decide (c ≠ blank) then
    v ← state_get st i j;
    Some (if decide (v = EXACT_MATCH) then guessed + 1 else guessed)
  else Some guessed.

Definition getGuessedNumber (cs : t) : option Z :=
  for_loop (λ i guessed,
              line ← code cs !! i;
              for_loop (guessed_cell (state cs) line i) 0 (length line) guessed)
           0 (length (code cs)) 0.

(** One cell of the candidate scan of [reveal]. *)
Definition reveal_cell (st : list (list Z)) (line : list ascii) (i j : nat)
    (posVec : list (nat * nat)) : option (list (nat * nat)) :=
  c ← line !! j;
  if decide (c ≠ blank) then
    v ← state_get st i j;
    Some (if decide (v ≠ EXACT_MATCH) then posVec ++ [(i, j)] else posVec)
  else Some posVec.

Definition candidates (cs : t) : option (list (nat * nat)) :=
  for_loop (λ i posVec,
              line ← code cs !! i;
              for_loop (reveal_cell (state cs) line i) 0 (length line) posVec)
           0 (length (code cs)) [].

(** [std::uniform_int_distribution<>(0,hi)] applied to the raw output of
    the generator: some value in [0..hi], every one of them possible. *)
Definition dist (hi : nat) (raw : nat) : nat := (raw `mod` S hi)%nat.

(** [reveal()], [raw] being what the generator yields for this call. *)
Definition reveal (raw : nat) (cs : t) : option t :=
  posVec ← candidates cs;
  match posVec with
  | [] => Some cs
  | _ :: _ =>
      pos ← posVec !! dist (length posVec - 1) raw;
      st ← state_put (state cs) pos.1 pos.2 EXACT_MATCH;
      Some (set_state st cs)
  end.

(** The three inner loops of [guess] over the offsets [k] of a window
    that starts at [j] in line [i]. *)
Definition exact_body (i j k : nat) (st : list (list Z))
    : option (list (list Z)) :=
  state_put st i (j + k) EXACT_MATCH.

Definition count_body (line g : list ascii) (j k : nat) (fc : Z * Z)
    : option (Z * Z) :=
  gk ← g !! k;
  let count := if decide (gk ≠ blank) then fc.2 + 1 else fc.2 in
  c ← line !! (j + k)%nat;
  let failmatch := if decide (c ≠ gk) then fc.1 + 1 else fc.1 in
  Some (failmatch, count).

Definition fuzzy_body (i j k : nat) (st : list (list Z))
    : option (list (list Z)) :=
  v ← state_get st i (j + k);
  if decide (v = UNGUESSED) then state_put st i (j + k) FUZZY_MATCH
  else Some st.

(** The body of the [j] loop: one window.  The accumulator is
    [(result, state)] with [result = (result[0], result[1])]. *)
Definition window (fuzzy : bool) (g line : list ascii) (i j : nat)
    (acc : (Z * Z) * list (list Z)) : option ((Z * Z) * list (list Z)) :=
  let len := length g in
  let '(result, st) := acc in
  w ← substr line j len;
  if decide (w = g) then
    st' ← for_loop (exact_body i j) 0 len st;
    Some ((result.1 + 1, result.2), st')
  else if negb fuzzy then Some acc
  else
    fc ← for_loop (count_body line g j) 0 len ((0, 0) : Z * Z);
    if decide (fc.1 ≤ FUZZY_FAIL ∧ FUZZY_COUNT ≤ fc.2) then
      st' ← for_loop (fuzzy_body i j) 0 len st;
      Some ((result.1, result.2 + 1), st')
    else Some acc.

(** Number of iterations of [for(int j=0; j <= (int)line.size()-len; j++)]. *)
Definition windows (line g : list ascii) : nat :=
  Z.to_nat (Z.of_nat (length line) - Z.of_nat (length g) + 1).

Definition guess_line (fuzzy : bool) (g : list ascii) (code : list (list ascii))
    (i : nat) (acc : (Z * Z) * list (list Z))
    : option ((Z * Z) * list (list Z)) :=
  line ← code !! i;
  for_loop (window fuzzy g line i) 0 (windows line g) acc.

(** [guess(guess)]: the result array and the snippet afterwards. *)
Definition guess (g : list ascii) (cs : t) : option ((Z * Z) * t) :=
  if decide (Z.of_nat (length g) < MIN_LEN) then Some ((-1, -1), cs)
  else
    let result : Z * Z := if fuzzyAllowed cs then (0, 0) else (0, -1) in
    acc ← for_loop (guess_line (fuzzyAllowed cs) g (code cs))
                   0 (length (code cs)) (result, state cs);
    Some (acc.1, set_state acc.2 cs).

(** One cell of [check()]; the [break] leaves the inner loop only.  The
    accumulator is [(ok, broken)]. *)
Definition check_cell (st : list (list Z)) (line : list ascii) (i j : nat)
    (acc : bool * bool) : option (bool * bool) :=
  if acc.2 then Some acc
  else
    c ← line !! j;
    if decide (c ≠ blank) then
      v ← state_get st i j;
      Some (if decide (v ≠ EXACT_MATCH) then (false, true) else acc)
    else Some acc.

Definition check (cs : t) : option bool :=
  for_loop (λ i ok,
              line ← code cs !! i;
              acc ← for_loop (check_cell (state cs) line i) 0 (length line)
                             (ok, false);
              Some acc.1)
           0 (length (code cs)) true.

(** One cell of [getMasked]; [line] is the copy of [code[i]] that the
    loop rewrites in place. *)
Definition masked_cell (st : list (list Z)) (placeholder fuzzyPlaceholder : ascii)
    (i j : nat) (line : list ascii) : option (list ascii) :=
  c ← line !! j;
  if decide (c = blank) then Some line
  else
    v ← state_get st i j;
    if decide (v = EXACT_MATCH) then Some line
    else
      let line1 := if decide (v = UNGUESSED) then <[j := placeholder]> line
                   else line in
      Some (if decide (v = FUZZY_MATCH) then <[j := fuzzyPlaceholder]> line1
            else line1).

(** [getMasked(placeholder,fuzzyPlaceholder)]. *)
Definition getMasked (placeholder fuzzyPlaceholder : ascii) (cs : t)
    : option (list (list ascii)) :=
  for_loop (λ i result,
              line ← code cs !! i;
              masked ← for_loop (masked_cell (state cs) placeholder
                                   fuzzyPlaceholder i)
                                0 (length line) line;
              Some (result ++ [masked]))
           0 (length (code cs)) [].

End CodeSnippet.

(** ** Numbers and text *)

(** [std::to_string] of an [int] or a [long]. *)
Definition to_string (n : Z) : string := NilZero.string_of_int (Z.to_int n).

(** Conversion of an [int] to [double]; exact on the range of [int]. *)
Definition int_to_double (n : Z) : float :=
  match n with
  | Z0 => 0%float
  | Zpos _ => PrimFloat.of_uint63 (Uint63.of_Z n)
  | Zneg q => (- PrimFloat.of_uint63 (Uint63.of_Z (Zpos q)))%float
  end.

(** Conversion of a [double] to [int]: the fraction is dropped.  The
    conversion of a value without an [int] image is undefined in C++;
    the model yields the unbounded integer, and [0] on infinities and
    NaN. *)
Definition double_to_int (d : float) : Z :=
  match Prim2SF d with
  | S754_finite sign m e =>
      let a := if decide (0 ≤ e) then Zpos m * 2 ^ e else Zpos m `div` 2 ^ (- e) in
      if sign then - a else a
  | _ => 0
  end.

(** [std::max] on [double]: [(a<b)?b:a]. *)
Definition double_max (a b : float) : float :=
  if (a <? b)%float then b else a.

(** What a call either returns or throws ([AppException::what()]). *)
Inductive result (A : Type) : Type :=
  | Return (a : A)
  | Throw (what : string).
Arguments Return {A} a.
Arguments Throw {A} what.

Definition AppException {A : Type} (msg : string) : result A :=
  Throw ("[Error] " +:+ msg).

(** ** StatisticsRepo *)

Module StatisticsRepo.

Record t : Type := mk {
  totalGames : Z;
  guessLimitedGames : Z;
  timeAttackGames : Z;
  pointGames : Z;
  guessLimitedWins : Z;
  timeAttackWins : Z;
  totalPoints : float;
  gameHistory : list string
}.

(** [StatisticsRepo()]: the default member initialisers. *)
Definition new : t :=
  {| totalGames := 0; guessLimitedGames := 0; timeAttackGames := 0;
     pointGames := 0; guessLimitedWins := 0; timeAttackWins := 0;
     totalPoints := 0%float; gameHistory := [] |}.

(** The argument [state] of the template [addGame<T>], [T] being [int]
    or [double]. *)
Inductive num : Type :=
  | Int (n : Z)
  | Double (d : float).

(** [wins += state] on an [int] counter. *)
Definition int_add (wins : Z) (state : num) : Z :=
  match state with
  | Int n => wins + n
  | Double d => double_to_int (int_to_double wins + d)%float
  end.

(** [totalPoints += state] on the [double] total. *)
Definition double_add (total : float) (state : num) : float :=
  match state with
  | Int n => (total + int_to_double n)%float
  | Double d => (total + d)%float
  end.

Definition addGame (gameHistoryLine gameType : string) (state : num) (s : t) : t :=
  let s1 :=
    if decide (gameType = "guessLimited") then
      {| totalGames := totalGames s;
         guessLimitedGames := guessLimitedGames s + 1;
         timeAttackGames := timeAttackGames s;
         pointGames := pointGames s;
         guessLimitedWins := int_add (guessLimitedWins s) state;
         timeAttackWins := timeAttackWins s;
         totalPoints := totalPoints s;
         gameHistory := gameHistory s |}
    else if decide (gameType = "timeAttack") then
      {| totalGames := totalGames s;
         guessLimitedGames := guessLimitedGames s;
         timeAttackGames := timeAttackGames s + 1;
         pointGames := pointGames s;
         guessLimitedWins := guessLimitedWins s;
         timeAttackWins := int_add (timeAttackWins s) state;
         totalPoints := totalPoints s;
         gameHistory := gameHistory s |}
    else if decide (gameType = "point") then
      {| totalGames := totalGames s;
         guessLimitedGames := guessLimitedGames s;
         timeAttackGames := timeAttackGames s;
         pointGames := pointGames s + 1;
         guessLimitedWins := guessLimitedWins s;
         timeAttackWins := timeAttackWins s;
         totalPoints := double_add (totalPoints s) state;
         gameHistory := gameHistory s |}
    else s in
  {| totalGames := totalGames s1 + 1;
     guessLimitedGames := guessLimitedGames s1;
     timeAttackGames := timeAttackGames s1;
     pointGames := pointGames s1;
     guessLimitedWins := guessLimitedWins s1;
     timeAttackWins := timeAttackWins s1;
     totalPoints := totalPoints s1;
     gameHistory := gameHistory s1 ++ [gameHistoryLine] |}.

(** The file of the repository, once it is open: the seven counters, of
    which [saveToFile] writes the object representations and which
    [loadFromFile] reads back into objects of the same types, and the
    characters that follow them. *)
Record file : Type := mkFile {
  file_totalGames : Z;
  file_guessLimitedGames : Z;
  file_timeAttackGames : Z;
  file_pointGames : Z;
  file_guessLimitedWins : Z;
  file_timeAttackWins : Z;
  file_totalPoints : float;
  file_text : list ascii
}.

Definition line_feed : ascii := "010"%char.

(** [for(auto& line:gameHistory) fout << line << '\n';]. *)
Definition put_lines (lines : list string) : list ascii :=
  mjoin ((λ line, list_ascii_of_string line ++ [line_feed]) <$> lines).

Definition saveToFile (s : t) : file :=
  {| file_totalGames := totalGames s;
     file_guessLimitedGames := guessLimitedGames s;
     file_timeAttackGames := timeAttackGames s;
     file_pointGames := pointGames s;
     file_guessLimitedWins := guessLimitedWins s;
     file_timeAttackWins := timeAttackWins s;
     file_totalPoints := totalPoints s;
     file_text := put_lines (gameHistory s) |}.

(** [while(std::getline(fin,line))] over the characters left, [line]
    being what the call under way has extracted: a call ends at a line
    feed, which it drops, or at the end of the file, where it fails when
    it has extracted nothing. *)
Fixpoint getlines (line text : list ascii) : list (list ascii) :=
  match text with
  | [] => if decide (line = []) then [] else [line]
  | c :: rest =>
      if decide (c = line_feed) then line :: getlines [] rest
      else getlines (line ++ [c]) rest
  end.

(** [loadFromFile()] on a file that opened: the counters are
    overwritten, the lines are appended to the history. *)
Definition loadFromFile (f : file) (s : t) : t :=
  {| totalGames := file_totalGames f;
     guessLimitedGames := file_guessLimitedGames f;
     timeAttackGames := file_timeAttackGames f;
     pointGames := file_pointGames f;
     guessLimitedWins := file_guessLimitedWins f;
     timeAttackWins := file_timeAttackWins f;
     totalPoints := file_totalPoints f;
     gameHistory := gameHistory s
                    ++ (string_of_list_ascii <$> getlines [] (file_text f)) |}.

(** The line feed. *)
Definition newline : string := String "010"%char EmptyString.

(** [getStatistics()]; [double_to_string] is [std::to_string] on a
    [double].  The history loop runs [i] from [size-1] down to [0]. *)
Definition getStatistics (double_to_string : float → string) (s : t)
    : option (list string) :=
  let average :=
    if decide (pointGames s = 0) then int_to_double 0
    else (totalPoints s / int_to_double (pointGames s))%float in
  let result :=
    [ "Total Games: " +:+ to_string (totalGames s);
      "Guess Limited Games: " +:+ to_string (guessLimitedWins s) +:+ "/"
        +:+ to_string (guessLimitedGames s);
      "Time Attack Games: " +:+ to_string (timeAttackWins s) +:+ "/"
        +:+ to_string (timeAttackGames s);
      "Point Games: " +:+ to_string (pointGames s);
      "Average Points: " +:+ double_to_string average;
      "Total Points: " +:+ double_to_string (totalPoints s);
      newline +:+ "==========Game History==========" +:+ newline ] in
  for_loop (λ k result,
              line ← gameHistory s !! (length (gameHistory s) - 1 - k)%nat;
              Some (result ++ [line]))
           0 (length (gameHistory s)) result.

End StatisticsRepo.

(** ** GameHistoryFormatter *)

Module GameHistoryFormatter.

Definition timeWidth : nat := 26.
Definition gameTypeWidth : nat := 18.
Definition pidWidth : nat := 7.

(** [oss << std::left << std::setw(w) << text]. *)
Definition setw_left (w : nat) (text : string) : string :=
  text +:+ string_of_list_ascii (replicate (w - String.length text) " "%char).

Definition format (time gameType pid gameInfo : string) : string :=
  setw_left timeWidth time +:+ setw_left gameTypeWidth gameType
  +:+ setw_left pidWidth pid +:+ gameInfo.

End GameHistoryFormatter.

(** ** Game *)

(** What [repo.random()] and [repo.loadSnippet(pid,fuzzy)] find: the
    identifier drawn (empty on an empty repository), the path of its
    file, and the lines of the file when it opens. *)
Record drawn : Type := mkDrawn {
  drawn_pid : string;
  drawn_path : string;
  drawn_lines : option (list (list ascii))
}.

(** [repo.loadSnippet(pid,fuzzy)]. *)
Definition loadSnippet (d : drawn) (fuzzy : bool) : result CodeSnippet.t :=
  match drawn_lines d with
  | Some lines => Return (CodeSnippet.loadFromFile lines fuzzy)
  | None => AppException ("Could not open file: " +:+ drawn_path d)
  end.

Module Game.

(** The members of the base class.  The statistics repository is held
    by reference: the functions that write to it take and return it. *)
Record t : Type := mk {
  snippet : CodeSnippet.t;
  pid : string;
  guesses : Z;
  fuzzyAllowed : bool;
  showPID : bool
}.

Definition set_snippet (sn : CodeSnippet.t) (b : t) : t :=
  {| snippet := sn; pid := pid b; guesses := guesses b;
     fuzzyAllowed := fuzzyAllowed b; showPID := showPID b |}.

Definition set_pid (p : string) (b : t) : t :=
  {| snippet := snippet b; pid := p; guesses := guesses b;
     fuzzyAllowed := fuzzyAllowed b; showPID := showPID b |}.

Definition set_guesses (n : Z) (b : t) : t :=
  {| snippet := snippet b; pid := pid b; guesses := n;
     fuzzyAllowed := fuzzyAllowed b; showPID := showPID b |}.

Definition set_fuzzyAllowed (f : bool) (b : t) : t :=
  {| snippet := snippet b; pid := pid b; guesses := guesses b;
     fuzzyAllowed := f; showPID := showPID b |}.

Definition set_showPID (f : bool) (b : t) : t :=
  {| snippet := snippet b; pid := pid b; guesses := guesses b;
     fuzzyAllowed := fuzzyAllowed b; showPID := f |}.

(** [Game(repo,stats,fuzzy,show)]. *)
Definition new (fuzzy show : bool) : t :=
  {| snippet := CodeSnippet.empty; pid := ""; guesses := 0;
     fuzzyAllowed := fuzzy; showPID := show |}.

(** What a derived class provides to the turn cycle: its members on top
    of the base ones, and the pure virtual functions [revealTimes] and
    [isOver].  [now] is the reading of [steady_clock] during the call. *)
Class Mode (G : Type) : Type := {
  base : G → t;
  set_base : t → G → G;
  revealTimes : Z → G → Z * G;
  isOver : Z → G → bool;
  base_set_base : ∀ b g, base (set_base b g) = b;
  set_base_base : ∀ g, set_base (base g) g = g
}.

(** [while(count--) snippet.reveal();], the [k]-th call drawing
    [raws k].  A negative [count] never reaches zero. *)
Definition reveal_loop (count : Z) (raws : nat → nat) (sn : CodeSnippet.t)
    : option CodeSnippet.t :=
  if decide (count < 0) then None
  else for_loop (λ k sn, CodeSnippet.reveal (raws k) sn) 0 (Z.to_nat count) sn.

Definition makeGuess {G : Type} `{Mode G} (guess : list ascii) (now : Z)
    (raws : nat → nat) (g : G) : option (list string * G) :=
  let b := base g in
  if negb (showPID b) && bool_decide (guess = list_ascii_of_string "P") then
    Some (["PID showing enabled"], set_base (set_showPID true b) g)
  else if negb (fuzzyAllowed b) && bool_decide (guess = list_ascii_of_string "F") then
    Some (["Fuzzy match enabled"], set_base (set_fuzzyAllowed true b) g)
  else
    r ← CodeSnippet.guess guess (snippet b);
    let result := r.1 in
    let g1 := set_base (set_snippet r.2 b) g in
    if decide (result.1 = -1) then
      Some (["Guess must be at least "
             +:+ to_string (CodeSnippet.getMinLen (snippet (base g1)))
             +:+ " chars"], g1)
    else
      let g2 := set_base (set_guesses (guesses (base g1) + 1) (base g1)) g1 in
      let '(count, g3) := revealTimes now g2 in
      sn ← reveal_loop count raws (snippet (base g3));
      let g4 := set_base (set_snippet sn (base g3)) g3 in
      let msg := to_string result.1 +:+ " matches found" in
      let msg := if decide (result.2 ≠ -1)
                 then msg +:+ ", " +:+ to_string result.2 +:+ " fuzzy matches found"
                 else msg in
      Some ([msg +:+ "."], g4).

Definition isFinished {G : Type} `{Mode G} (g : G) : option bool :=
  CodeSnippet.check (snippet (base g)).

End Game.

(** ** guessLimitedGame *)

Module guessLimitedGame.

Record t : Type := mk {
  game : Game.t;
  maxGuesses : Z
}.

Definition revealGuesses : Z := 5.

Definition start (d : drawn) (g : t) : result (bool * t) :=
  let b := Game.set_pid (drawn_pid d) (game g) in
  if decide (drawn_pid d = "") then
    Return (false, {| game := b; maxGuesses := maxGuesses g |})
  else
    match loadSnippet d (Game.fuzzyAllowed b) with
    | Throw what => Throw what
    | Return sn =>
        let total := CodeSnippet.getTotalNumber sn in
        Return (true, {| game := Game.set_snippet sn b;
                         maxGuesses := Z.max (total `quot` 3 + 5) 30 |})
    end.

Definition revealTimes (g : t) : Z * t :=
  (if decide (Game.guesses (game g) `rem` revealGuesses = 0) then 1 else 0, g).

Definition isOver (g : t) : bool :=
  bool_decide (Game.guesses (game g) >= maxGuesses g).

Definition saveStatistics (time : string) (isWin : bool) (g : t)
    (stats : StatisticsRepo.t) : t * StatisticsRepo.t :=
  let gameInfo := "guesses: " +:+ to_string (Game.guesses (game g)) +:+ "/"
                  +:+ to_string (maxGuesses g) +:+ " "
                  +:+ (if isWin then "Win" else "Lose") in
  let line := GameHistoryFormatter.format time "Limited Guesses"
                (Game.pid (game g)) gameInfo in
  (g, StatisticsRepo.addGame line "guessLimited"
        (StatisticsRepo.Int (if isWin then 1 else 0)) stats).

Definition Win (time : string) (g : t) (stats : StatisticsRepo.t)
    : string * t * StatisticsRepo.t :=
  let r := saveStatistics time true g stats in
  ("You win! You only used " +:+ to_string (Game.guesses (game r.1))
   +:+ " guesses!", r.1, r.2).

Definition Lose (time : string) (g : t) (stats : StatisticsRepo.t)
    : string * t * StatisticsRepo.t :=
  let r := saveStatistics time false g stats in
  ("You lose. You have used " +:+ to_string (Game.guesses (game r.1))
   +:+ " guesses.", r.1, r.2).

#[global] Instance mode : Game.Mode t := {|
  Game.base := game;
  Game.set_base b g := {| game := b; maxGuesses := maxGuesses g |};
  Game.revealTimes _ := revealTimes;
  Game.isOver _ := isOver;
  Game.base_set_base _ _ := eq_refl;
  Game.set_base_base g := match g with mk _ _ => eq_refl end
|}.

End guessLimitedGame.

(** ** timeAttackGame *)

Module timeAttackGame.

(** Time points are readings of [std::chrono::steady_clock] in ticks;
    [hz] is the number of ticks in a second (the clock's period is
    implementation defined). *)
Record t : Type := mk {
  game : Game.t;
  maxTime : Z;
  startTime : Z;
  lastRevealTime : Z
}.

Definition revealTime : Z := 10.

(** [std::chrono::duration_cast<std::chrono::seconds>(d).count()]. *)
Definition seconds_count (hz d : Z) : Z := d `quot` hz.

(** [std::chrono::seconds(n)] as a duration of the clock. *)
Definition seconds (hz n : Z) : Z := n * hz.

Definition start (now : Z) (d : drawn) (g : t) : result (bool * t) :=
  let b := Game.set_pid (drawn_pid d) (game g) in
  if decide (drawn_pid d = "") then
    Return (false, {| game := b; maxTime := maxTime g;
                      startTime := startTime g;
                      lastRevealTime := lastRevealTime g |})
  else
    match loadSnippet d (Game.fuzzyAllowed b) with
    | Throw what => Throw what
    | Return sn =>
        let total := CodeSnippet.getTotalNumber sn in
        Return (true,
                {| game := Game.set_snippet sn b;
                   maxTime := double_to_int
                                (double_max (1.0 * int_to_double total / 1.5 + 10)
                                            60.0)%float;
                   startTime := now;
                   lastRevealTime := now |})
    end.

Definition revealTimes (hz now : Z) (g : t) : Z * t :=
  let result := seconds_count hz (now - lastRevealTime g) `quot` revealTime in
  (result,
   {| game := game g; maxTime := maxTime g; startTime := startTime g;
      lastRevealTime := lastRevealTime g + seconds hz (revealTime * result) |}).

Definition isOver (hz now : Z) (g : t) : bool :=
  let elapsed := seconds_count hz (now - startTime g) in
  bool_decide (elapsed >= maxTime g).

Definition saveStatistics (hz now : Z) (time : string) (isWin : bool) (g : t)
    (stats : StatisticsRepo.t) : t * StatisticsRepo.t :=
  let elapsed := seconds_count hz (now - startTime g) in
  let gameInfo := "time: " +:+ to_string elapsed +:+ "s/"
                  +:+ to_string (maxTime g) +:+ "s "
                  +:+ (if isWin then "Win" else "Lose") in
  let line := GameHistoryFormatter.format time "Time Attack"
                (Game.pid (game g)) gameInfo in
  (g, StatisticsRepo.addGame line "timeAttack"
        (StatisticsRepo.Int (if isWin then 1 else 0)) stats).

(** [Win()] and [Lose()] read the clock twice: [now] inside
    [saveStatistics], [now'] for the message. *)
Definition Win (hz now now' : Z) (time : string) (g : t)
    (stats : StatisticsRepo.t) : string * t * StatisticsRepo.t :=
  let r := saveStatistics hz now time true g stats in
  let elapsed := seconds_count hz (now' - startTime r.1) in
  ("You win! You only used " +:+ to_string elapsed +:+ " seconds!", r.1, r.2).

Definition Lose (hz now now' : Z) (time : string) (g : t)
    (stats : StatisticsRepo.t) : string * t * StatisticsRepo.t :=
  let r := saveStatistics hz now time false g stats in
  let elapsed := seconds_count hz (now' - startTime r.1) in
  ("You lose. You have used " +:+ to_string elapsed +:+ " seconds.", r.1, r.2).

#[global] Instance mode (hz : Z) : Game.Mode t := {|
  Game.base := game;
  Game.set_base b g := {| game := b; maxTime := maxTime g;
                          startTime := startTime g;
                          lastRevealTime := lastRevealTime g |};
  Game.revealTimes := revealTimes hz;
  Game.isOver := isOver hz;
  Game.base_set_base _ _ := eq_refl;
  Game.set_base_base g := match g with mk _ _ _ _ => eq_refl end
|}.

End timeAttackGame.

(** ** pointGame *)

Module pointGame.

Record t : Type := mk {
  game : Game.t;
  totalNumber : Z;
  points : float;
  guessPenalty : float;
  pointFactor : float;
  rewardFactor : float
}.

Definition showPidPenalty : float := 0.5%float.
(** [0.8], as the nearest binary64 value. *)
Definition fuzzyPenalty : float := 0x1.999999999999ap-1%float.

Definition set_points (p : float) (g : t) : t :=
  {| game := game g; totalNumber := totalNumber g; points := p;
     guessPenalty := guessPenalty g; pointFactor := pointFactor g;
     rewardFactor := rewardFactor g |}.

(** The constructor.  It leaves [totalNumber] uninitialised:
    [indeterminate] is the value the member happens to hold. *)
Definition new (fuzzy show : bool) (penalty pfactor rfactor : float)
    (indeterminate : Z) : result t :=
  if (penalty <=? 0)%float then AppException "Penalty must be positive"
  else if (pfactor <=? 0)%float then AppException "Point factor must be positive"
  else if (rfactor <? 1.0)%float then
    AppException "Reward factor must be not less than 1.0"
  else
    Return {| game := Game.new fuzzy show; totalNumber := indeterminate;
              points := 0%float; guessPenalty := penalty;
              pointFactor := pfactor; rewardFactor := rfactor |}.

Definition start (d : drawn) (g : t) : result (bool * t) :=
  let b := Game.set_pid (drawn_pid d) (game g) in
  if decide (drawn_pid d = "") then
    Return (false, {| game := b; totalNumber := totalNumber g;
                      points := points g; guessPenalty := guessPenalty g;
                      pointFactor := pointFactor g;
                      rewardFactor := rewardFactor g |})
  else
    match loadSnippet d (Game.fuzzyAllowed b) with
    | Throw what => Throw what
    | Return sn =>
        Return (true,
                {| game := Game.set_snippet sn b;
                   totalNumber := CodeSnippet.getTotalNumber sn;
                   points := points g; guessPenalty := guessPenalty g;
                   pointFactor := pointFactor g;
                   rewardFactor := rewardFactor g |})
    end.

Definition calcPoint (g : t) : option t :=
  guessed ← CodeSnippet.getGuessedNumber (Game.snippet (game g));
  let p := (pointFactor g * int_to_double guessed * int_to_double guessed
              / int_to_double (totalNumber g)
            - guessPenalty g * int_to_double (Game.guesses (game g)))%float in
  let p := if Game.showPID (game g) then (p * showPidPenalty)%float else p in
  let p := if Game.fuzzyAllowed (game g) then (p * fuzzyPenalty)%float else p in
  let p := if decide (guessed = totalNumber g) then (p * rewardFactor g)%float
           else p in
  Some (set_points p g).

Definition revealTimes (g : t) : Z * t := (0, g).

Definition isOver (g : t) : bool := false.

(** [double_to_string] is [std::to_string] on a [double]. *)
Definition saveStatistics (double_to_string : float → string) (time : string)
    (isWin : bool) (g : t) (stats : StatisticsRepo.t)
    : option (t * StatisticsRepo.t) :=
  g1 ← calcPoint g;
  let gameInfo := "points: " +:+ double_to_string (points g1) +:+ " "
                  +:+ (if isWin then "Win" else "Lose") in
  let line := GameHistoryFormatter.format time "Point"
                (Game.pid (game g1)) gameInfo in
  Some (g1, StatisticsRepo.addGame line "point"
              (StatisticsRepo.Double (points g1)) stats).

Definition Win (double_to_string : float → string) (time : string) (g : t)
    (stats : StatisticsRepo.t) : option (string * t * StatisticsRepo.t) :=
  r ← saveStatistics double_to_string time true g stats;
  g2 ← calcPoint r.1;
  Some ("You achieved " +:+ double_to_string (points g2) +:+ " points!",
        g2, r.2).

Definition Lose (double_to_string : float → string) (time : string) (g : t)
    (stats : StatisticsRepo.t) : option (string * t * StatisticsRepo.t) :=
  Win double_to_string time g stats.

#[global] Instance mode : Game.Mode t := {|
  Game.base := game;
  Game.set_base b g := {| game := b; totalNumber := totalNumber g;
                          points := points g; guessPenalty := guessPenalty g;
                          pointFactor := pointFactor g;
                          rewardFactor := rewardFactor g |};
  Game.revealTimes _ := revealTimes;
  Game.isOver _ := isOver;
  Game.base_set_base _ _ := eq_refl;
  Game.set_base_base g := match g with mk _ _ _ _ _ _ => eq_refl end
|}.

End pointGame.

(** ** AutoGuess *)

Module AutoGuess.

Definition quote : ascii := "034"%char.

Definition alphabet_ : list ascii :=
  list_ascii_of_string "abcdefghijklmnopqrstuvwxyz0123456789_^(){};%=<>+-*&|"
  ++ [quote].

Definition guessLength : Z := 3.

Definition keywords : list (list ascii) :=
  (list_ascii_of_string <$>
     [ "int"; "for"; "if("; "els"; "ret"; "urn"; "cla"; "ass"; "nam"; "esp";
       "#in"; "ude"; "std"; "siz"; "lon"; "eof"; "nul"; "ptr"; "new"; "del";
       "ete"; "whi"; "ile"; "con"; "st "; "cou"; "t<<"; "cin"; ">> "; "%d ";
       "sca"; "pri"; "ntf" ])
  ++ [ ["<"; "<"; quote]%char; [quote; "<"; "<"]%char ].

(** [random()]: [guessLength] characters of the alphabet, the [k]-th one
    drawn with [raws k]. *)
Definition random (raws : nat → nat) : option (list ascii) :=
  for_loop (λ k result,
              c ← alphabet_ !! CodeSnippet.dist (length alphabet_ - 1) (raws k);
              Some (result ++ [c]))
           0 (Z.to_nat guessLength) [].

(** The scan of the mask for [keyword]: [visited] becomes true at a
    window that holds it and is never reset. *)
Definition visited (mask : list (list ascii)) (keyword : list ascii) : bool :=
  foldl (λ visited line,
           foldl (λ visited i,
                    if decide (take (Z.to_nat guessLength) (drop i line) = keyword)
                    then true else visited)
                 visited
                 (seq 0 (Z.to_nat (Z.of_nat (length line) - guessLength + 1))))
        false mask.

(** [guess(mask)] on the member [count]: the hint and the new [count].
    The source recurses on itself; [fuel] bounds the depth of the
    recursion, and running out of it is [None]. *)
Fixpoint guess_fuel (fuel : nat) (mask : list (list ascii)) (raws : nat → nat)
    (count : Z) : option (list ascii * Z) :=
  if decide (count = Z.of_nat (length keywords)) then
    hint ← random raws; Some (hint, count)
  else
    match fuel with
    | O => None
    | S fuel' =>
        if decide (count < 0) then None
        else
          keyword ← keywords !! Z.to_nat count;
          let seen := visited mask keyword in
          let count := count + 1 in
          if seen then guess_fuel fuel' mask raws count
          else
            hint ← keywords !! Z.to_nat (count - 1);
            Some (hint, count)
    end.

Definition guess (mask : list (list ascii)) (raws : nat → nat) (count : Z)
    : option (list ascii * Z) :=
  guess_fuel (length keywords) mask raws count.

End AutoGuess.

(** ** GUI *)

Module GUI.

(** What a handler leaves: a game that goes on, with the messages to
    show, or a game that ended, with the text of the alert. *)
Inductive after (G : Type) : Type :=
  | Playing (msg : list string) (g : G) (stats : StatisticsRepo.t)
  | Over (alert : string) (g : G) (stats : StatisticsRepo.t).
Arguments Playing {G} msg g stats.
Arguments Over {G} alert g stats.

(** [onGuess()] on a running game, [guess] being the text of the input
    field.  [Win] and [Lose] are the virtual functions of the mode;
    [now] is the reading of the clock inside [makeGuess], [now'] the one
    inside [isOver].  An empty input returns at once: nothing is shown
    and nothing changes. *)
Definition onGuess {G : Type} `{Game.Mode G}
    (Win Lose : G → StatisticsRepo.t → option (string * G * StatisticsRepo.t))
    (guess : list ascii) (now now' : Z) (raws : nat → nat) (g : G)
    (stats : StatisticsRepo.t) : option (after G) :=
  if decide (guess = []) then Some (Playing [] g stats)
  else
    r ← Game.makeGuess guess now raws g;
    if Game.isOver now' r.2 then
      e ← Lose r.2 stats; Some (Over e.1.1 e.1.2 e.2)
    else
      finished ← Game.isFinished r.2;
      if finished : bool then
        e ← Win r.2 stats; Some (Over e.1.1 e.1.2 e.2)
      else Some (Playing r.1 r.2 stats).

End GUI.

(** ** The reveal grid and the matching engine, in closed form *)

(** The invariant of the class, the closed forms of the loops of
    [CodeSnippet], the predicates on positions and the sample snippets
    that the statements below use. *)
Module SnippetSpec.
Import CodeSnippet.

(** The class invariant: [state] has the shape of [code]. *)
Definition shape (cd : list (list ascii)) (st : list (list Z)) : Prop :=
  Forall2 (λ (line : list ascii) (row : list Z), length line = length row) cd st.

(** It holds of every snippet that [CodeSnippet] constructs, and every
    member function keeps it. *)
Definition wf (cs : t) : Prop := shape (code cs) (state cs).

(** The text of the window of [len] characters at [j]. *)
Definition window_text (line : list ascii) (j len : nat) : list ascii :=
  take len (drop j line).

(** A row after [state[i][j+k]=EXACT_MATCH] for every [k<len]. *)
Definition exact_row (j len : nat) (row : list Z) : list Z :=
  imap (λ p v, if decide (j ≤ p < j + len)%nat then EXACT_MATCH else v) row.

(** A row after the guarded [FUZZY_MATCH] assignment for every [k<len]. *)
Definition fuzzy_row (j len : nat) (row : list Z) : list Z :=
  imap (λ p v, if decide ((j ≤ p < j + len)%nat ∧ v = UNGUESSED)
               then FUZZY_MATCH else v) row.

(** [failCount]: the offsets at which window and guess differ. *)
Definition failCount (w g : list ascii) : Z :=
  Z.of_nat (length (filter (λ cg : ascii * ascii, cg.1 ≠ cg.2) (zip w g))).

(** [significant]: the non-blank characters of the guess. *)
Definition significant (g : list ascii) : Z :=
  Z.of_nat (length (filter (λ c : ascii, c ≠ blank) g)).

(** The fuzzy rule: at most [FUZZY_FAIL] differences, at least
    [FUZZY_COUNT] non-blank characters guessed. *)
Definition fuzzy_rule (w g : list ascii) : Prop :=
  failCount w g ≤ FUZZY_FAIL ∧ FUZZY_COUNT ≤ significant g.

(** What one window does to its row. *)
Definition window_row (fuzzy : bool) (g line : list ascii) (j : nat)
    (row : list Z) : list Z :=
  let w := window_text line j (length g) in
  if decide (w = g) then exact_row j (length g) row
  else if decide (fuzzy = true ∧ fuzzy_rule w g)
       then fuzzy_row j (length g) row
       else row.

(** What one window adds to [result]. *)
Definition window_result (fuzzy : bool) (g line : list ascii) (j : nat)
    (result : Z * Z) : Z * Z :=
  let w := window_text line j (length g) in
  if decide (w = g) then (result.1 + 1, result.2)
  else if decide (fuzzy = true ∧ fuzzy_rule w g)
       then (result.1, result.2 + 1)
       else result.

(** A row after the windows [0..n-1] of its line. *)
Definition line_row (fuzzy : bool) (g line : list ascii) (n : nat)
    (row : list Z) : list Z :=
  foldl (λ row j, window_row fuzzy g line j row) row (seq 0 n).

(** The result array after the windows [0..n-1] of a line. *)
Definition line_result (fuzzy : bool) (g line : list ascii) (n : nat)
    (result : Z * Z) : Z * Z :=
  foldl (λ result j, window_result fuzzy g line j result) result (seq 0 n).

(** The state after every line. *)
Definition guess_state (fuzzy : bool) (g : list ascii)
    (cd : list (list ascii)) (st : list (list Z)) : list (list Z) :=
  zip_with (λ line row, line_row fuzzy g line (windows line g) row) cd st.

(** The result array after every line. *)
Definition guess_result (fuzzy : bool) (g : list ascii)
    (cd : list (list ascii)) (result : Z * Z) : Z * Z :=
  foldl (λ result line, line_result fuzzy g line (windows line g) result)
        result cd.

(** The only moves of a cell: stay, become [EXACT_MATCH], or go from
    [UNGUESSED] to [FUZZY_MATCH]. *)
Definition advances (v v' : Z) : Prop :=
  v' = v ∨ v' = EXACT_MATCH ∨ (v = UNGUESSED ∧ v' = FUZZY_MATCH).

(** Every cell of [st'] is an advance of the cell of [st] at its place. *)
Definition grid_advances (st st' : list (list Z)) : Prop :=
  Forall2 (Forall2 advances) st st'.

(** The character positions of the buffer, in scan order. *)
Definition positions (cd : list (list ascii)) : list (nat * nat) :=
  mjoin (imap (λ i line, pair i <$> seq 0 (length line)) cd).

(** The character at a position, when there is one. *)
Definition char_at (cd : list (list ascii)) (pos : nat * nat) : option ascii :=
  line ← cd !! pos.1; line !! pos.2.

(** A guessable position: one that holds a non-blank character. *)
Definition nonblank (cd : list (list ascii)) (pos : nat * nat) : Prop :=
  ∃ c, char_at cd pos = Some c ∧ c ≠ blank.

(** A guessable position that is [EXACT_MATCH], and one that is not. *)
Definition revealed (cd : list (list ascii)) (st : list (list Z))
    (pos : nat * nat) : Prop :=
  nonblank cd pos ∧ state_get st pos.1 pos.2 = Some EXACT_MATCH.

Definition hidden (cd : list (list ascii)) (st : list (list Z))
    (pos : nat * nat) : Prop :=
  nonblank cd pos ∧ state_get st pos.1 pos.2 ≠ Some EXACT_MATCH.

(** Every guessable position is [EXACT_MATCH]. *)
Definition complete (cd : list (list ascii)) (st : list (list Z)) : Prop :=
  ∀ pos, nonblank cd pos → state_get st pos.1 pos.2 = Some EXACT_MATCH.

#[export] Instance nonblank_dec cd pos : Decision (nonblank cd pos).
Proof.
  unfold nonblank. destruct (char_at cd pos) as [c|].
  - destruct (decide (c ≠ blank)) as [H|H].
    + left. by exists c.
    + right. intros (c' & [= <-] & ?). done.
  - right. by intros (c' & [=] & ?).
Defined.

#[export] Instance revealed_dec cd st pos : Decision (revealed cd st pos).
Proof. unfold revealed. apply _. Defined.

#[export] Instance hidden_dec cd st pos : Decision (hidden cd st pos).
Proof. unfold hidden. apply _. Defined.

(** The windows of a line, by their start: those whose text is the guess,
    and those that differ from it in at most [FUZZY_FAIL] places while the
    guess has at least [FUZZY_COUNT] non-blank characters. *)
Definition exact_starts (g line : list ascii) : list nat :=
  filter (λ j, window_text line j (length g) = g) (seq 0 (windows line g)).

Definition fuzzy_starts (g line : list ascii) : list nat :=
  filter (λ j, window_text line j (length g) ≠ g ∧
               fuzzy_rule (window_text line j (length g)) g)
         (seq 0 (windows line g)).

(** A string literal as the characters of a [std::string]. *)
Definition text (x : string) : list ascii := list_ascii_of_string x.

(** The snippet loaded from the one line [int x = ine;], fuzzy matching
    enabled. *)
Definition sample : t := loadFromFile [text "int x = ine;"] true.

(** An operation on the grid: a guess, or an assist reveal with the raw
    value the generator yields for it. *)
Inductive op : Type :=
  | Guess (g : list ascii)
  | Reveal (raw : nat).

(** One operation, and a sequence of them, stopping at the first fault. *)
Definition apply_op (o : op) (cs : t) : option t :=
  match o with
  | Guess g => snd <$> guess g cs
  | Reveal raw => reveal raw cs
  end.

Fixpoint run (ops : list op) (cs : t) : option t :=
  match ops with
  | [] => Some cs
  | o :: ops => cs' ← apply_op o cs; run ops cs'
  end.

(** The number of hidden positions of a snippet. *)
Definition hidden_count (cs : t) : nat :=
  length (filter (hidden (code cs) (state cs)) (positions (code cs))).

End SnippetSpec.

(** ** Sample games and the words of the specification *)

Module GameSpec.
Import CodeSnippet SnippetSpec.

(** A point-mode game as the drivers create it (fuzzy matching and
    identifier visibility off, default coefficients), started on a
    snippet of one line of [n] characters [a]. *)
Definition point_sample (n : nat) : option pointGame.t :=
  match pointGame.new false false 100 500 1.5 0 with
  | Return g0 =>
      match pointGame.start
              {| drawn_pid := "P1000"; drawn_path := "codes/P1000.txt";
                 drawn_lines := Some [replicate n "a"%char] |} g0 with
      | Return (true, g1) => Some g1
      | _ => None
      end
  | Throw _ => None
  end.

(** The score as the specification words it, in binary64 arithmetic and
    in the order the source evaluates it: the raw score
    [pointFactor·guessed·guessed/total − guessPenalty·guesses], times
    [0.5] when the identifier is shown, times [0.8] when fuzzy matching
    is enabled, times [rewardFactor] when [guessed = total]. *)
Definition score_formula (pointFactor guessPenalty rewardFactor : float)
    (total guessed guesses : Z) (showPID fuzzy : bool) : float :=
  let raw := (pointFactor * int_to_double guessed * int_to_double guessed
                / int_to_double total
              - guessPenalty * int_to_double guesses)%float in
  let shown := if showPID then (raw * 0.5)%float else raw in
  let fuzzed := if fuzzy then (shown * 0x1.999999999999ap-1)%float else shown in
  if decide (guessed = total) then (fuzzed * rewardFactor)%float else fuzzed.

(** The same guesses, one after the other, at clock reading [0] and with
    a generator that yields [0]. *)
Fixpoint play {G : Type} `{Game.Mode G} (guesses : list (list ascii)) (g : G)
    : option G :=
  match guesses with
  | [] => Some g
  | guess :: rest => r ← Game.makeGuess guess 0 (λ _, 0%nat) g; play rest r.2
  end.

(** A guess-limited game as the drivers create it, started on a snippet
    of one line of [n] characters [a]. *)
Definition limited_sample (n : nat) : option guessLimitedGame.t :=
  match guessLimitedGame.start
          {| drawn_pid := "P1000"; drawn_path := "codes/P1000.txt";
             drawn_lines := Some [replicate n "a"%char] |}
          {| guessLimitedGame.game := Game.new true true;
             guessLimitedGame.maxGuesses := 0 |} with
  | Return (true, g) => Some g
  | _ => None
  end.

(** The reveals that a series of evaluations of the cadence asks for, at
    the clock readings [times] in turn. *)
Fixpoint polls (hz : Z) (times : list Z) (g : timeAttackGame.t)
    : Z * timeAttackGame.t :=
  match times with
  | [] => (0, g)
  | now :: rest =>
      let r1 := timeAttackGame.revealTimes hz now g in
      let r2 := polls hz rest r1.2 in
      (r1.1 + r2.1, r2.2)
  end.

(** Readings of a monotonic clock, none before [from]. *)
Fixpoint ascending (from : Z) (times : list Z) : Prop :=
  match times with
  | [] => True
  | now :: rest => from ≤ now ∧ ascending now rest
  end.

(** A time-attack game as the drivers create it, started at clock
    reading [now] on a snippet of one line of [n] characters [a]. *)
Definition time_sample (now : Z) (n : nat) : option timeAttackGame.t :=
  match timeAttackGame.start now
          {| drawn_pid := "P1000"; drawn_path := "codes/P1000.txt";
             drawn_lines := Some [replicate n "a"%char] |}
          {| timeAttackGame.game := Game.new true true;
             timeAttackGame.maxTime := 0;
             timeAttackGame.startTime := 0;
             timeAttackGame.lastRevealTime := 0 |} with
  | Return (true, g) => Some g
  | _ => None
  end.

(** The history line of a point-mode session that ends with [points]. *)
Definition point_record (double_to_string : float → string)
    (time pid : string) (points : float) : string :=
  GameHistoryFormatter.format time "Point" pid
    ("points: " +:+ double_to_string points +:+ " Win").

End GameSpec.

(** ** Further closed forms and predicates *)

Module MoreSpec.
Import CodeSnippet SnippetSpec.

(** A position [p] lies in a window of the first [n] of a line whose text
    is the guess. *)
Definition exact_cover (g line : list ascii) (n p : nat) : Prop :=
  Exists (λ j, (j ≤ p < j + length g)%nat ∧ window_text line j (length g) = g)
         (seq 0 n).

(** A position [p] lies in a window of the first [n] of a line that
    differs from the guess and passes the fuzzy rule. *)
Definition fuzzy_cover (g line : list ascii) (n p : nat) : Prop :=
  Exists (λ j, (j ≤ p < j + length g)%nat ∧
               window_text line j (length g) ≠ g ∧
               fuzzy_rule (window_text line j (length g)) g)
         (seq 0 n).

(** What the first [n] windows of a line make of the cell at [p] that
    held [v]. *)
Definition mark (fuzzy : bool) (g line : list ascii) (n p : nat) (v : Z) : Z :=
  if decide (exact_cover g line n p) then EXACT_MATCH
  else if decide (fuzzy = true ∧ fuzzy_cover g line n p ∧ v = UNGUESSED)
       then FUZZY_MATCH
       else v.

(** Every cell holds one of the three reveal states. *)
Definition in_range (st : list (list Z)) : Prop :=
  Forall (Forall (λ v, v = UNGUESSED ∨ v = FUZZY_MATCH ∨ v = EXACT_MATCH)) st.

(** Every non-blank character is followed by [MIN_LEN - 1] more
    characters of its line. *)
Definition padded (cd : list (list ascii)) : Prop :=
  ∀ i line p c, cd !! i = Some line → line !! p = Some c → c ≠ blank →
                (p + Z.to_nat MIN_LEN ≤ length line)%nat.

(** The guess that reads the [MIN_LEN] characters at a position. *)
Definition guess_at (cd : list (list ascii)) (pos : nat * nat) : list ascii :=
  window_text (default [] (cd !! pos.1)) pos.2 (Z.to_nat MIN_LEN).

(** One such guess for every non-blank position, in scan order. *)
Definition solution (cd : list (list ascii)) : list op :=
  (λ pos, Guess (guess_at cd pos)) <$> filter (nonblank cd) (positions cd).

(** What [getMasked] shows for a character [c] in state [v]. *)
Definition masked_char (placeholder fuzzyPlaceholder c : ascii) (v : Z) : ascii :=
  if decide (c = blank) then c
  else if decide (v = EXACT_MATCH) then c
  else if decide (v = FUZZY_MATCH) then fuzzyPlaceholder
  else if decide (v = UNGUESSED) then placeholder
  else c.

(** What the counters of a statistics repository satisfy when every
    game was recorded by one of the three modes: the total is the sum of
    the modes, the history has one line for each game, and the wins of a
    mode are among its games. *)
Definition consistent (s : StatisticsRepo.t) : Prop :=
  StatisticsRepo.totalGames s
  = StatisticsRepo.guessLimitedGames s + StatisticsRepo.timeAttackGames s
    + StatisticsRepo.pointGames s ∧
  Z.of_nat (length (StatisticsRepo.gameHistory s)) = StatisticsRepo.totalGames s ∧
  0 ≤ StatisticsRepo.guessLimitedWins s ≤ StatisticsRepo.guessLimitedGames s ∧
  0 ≤ StatisticsRepo.timeAttackWins s ≤ StatisticsRepo.timeAttackGames s ∧
  0 ≤ StatisticsRepo.pointGames s.

(** A word stands somewhere in the lines of a view. *)
Definition occurs (mask : list (list ascii)) (word : list ascii) : Prop :=
  ∃ line i, line ∈ mask ∧ (i + length word ≤ length line)%nat ∧
            take (length word) (drop i line) = word.

(** The guesses of a session in turn, each with the reading of the clock
    and the generator of its call of [makeGuess]. *)
Fixpoint session {G : Type} `{Game.Mode G}
    (turns : list (list ascii * Z * (nat → nat))) (g : G) : option G :=
  match turns with
  | [] => Some g
  | (guess, now, raws) :: rest =>
      r ← Game.makeGuess guess now raws g; session rest r.2
  end.

(** [cs'] is [cs] with the one cell at [pos] made [EXACT_MATCH]. *)
Definition revealed_at (cs cs' : t) (pos : nat * nat) : Prop :=
  code cs' = code cs ∧ fuzzyAllowed cs' = fuzzyAllowed cs ∧
  ∀ i p, state_get (state cs') i p
         = if decide ((i, p) = pos) then Some EXACT_MATCH
           else state_get (state cs) i p.

End MoreSpec.

(** ** Reasoning about loops *)

Section ForLoop.
Context {St : Type}.
Implicit Types (body : nat → St → option St) (s : St).

(** The invariant rule: an invariant that every iteration re-establishes
    without a fault holds when the loop ends, and the loop does end. *)
Lemma for_loop_inv (P : nat → St → Prop) body start count s :
  P start s →
  (∀ k s0, (start ≤ k < start + count)%nat → P k s0 →
           ∃ s1, body k s0 = Some s1 ∧ P (S k) s1) →
  ∃ s', for_loop body start count s = Some s' ∧ P (start + count)%nat s'.
Proof.
  revert start s. induction count as [|c IH]; intros start s HP Hstep.
  - exists s. rewrite Nat.add_0_r. done.
  - destruct (Hstep start s) as (s1 & Hb & HP1); [lia | done |].
    destruct (IH (S start) s1) as (s' & Hl & HP'); [done | |].
    + intros k s0 Hk. apply Hstep. lia.
    + exists s'. simpl. rewrite Hb. simpl.
      replace (start + S c)%nat with (S start + c)%nat by lia. done.
Qed.

End ForLoop.

(** [H : e = Some x] with [e] closed: replace [x] by the value of [e]. *)
Ltac evaluate H := vm_compute in H; injection H as <-.

Module SnippetFacts.
Import CodeSnippet SnippetSpec.

Lemma shape_length cd st : shape cd st → length cd = length st.
Proof. apply Forall2_length. Qed.

Lemma shape_lookup cd st i line :
  shape cd st → cd !! i = Some line →
  ∃ row, st !! i = Some row ∧ length line = length row.
Proof. intros H Hl. by apply (Forall2_lookup_l _ _ _ _ _ H Hl). Qed.

Lemma shape_insert cd st i row row' :
  shape cd st → st !! i = Some row → length row' = length row →
  shape cd (<[i := row']> st).
Proof.
  intros H Hi Hlen. unfold shape in *.
  apply Forall2_lookup. intros k.
  destruct (decide (k = i)) as [->|Hne].
  - pose proof (lookup_lt_Some _ _ _ Hi) as Hlt.
    rewrite list_lookup_insert_eq by done.
    destruct (cd !! i) as [line|] eqn:Hc.
    + constructor. destruct (shape_lookup _ _ _ _ H Hc) as (r & Hr & Hl).
      congruence.
    + apply lookup_ge_None in Hc. apply Forall2_length in H. lia.
  - rewrite list_lookup_insert_ne by done.
    by apply Forall2_lookup.
Qed.

Lemma wf_empty : wf empty.
Proof. constructor. Qed.

Lemma wf_loadFromFile lines fuzzy : wf (loadFromFile lines fuzzy).
Proof.
  unfold wf, shape, loadFromFile. simpl.
  apply Forall2_fmap_r, Forall_Forall2_diag, Forall_forall.
  intros line _. simpl. by rewrite length_replicate.
Qed.

Lemma state_put_Some st i p v row :
  st !! i = Some row → (p < length row)%nat →
  state_put st i p v = Some (<[i := <[p := v]> row]> st).
Proof.
  intros Hi Hp. unfold state_put. rewrite Hi. simpl.
  by rewrite decide_True.
Qed.

Lemma state_get_insert_eq st i p row :
  (i < length st)%nat → state_get (<[i := row]> st) i p = row !! p.
Proof. intros. unfold state_get. by rewrite list_lookup_insert_eq. Qed.

Lemma state_get_insert_ne st i i' p row :
  i ≠ i' → state_get (<[i := row]> st) i' p = state_get st i' p.
Proof. intros. unfold state_get. by rewrite list_lookup_insert_ne. Qed.

(** *** The window loops, in closed form *)

Lemma length_exact_row j len row : length (exact_row j len row) = length row.
Proof. apply length_imap. Qed.

Lemma length_fuzzy_row j len row : length (fuzzy_row j len row) = length row.
Proof. apply length_imap. Qed.

Lemma exact_row_S j k row :
  (j + k < length row)%nat →
  <[(j + k)%nat := EXACT_MATCH]> (exact_row j k row) = exact_row j (S k) row.
Proof.
  intros Hlt. apply list_eq. intros p. unfold exact_row.
  destruct (decide (p = j + k)%nat) as [->|Hne].
  - rewrite list_lookup_insert_eq by (rewrite length_imap; lia).
    rewrite list_lookup_imap.
    destruct (lookup_lt_is_Some_2 row (j + k)%nat Hlt) as [v ->]. simpl.
    rewrite decide_True by lia. done.
  - rewrite list_lookup_insert_ne by done. rewrite !list_lookup_imap.
    destruct (row !! p) as [v|]; [|done]. simpl.
    repeat case_decide; (done || lia).
Qed.

Lemma exact_row_0 j row : exact_row j 0 row = row.
Proof.
  apply list_eq. intros p. unfold exact_row. rewrite list_lookup_imap.
  destruct (row !! p); [|done]. simpl. rewrite decide_False by lia. done.
Qed.

Lemma fuzzy_row_0 j row : fuzzy_row j 0 row = row.
Proof.
  apply list_eq. intros p. unfold fuzzy_row. rewrite list_lookup_imap.
  destruct (row !! p); [|done]. simpl. rewrite decide_False by lia. done.
Qed.

Lemma fuzzy_row_S j k row v :
  fuzzy_row j k row !! (j + k)%nat = Some v →
  (if decide (v = UNGUESSED)
   then <[(j + k)%nat := FUZZY_MATCH]> (fuzzy_row j k row)
   else fuzzy_row j k row) = fuzzy_row j (S k) row.
Proof.
  intros Hv. apply list_eq. intros p.
  assert (row !! (j + k)%nat = Some v) as Hrow.
  { unfold fuzzy_row in Hv. rewrite list_lookup_imap in Hv.
    destruct (row !! (j + k)%nat) as [v0|]; [|done]. simpl in Hv.
    rewrite decide_False in Hv by lia. done. }
  pose proof (lookup_lt_Some _ _ _ Hrow) as Hlt.
  destruct (decide (p = j + k)%nat) as [->|Hne].
  - case_decide as Hz.
    + rewrite list_lookup_insert_eq by (rewrite length_fuzzy_row; lia).
      unfold fuzzy_row. rewrite list_lookup_imap, Hrow. simpl.
      rewrite decide_True; [done | split; [lia | done]].
    + rewrite Hv. unfold fuzzy_row. rewrite list_lookup_imap, Hrow. simpl.
      rewrite decide_False; [done | tauto].
  - transitivity (fuzzy_row j k row !! p).
    { case_decide; [by rewrite list_lookup_insert_ne | done]. }
    unfold fuzzy_row. rewrite !list_lookup_imap.
    destruct (row !! p) as [v0|]; [|done]. simpl.
    repeat case_decide; (done || lia || tauto).
Qed.

Lemma exact_loop st i j len row :
  st !! i = Some row → (j + len ≤ length row)%nat →
  for_loop (exact_body i j) 0 len st = Some (<[i := exact_row j len row]> st).
Proof.
  intros Hi Hlen. pose proof (lookup_lt_Some _ _ _ Hi) as Hlt.
  destruct (for_loop_inv
              (λ k s, (k ≤ len)%nat ∧ s = <[i := exact_row j k row]> st)
              (exact_body i j) 0 len st) as (s' & -> & _ & ->); [| |done].
  - split; [lia|]. by rewrite exact_row_0, list_insert_id.
  - intros k s0 Hk [_ ->]. eexists. split; [|split; [lia | reflexivity]].
    unfold exact_body.
    erewrite state_put_Some;
      [| by apply list_lookup_insert_eq | rewrite length_exact_row; lia].
    by rewrite list_insert_insert_eq, exact_row_S by lia.
Qed.

Lemma fuzzy_loop st i j len row :
  st !! i = Some row → (j + len ≤ length row)%nat →
  for_loop (fuzzy_body i j) 0 len st = Some (<[i := fuzzy_row j len row]> st).
Proof.
  intros Hi Hlen. pose proof (lookup_lt_Some _ _ _ Hi) as Hlt.
  destruct (for_loop_inv
              (λ k s, (k ≤ len)%nat ∧ s = <[i := fuzzy_row j k row]> st)
              (fuzzy_body i j) 0 len st) as (s' & -> & _ & ->); [| |done].
  - split; [lia|]. by rewrite fuzzy_row_0, list_insert_id.
  - intros k s0 Hk [_ ->]. eexists. split; [|split; [lia | reflexivity]].
    unfold fuzzy_body. rewrite state_get_insert_eq by done.
    destruct (lookup_lt_is_Some_2 (fuzzy_row j k row) (j + k)%nat) as [v Hv].
    { rewrite length_fuzzy_row. lia. }
    rewrite Hv. simpl. rewrite <- (fuzzy_row_S _ _ _ _ Hv).
    case_decide; [|done].
    erewrite state_put_Some;
      [| by apply list_lookup_insert_eq | rewrite length_fuzzy_row; lia].
    by rewrite list_insert_insert_eq.
Qed.

Lemma length_window_text line j len :
  (j + len ≤ length line)%nat → length (window_text line j len) = len.
Proof. intros. unfold window_text. rewrite length_take, length_drop. lia. Qed.

Lemma lookup_window_text line j len k :
  (k < len)%nat → window_text line j len !! k = line !! (j + k)%nat.
Proof.
  intros. unfold window_text. by rewrite lookup_take_lt, lookup_drop.
Qed.

Lemma failCount_snoc w g c gk :
  length w = length g →
  failCount (w ++ [c]) (g ++ [gk]) =
  if decide (c ≠ gk) then failCount w g + 1 else failCount w g.
Proof.
  intros Hlen. unfold failCount.
  rewrite zip_with_app by done. simpl. rewrite filter_app, length_app.
  rewrite filter_cons, filter_nil. simpl.
  case_decide; simpl; lia.
Qed.

Lemma significant_snoc g gk :
  significant (g ++ [gk]) =
  if decide (gk ≠ blank) then significant g + 1 else significant g.
Proof.
  unfold significant. rewrite filter_app, length_app.
  rewrite filter_cons, filter_nil.
  case_decide; simpl; lia.
Qed.

Lemma count_loop line g j :
  (j + length g ≤ length line)%nat →
  for_loop (count_body line g j) 0 (length g) (0, 0) =
  Some (failCount (window_text line j (length g)) g, significant g).
Proof.
  intros Hlen. set (w := window_text line j (length g)).
  assert (length w = length g) as Hw by (by apply length_window_text).
  destruct (for_loop_inv
              (λ k fc, (k ≤ length g)%nat ∧
                       fc = (failCount (take k w) (take k g),
                             significant (take k g)))
              (count_body line g j) 0 (length g) (0, 0))
    as (fc & -> & _ & ->).
  - split; [lia|]. by rewrite !take_0.
  - intros k fc Hk [_ ->].
    destruct (lookup_lt_is_Some_2 g k) as [gk Hgk]; [lia|].
    destruct (lookup_lt_is_Some_2 line (j + k)%nat) as [c Hc]; [lia|].
    assert (w !! k = Some c) as Hwk.
    { unfold w. rewrite lookup_window_text by lia. done. }
    eexists. split; [|split; [lia | reflexivity]].
    unfold count_body. rewrite Hgk. simpl. rewrite Hc. simpl.
    rewrite (take_S_r w k c), (take_S_r g k gk) by done.
    rewrite failCount_snoc, significant_snoc; [done|].
    rewrite !length_take. lia.
  - simpl. by rewrite (take_ge w), (take_ge g) by lia.
Qed.

Lemma length_window_row fuzzy g line j row :
  length (window_row fuzzy g line j row) = length row.
Proof.
  unfold window_row. repeat case_decide;
    auto using length_exact_row, length_fuzzy_row.
Qed.

(** One iteration of the [j] loop on a window that fits its line. *)
Lemma window_spec fuzzy g line i j result st row :
  st !! i = Some row → length line = length row →
  (j + length g ≤ length line)%nat →
  window fuzzy g line i j (result, st) =
  Some (window_result fuzzy g line j result,
        <[i := window_row fuzzy g line j row]> st).
Proof.
  intros Hi Hshape Hfit.
  unfold window, window_result, window_row, substr.
  rewrite decide_True by lia. simpl.
  fold (window_text line j (length g)).
  case_decide as Hex.
  - rewrite (exact_loop _ _ _ _ row) by (done || lia). reflexivity.
  - destruct fuzzy; simpl.
    + rewrite count_loop by done. simpl. unfold fuzzy_rule.
      case_decide as Hfz.
      * rewrite !decide_True by done.
        rewrite (fuzzy_loop _ _ _ _ row) by (done || lia). reflexivity.
      * rewrite !(decide_False (P := true = true ∧ _)) by tauto.
        by rewrite list_insert_id.
    + by rewrite list_insert_id.
Qed.

(** *** A line and the whole snippet, in closed form *)

Lemma line_row_S fuzzy g line n row :
  line_row fuzzy g line (S n) row =
  window_row fuzzy g line n (line_row fuzzy g line n row).
Proof. unfold line_row. by rewrite seq_S, foldl_app. Qed.

Lemma line_result_S fuzzy g line n result :
  line_result fuzzy g line (S n) result =
  window_result fuzzy g line n (line_result fuzzy g line n result).
Proof. unfold line_result. by rewrite seq_S, foldl_app. Qed.

Lemma length_line_row fuzzy g line n row :
  length (line_row fuzzy g line n row) = length row.
Proof.
  induction n as [|n IH]; [done|].
  by rewrite line_row_S, length_window_row.
Qed.

Lemma windows_fit line g j :
  (j < windows line g)%nat → (j + length g ≤ length line)%nat.
Proof. unfold windows. lia. Qed.

Lemma windows_short line g :
  (length line < length g)%nat → windows line g = 0%nat.
Proof. unfold windows. lia. Qed.

Lemma guess_line_spec fuzzy g cd i line result st row :
  cd !! i = Some line → st !! i = Some row → length line = length row →
  guess_line fuzzy g cd i (result, st) =
  Some (line_result fuzzy g line (windows line g) result,
        <[i := line_row fuzzy g line (windows line g) row]> st).
Proof.
  intros Hc Hi Hshape. unfold guess_line. rewrite Hc. simpl.
  pose proof (lookup_lt_Some _ _ _ Hi) as Hlt.
  destruct (for_loop_inv
              (λ j acc, acc = (line_result fuzzy g line j result,
                               <[i := line_row fuzzy g line j row]> st))
              (window fuzzy g line i) 0 (windows line g) (result, st))
    as (acc & -> & ->); [| |done].
  - by rewrite list_insert_id.
  - intros j acc Hj ->. eexists. split; [|reflexivity].
    rewrite (window_spec _ _ _ _ _ _ _ (line_row fuzzy g line j row)).
    + by rewrite list_insert_insert_eq, line_row_S, line_result_S.
    + by apply list_lookup_insert_eq.
    + by rewrite length_line_row.
    + apply windows_fit. lia.
Qed.

Lemma shape_guess_state fuzzy g cd st :
  shape cd st → shape cd (guess_state fuzzy g cd st).
Proof.
  unfold shape, guess_state. induction 1 as [|line row cd st Hl H IH]; simpl.
  - constructor.
  - constructor; [by rewrite length_line_row | done].
Qed.

Lemma guess_loop_spec fuzzy g cd st result :
  shape cd st →
  for_loop (guess_line fuzzy g cd) 0 (length cd) (result, st) =
  Some (guess_result fuzzy g cd result, guess_state fuzzy g cd st).
Proof.
  intros Hshape. pose proof (shape_length _ _ Hshape) as Hlen.
  set (f := λ line row, line_row fuzzy g line (windows line g) row).
  destruct (for_loop_inv
              (λ i acc, acc = (guess_result fuzzy g (take i cd) result,
                               zip_with f (take i cd) (take i st) ++ drop i st))
              (guess_line fuzzy g cd) 0 (length cd) (result, st))
    as (acc & -> & ->).
  - by rewrite !take_0, drop_0.
  - intros i acc Hi ->.
    destruct (lookup_lt_is_Some_2 cd i) as [line Hline]; [lia|].
    destruct (shape_lookup _ _ _ _ Hshape Hline) as (row & Hrow & Hl).
    assert (length (zip_with f (take i cd) (take i st)) = i) as Hzl.
    { rewrite length_zip_with, !length_take. lia. }
    eexists. split; [|reflexivity].
    erewrite guess_line_spec; [|done| |done].
    2:{ rewrite lookup_app_r by lia. rewrite Hzl, Nat.sub_diag.
        rewrite lookup_drop, Nat.add_0_r. done. }
    f_equal. f_equal.
    + rewrite (take_S_r cd i line) by done.
      unfold guess_result. by rewrite foldl_app.
    + rewrite (take_S_r cd i line), (take_S_r st i row) by done.
      rewrite zip_with_app by (rewrite !length_take; lia). simpl.
      rewrite <- (Nat.add_0_r i) at 1. rewrite <- Hzl at 1.
      rewrite insert_app_r. rewrite (drop_S st row i) by done. simpl.
      by rewrite <- app_assoc.
  - simpl. rewrite take_ge, (take_ge st), drop_ge by lia.
    by rewrite app_nil_r.
Qed.

(** [guess] never faults on a well-formed snippet, and this is what it
    returns. *)
Lemma guess_spec g cs :
  wf cs →
  guess g cs =
  Some (if decide (Z.of_nat (length g) < MIN_LEN) then ((-1, -1), cs)
        else (guess_result (fuzzyAllowed cs) g (code cs)
                (if fuzzyAllowed cs then (0, 0) else (0, -1)),
              set_state (guess_state (fuzzyAllowed cs) g (code cs) (state cs))
                cs)).
Proof.
  intros Hwf. unfold guess. case_decide; [done|].
  by rewrite guess_loop_spec.
Qed.

(** *** Monotone reveal *)

Lemma advances_refl v : advances v v.
Proof. by left. Qed.

Lemma advances_trans v1 v2 v3 :
  advances v1 v2 → advances v2 v3 → advances v1 v3.
Proof. unfold advances, UNGUESSED, FUZZY_MATCH, EXACT_MATCH. lia. Qed.

Lemma advances_exact v' : advances EXACT_MATCH v' → v' = EXACT_MATCH.
Proof. unfold advances, UNGUESSED, FUZZY_MATCH, EXACT_MATCH. lia. Qed.

Lemma advances_fuzzy v' : advances FUZZY_MATCH v' → v' ≠ UNGUESSED.
Proof. unfold advances, UNGUESSED, FUZZY_MATCH, EXACT_MATCH. lia. Qed.

Lemma row_advances_refl (row : list Z) : Forall2 advances row row.
Proof. apply Forall_Forall2_diag, Forall_forall. intros. apply advances_refl. Qed.

Lemma row_advances_trans (r1 r2 r3 : list Z) :
  Forall2 advances r1 r2 → Forall2 advances r2 r3 → Forall2 advances r1 r3.
Proof.
  apply Forall2_trans, advances_trans.
Qed.

Lemma grid_advances_refl st : grid_advances st st.
Proof.
  apply Forall_Forall2_diag, Forall_forall. intros. apply row_advances_refl.
Qed.

Lemma grid_advances_trans st1 st2 st3 :
  grid_advances st1 st2 → grid_advances st2 st3 → grid_advances st1 st3.
Proof.
  apply Forall2_trans, row_advances_trans.
Qed.

Lemma imap_advances (f : nat → Z → Z) (row : list Z) :
  (∀ p v, advances v (f p v)) → Forall2 advances row (imap f row).
Proof.
  intros Hf. apply Forall2_same_length_lookup. split; [by rewrite length_imap|].
  intros p v v' Hv. rewrite list_lookup_imap, Hv. simpl.
  intros [= <-]. apply Hf.
Qed.

Lemma exact_row_advances j len row : Forall2 advances row (exact_row j len row).
Proof.
  apply imap_advances. intros p v. unfold advances.
  case_decide; auto.
Qed.

Lemma fuzzy_row_advances j len row : Forall2 advances row (fuzzy_row j len row).
Proof.
  apply imap_advances. intros p v. unfold advances.
  case_decide; [right; right; tauto | by left].
Qed.

Lemma window_row_advances fuzzy g line j row :
  Forall2 advances row (window_row fuzzy g line j row).
Proof.
  unfold window_row. repeat case_decide;
    auto using exact_row_advances, fuzzy_row_advances, row_advances_refl.
Qed.

Lemma line_row_advances fuzzy g line n row :
  Forall2 advances row (line_row fuzzy g line n row).
Proof.
  induction n as [|n IH]; [apply row_advances_refl|].
  rewrite line_row_S.
  eauto using row_advances_trans, window_row_advances.
Qed.

Lemma guess_state_advances fuzzy g cd st :
  shape cd st → grid_advances st (guess_state fuzzy g cd st).
Proof.
  unfold shape, guess_state, grid_advances.
  induction 1; simpl; constructor; auto using line_row_advances.
Qed.

Lemma insert_advances st i p row :
  st !! i = Some row →
  grid_advances st (<[i := <[p := EXACT_MATCH]> row]> st).
Proof.
  intros Hi. apply Forall2_same_length_lookup.
  split; [by rewrite length_insert|].
  intros k r r' Hr. destruct (decide (k = i)) as [->|Hne].
  - rewrite list_lookup_insert_eq by by eapply lookup_lt_Some.
    intros [= <-]. assert (r = row) as -> by congruence.
    apply Forall2_same_length_lookup. split; [by rewrite length_insert|].
    intros q v v' Hv. destruct (decide (q = p)) as [->|Hq].
    + rewrite list_lookup_insert_eq by by eapply lookup_lt_Some.
      intros [= <-]. right. by left.
    + rewrite list_lookup_insert_ne by done. rewrite Hv.
      intros [= <-]. apply advances_refl.
  - rewrite list_lookup_insert_ne by done. rewrite Hr.
    intros [= <-]. apply row_advances_refl.
Qed.

Lemma grid_advances_get st st' i p v :
  grid_advances st st' → state_get st i p = Some v →
  ∃ v', state_get st' i p = Some v' ∧ advances v v'.
Proof.
  unfold state_get. intros H Hg.
  destruct (st !! i) as [row|] eqn:Hi; [|done]. simpl in Hg.
  destruct (Forall2_lookup_l _ _ _ _ _ H Hi) as (row' & Hi' & Hrow).
  destruct (Forall2_lookup_l _ _ _ _ _ Hrow Hg) as (v' & Hv' & Hadv).
  exists v'. by rewrite Hi'.
Qed.

Lemma grid_advances_shape cd st st' :
  shape cd st → grid_advances st st' → shape cd st'.
Proof.
  unfold shape, grid_advances. intros H. revert st'.
  induction H as [|line row cd st Hl H IH]; inversion 1; subst; constructor.
  - rewrite Hl. by eapply Forall2_length.
  - by apply IH.
Qed.

(** *** The scans: [reveal], [check], [getGuessedNumber] *)

Section Cell.
Context (cd : list (list ascii)) (st : list (list Z)).
Context (i j : nat) (line : list ascii) (row : list Z) (c : ascii) (v : Z).
Hypothesis Hline : cd !! i = Some line.
Hypothesis Hrow : st !! i = Some row.
Hypothesis Hc : line !! j = Some c.
Hypothesis Hv : row !! j = Some v.

Lemma cell_char : char_at cd (i, j) = Some c.
Proof using Hline Hc. unfold char_at. simpl. by rewrite Hline. Qed.

Lemma cell_state : state_get st i j = Some v.
Proof using Hrow Hv. unfold state_get. by rewrite Hrow. Qed.

Lemma cell_nonblank : nonblank cd (i, j) ↔ c ≠ blank.
Proof using Hline Hc.
  unfold nonblank. rewrite cell_char. split.
  - by intros (c' & [= <-] & ?).
  - intros. by exists c.
Qed.

Lemma cell_hidden : hidden cd st (i, j) ↔ c ≠ blank ∧ v ≠ EXACT_MATCH.
Proof using Hline Hrow Hc Hv.
  unfold hidden. simpl. rewrite cell_nonblank, cell_state.
  split; intros [? ?]; split; congruence.
Qed.

Lemma cell_revealed : revealed cd st (i, j) ↔ c ≠ blank ∧ v = EXACT_MATCH.
Proof using Hline Hrow Hc Hv.
  unfold revealed. simpl. rewrite cell_nonblank, cell_state.
  split; intros [? ?]; split; congruence.
Qed.
End Cell.

Lemma elem_of_positions cd i j :
  (i, j) ∈ positions cd ↔ ∃ line, cd !! i = Some line ∧ (j < length line)%nat.
Proof.
  unfold positions. rewrite list_elem_of_join. split.
  - intros (l & Hin & Hl). apply list_elem_of_lookup in Hl as [k Hk].
    rewrite list_lookup_imap in Hk.
    destruct (cd !! k) as [line|] eqn:Hline; [|done]. simpl in Hk.
    injection Hk as <-. apply list_elem_of_fmap in Hin as (j' & [= -> ->] & Hj).
    apply elem_of_seq in Hj. exists line. split; [done | lia].
  - intros (line & Hline & Hj). exists (pair i <$> seq 0 (length line)).
    split.
    + apply list_elem_of_fmap. exists j. split; [done|].
      apply elem_of_seq. lia.
    + apply list_elem_of_lookup. exists i.
      by rewrite list_lookup_imap, Hline.
Qed.

Lemma nonblank_position cd pos : nonblank cd pos → pos ∈ positions cd.
Proof.
  destruct pos as [i j]. intros (c & Hc & _). unfold char_at in Hc.
  simpl in Hc. destruct (cd !! i) as [line|] eqn:Hline; [|done].
  apply elem_of_positions. exists line. split; [done|].
  by eapply lookup_lt_Some.
Qed.

Lemma positions_snoc cd line :
  positions (cd ++ [line]) =
  positions cd ++ (pair (length cd) <$> seq 0 (length line)).
Proof.
  unfold positions. rewrite imap_app, join_app. simpl.
  by rewrite app_nil_r, Nat.add_0_r.
Qed.

Lemma positions_take_S cd i line :
  cd !! i = Some line →
  positions (take (S i) cd) =
  positions (take i cd) ++ (pair i <$> seq 0 (length line)).
Proof.
  intros Hline. rewrite (take_S_r cd i line) by done.
  rewrite positions_snoc, length_take.
  apply lookup_lt_Some in Hline. by rewrite Nat.min_l by lia.
Qed.

(** A scan of every cell, line by line, folds over [positions]. *)
Lemma scan_spec {A} (cellf : list ascii → nat → nat → A → option A)
    (f : A → nat * nat → A) cd st a :
  shape cd st →
  (∀ i j line row c v acc,
     cd !! i = Some line → st !! i = Some row →
     line !! j = Some c → row !! j = Some v →
     cellf line i j acc = Some (f acc (i, j))) →
  for_loop (λ i acc,
              line ← cd !! i; for_loop (cellf line i) 0 (length line) acc)
           0 (length cd) a =
  Some (foldl f a (positions cd)).
Proof.
  intros Hshape Hcell.
  destruct (for_loop_inv
              (λ i acc, acc = foldl f a (positions (take i cd)))
              (λ i acc,
                 line ← cd !! i; for_loop (cellf line i) 0 (length line) acc)
              0 (length cd) a) as (acc & -> & ->).
  - by rewrite take_0.
  - intros i acc Hi ->.
    destruct (lookup_lt_is_Some_2 cd i) as [line Hline]; [lia|].
    destruct (shape_lookup _ _ _ _ Hshape Hline) as (row & Hrow & Hl).
    rewrite Hline. simpl.
    set (a0 := foldl f a (positions (take i cd))).
    destruct (for_loop_inv
                (λ j acc, acc = foldl f a0 (pair i <$> seq 0 j))
                (cellf line i) 0 (length line) a0) as (acc & -> & ->).
    + done.
    + intros j acc Hj ->.
      destruct (lookup_lt_is_Some_2 line j) as [c Hc]; [lia|].
      destruct (lookup_lt_is_Some_2 row j) as [v Hv]; [lia|].
      eexists. split; [by eapply Hcell|].
      by rewrite seq_S, fmap_app, foldl_app.
    + eexists. split; [done|].
      rewrite (positions_take_S _ _ line) by done.
      by rewrite foldl_app.
  - simpl. by rewrite take_ge by lia.
Qed.

Lemma foldl_collect {A} (P : A → Prop) `{∀ x, Decision (P x)} (l acc : list A) :
  foldl (λ acc x, if decide (P x) then acc ++ [x] else acc) acc l =
  acc ++ filter P l.
Proof.
  revert acc. induction l as [|x l IH]; intros acc; simpl.
  - by rewrite app_nil_r.
  - rewrite IH, filter_cons. case_decide; [|done].
    by rewrite <- app_assoc.
Qed.

Lemma foldl_count {A} (P : A → Prop) `{∀ x, Decision (P x)} (l : list A) (n : Z) :
  foldl (λ n x, if decide (P x) then n + 1 else n) n l =
  n + Z.of_nat (length (filter P l)).
Proof.
  revert n. induction l as [|x l IH]; intros n; simpl; [lia|].
  rewrite IH, filter_cons. case_decide; simpl; lia.
Qed.

(** [posVec] as [reveal] builds it: the hidden positions, in scan order. *)
Lemma candidates_spec cs :
  wf cs →
  candidates cs = Some (filter (hidden (code cs) (state cs)) (positions (code cs))).
Proof.
  intros Hwf. unfold candidates.
  rewrite (scan_spec _ (λ acc pos,
             if decide (hidden (code cs) (state cs) pos)
             then acc ++ [pos] else acc) _ (state cs)); [|done|].
  - by rewrite foldl_collect.
  - intros i j line row c v acc Hline Hrow Hc Hv.
    unfold reveal_cell. rewrite Hc. simpl.
    pose proof (cell_hidden _ _ _ _ _ _ _ _ Hline Hrow Hc Hv) as Hh.
    rewrite (cell_state _ _ _ _ _ Hrow Hv).
    repeat (case_decide; simpl); (done || tauto).
Qed.

(** [getGuessedNumber] counts the revealed positions. *)
Lemma getGuessedNumber_spec cs :
  wf cs →
  getGuessedNumber cs =
  Some (Z.of_nat (length (filter (revealed (code cs) (state cs))
                                 (positions (code cs))))).
Proof.
  intros Hwf. unfold getGuessedNumber.
  rewrite (scan_spec _ (λ n pos,
             if decide (revealed (code cs) (state cs) pos)
             then n + 1 else n) _ (state cs)); [|done|].
  - by rewrite foldl_count.
  - intros i j line row c v acc Hline Hrow Hc Hv.
    unfold guessed_cell. rewrite Hc. simpl.
    pose proof (cell_revealed _ _ _ _ _ _ _ _ Hline Hrow Hc Hv) as Hh.
    rewrite (cell_state _ _ _ _ _ Hrow Hv).
    repeat (case_decide; simpl); (done || tauto).
Qed.

Lemma complete_positions cd st :
  complete cd st ↔ Forall (λ pos, ¬ hidden cd st pos) (positions cd).
Proof.
  rewrite Forall_forall. unfold complete, hidden. split.
  - intros Hall pos _ [Hnb Hne]. auto.
  - intros Hall pos Hnb.
    destruct (decide (state_get st pos.1 pos.2 = Some EXACT_MATCH)) as [|Hne];
      [done|].
    destruct (Hall pos); auto using nonblank_position.
Qed.

(** [check()] answers whether the snippet is complete. *)
Lemma check_spec cs :
  wf cs →
  ∃ ok, check cs = Some ok ∧ (ok = true ↔ complete (code cs) (state cs)).
Proof.
  destruct cs as [cd st fz]. unfold wf, check. simpl. intros Hwf.
  destruct (for_loop_inv
              (λ i (ok : bool),
                 ok = true ↔
                 Forall (λ pos, ¬ hidden cd st pos) (positions (take i cd)))
              (λ i ok,
                 line ← cd !! i;
                 acc ← for_loop (check_cell st line i) 0 (length line)
                                (ok, false);
                 Some acc.1)
              0 (length cd) true) as (ok & Hok & Hinv).
  - rewrite take_0. split; [constructor | done].
  - intros i ok Hi Hinv.
    destruct (lookup_lt_is_Some_2 cd i) as [line Hline]; [lia|].
    destruct (shape_lookup _ _ _ _ Hwf Hline) as (row & Hrow & Hl).
    rewrite Hline. simpl.
    destruct (for_loop_inv
                (λ j (acc : bool * bool),
                   (acc.2 = true → acc.1 = false) ∧
                   (acc.1 = true ↔
                    Forall (λ pos, ¬ hidden cd st pos)
                           (positions (take i cd) ++ (pair i <$> seq 0 j))))
                (check_cell st line i) 0 (length line) (ok, false))
      as (acc & -> & _ & Hacc).
    + simpl. rewrite app_nil_r. done.
    + intros j [ok' broken] Hj [Hbr Hinv']. simpl in Hbr, Hinv'.
      destruct (lookup_lt_is_Some_2 line j) as [c Hc]; [lia|].
      destruct (lookup_lt_is_Some_2 row j) as [v Hv]; [lia|].
      pose proof (cell_hidden _ _ _ _ _ _ _ _ Hline Hrow Hc Hv) as Hh.
      assert (Forall (λ pos, ¬ hidden cd st pos)
                (positions (take i cd) ++ (pair i <$> seq 0 (S j))) ↔
              Forall (λ pos, ¬ hidden cd st pos)
                (positions (take i cd) ++ (pair i <$> seq 0 j)) ∧
              ¬ hidden cd st (i, j)) as Hsplit.
      { rewrite seq_S, fmap_app, app_assoc, Forall_app. simpl.
        by rewrite Forall_singleton. }
      unfold check_cell. simpl. destruct broken.
      * eexists. split; [done|]. simpl. split; [done|].
        rewrite Hsplit, <- Hinv', (Hbr eq_refl). split; [done | by intros [? _]].
      * assert (state_get st i j = Some v) as Hget
          by apply (cell_state _ _ _ _ _ Hrow Hv).
        rewrite Hc. simpl. rewrite Hget.
        repeat (case_decide; simpl); eexists; (split; [done|]); simpl;
          rewrite Hsplit, <- Hinv'; (split; [done|]); try tauto.
        split; [done | tauto].
    + eexists. split; [done|]. simpl.
      by rewrite (positions_take_S _ _ line).
  - exists ok. split; [done|]. simpl in Hinv.
    rewrite take_ge in Hinv by done. by rewrite complete_positions.
Qed.

Lemma complete_advances cd st st' :
  complete cd st → grid_advances st st' → complete cd st'.
Proof.
  intros Hc Hadv pos Hnb.
  destruct (grid_advances_get _ _ _ _ _ Hadv (Hc pos Hnb)) as (v' & -> & Hv).
  by rewrite (advances_exact _ Hv).
Qed.

(** [reveal] never faults on a well-formed snippet: it leaves a snippet
    with no hidden position alone and otherwise sets one hidden position,
    the one drawn, to [EXACT_MATCH]. *)
Lemma reveal_spec raw cs :
  wf cs →
  let posVec := filter (hidden (code cs) (state cs)) (positions (code cs)) in
  (posVec = [] ∧ reveal raw cs = Some cs) ∨
  (∃ i j row,
     posVec !! dist (length posVec - 1) raw = Some (i, j) ∧
     hidden (code cs) (state cs) (i, j) ∧
     state cs !! i = Some row ∧ (j < length row)%nat ∧
     reveal raw cs = Some (set_state (<[i := <[j := EXACT_MATCH]> row]> (state cs)) cs)).
Proof.
  intros Hwf posVec. unfold reveal. rewrite candidates_spec by done.
  simpl. fold posVec. destruct posVec as [|pos0 rest] eqn:Hpv; [by left|].
  right.
  destruct (lookup_lt_is_Some_2 (pos0 :: rest)
              (dist (length (pos0 :: rest) - 1) raw)) as [[i j] Hpos].
  { unfold dist.
    replace (S (length (pos0 :: rest) - 1)) with (length (pos0 :: rest))
      by (simpl; lia).
    apply Nat.mod_upper_bound. done. }
  assert (hidden (code cs) (state cs) (i, j)) as Hhid.
  { apply list_elem_of_lookup_2 in Hpos. rewrite <- Hpv in Hpos.
    unfold posVec in Hpos. by apply list_elem_of_filter in Hpos as [? _]. }
  pose proof (nonblank_position _ _ (proj1 Hhid)) as Hin.
  apply elem_of_positions in Hin as (line & Hline & Hj).
  destruct (shape_lookup _ _ _ _ Hwf Hline) as (row & Hrow & Hl).
  exists i, j, row. rewrite Hpos. simpl.
  rewrite (state_put_Some _ _ _ _ row) by (done || lia).
  split_and!; (done || lia || reflexivity).
Qed.

(** *** What a call of [guess] counts and marks *)

Lemma line_result_count fuzzy g line n result :
  line_result fuzzy g line n result =
  (result.1 + Z.of_nat (length (filter
       (λ j, window_text line j (length g) = g) (seq 0 n))),
   result.2 + (if fuzzy then Z.of_nat (length (filter
       (λ j, window_text line j (length g) ≠ g ∧
             fuzzy_rule (window_text line j (length g)) g) (seq 0 n)))
               else 0)).
Proof.
  induction n as [|n IH].
  - unfold line_result. destruct result, fuzzy; simpl; f_equal; lia.
  - rewrite line_result_S, IH, seq_S, !filter_app, !length_app. simpl.
    rewrite !filter_cons, !filter_nil. unfold window_result. simpl.
    destruct fuzzy; repeat (case_decide; simpl); f_equal;
      try lia; tauto.
Qed.

Lemma guess_result_count fuzzy g cd result :
  guess_result fuzzy g cd result =
  (result.1 + Z.of_nat (sum_list_with (λ line, length (exact_starts g line)) cd),
   result.2 + (if fuzzy
               then Z.of_nat (sum_list_with
                                (λ line, length (fuzzy_starts g line)) cd)
               else 0)).
Proof.
  unfold guess_result. revert result.
  induction cd as [|line cd IH]; intros result; simpl.
  - destruct result, fuzzy; simpl; f_equal; lia.
  - rewrite IH, line_result_count. unfold exact_starts, fuzzy_starts. simpl.
    destruct fuzzy; f_equal; lia.
Qed.

Lemma lookup_exact_row j len row p v :
  row !! p = Some v →
  exact_row j len row !! p =
  Some (if decide (j ≤ p < j + len)%nat then EXACT_MATCH else v).
Proof. intros Hv. unfold exact_row. by rewrite list_lookup_imap, Hv. Qed.

Lemma lookup_fuzzy_row j len row p v :
  row !! p = Some v →
  fuzzy_row j len row !! p =
  Some (if decide ((j ≤ p < j + len)%nat ∧ v = UNGUESSED)
        then FUZZY_MATCH else v).
Proof. intros Hv. unfold fuzzy_row. by rewrite list_lookup_imap, Hv. Qed.

(** A window that matched exactly stays [EXACT_MATCH] until the line is
    done. *)
Lemma line_row_exact fuzzy g line n row j p :
  (j < n)%nat → window_text line j (length g) = g →
  (j ≤ p < j + length g)%nat → (p < length row)%nat →
  line_row fuzzy g line n row !! p = Some EXACT_MATCH.
Proof.
  intros Hj Hex Hp Hlen. induction n as [|n IH]; [lia|].
  rewrite line_row_S.
  destruct (decide (j = n)) as [->|Hne].
  - unfold window_row. simpl. rewrite decide_True by done.
    destruct (lookup_lt_is_Some_2 (line_row fuzzy g line n row) p) as [v Hv].
    { by rewrite length_line_row. }
    rewrite (lookup_exact_row _ _ _ _ v) by done.
    by rewrite decide_True.
  - assert (line_row fuzzy g line n row !! p = Some EXACT_MATCH) as Hn
      by (apply IH; lia).
    destruct (Forall2_lookup_l _ _ _ _ _
                (window_row_advances fuzzy g line n _) Hn) as (v' & -> & Hv).
    by rewrite (advances_exact _ Hv).
Qed.

Lemma lookup_guess_state fuzzy g cd st i line row :
  cd !! i = Some line → st !! i = Some row →
  guess_state fuzzy g cd st !! i =
  Some (line_row fuzzy g line (windows line g) row).
Proof.
  intros Hl Hr. unfold guess_state. by rewrite lookup_zip_with, Hl, Hr.
Qed.

Lemma state_get_row st i p row :
  st !! i = Some row → state_get st i p = row !! p.
Proof. intros Hi. unfold state_get. by rewrite Hi. Qed.

(** *** The matching engine *)

(** C1. For a guess of at least [MIN_LEN] characters and a window of a
    line whose text is the guess verbatim: the iteration of that window
    increments [result[0]] and leaves [result[1]] alone, sets every
    position of the window to [EXACT_MATCH] whatever it held, and touches
    no other position (no fuzzy evaluation).  For the call as a whole:
    [result[0]] is the number of windows equal to the guess, [result[1]]
    the number of windows that differ from it and pass the fuzzy rule (so
    no window is counted twice), and the positions of the window are
    [EXACT_MATCH] when the call returns. *)
Theorem exact_match_precedence (g : list ascii) (cs : t) (i j : nat)
    (line : list ascii) :
  wf cs → MIN_LEN ≤ Z.of_nat (length g) →
  code cs !! i = Some line → (j + length g ≤ length line)%nat →
  window_text line j (length g) = g →
  (∀ result st, shape (code cs) st →
     ∃ st',
       window (fuzzyAllowed cs) g line i j (result, st) =
         Some ((result.1 + 1, result.2), st') ∧
       (∀ p, (j ≤ p < j + length g)%nat →
             state_get st' i p = Some EXACT_MATCH) ∧
       (∀ i' p, ¬ (i' = i ∧ (j ≤ p < j + length g)%nat) →
                state_get st' i' p = state_get st i' p)) ∧
  (∀ line' j', j' ∈ exact_starts g line' → j' ∉ fuzzy_starts g line') ∧
  ∃ result cs',
    guess g cs = Some (result, cs') ∧
    result.1 = Z.of_nat (sum_list_with (λ line', length (exact_starts g line'))
                                       (code cs)) ∧
    result.2 = (if fuzzyAllowed cs
                then Z.of_nat (sum_list_with
                                 (λ line', length (fuzzy_starts g line'))
                                 (code cs))
                else -1) ∧
    (∀ p, (j ≤ p < j + length g)%nat →
          state_get (state cs') i p = Some EXACT_MATCH).
Proof.
  intros Hwf Hlen Hline Hfit Hex. split_and!.
  - intros result st Hshape.
    destruct (shape_lookup _ _ _ _ Hshape Hline) as (row & Hrow & Hl).
    pose proof (lookup_lt_Some _ _ _ Hrow) as Hi.
    eexists. split_and!.
    + rewrite (window_spec _ _ _ _ _ _ _ row) by done.
      unfold window_result, window_row. simpl.
      by rewrite !decide_True by done.
    + intros p Hp. rewrite state_get_insert_eq by done.
      destruct (lookup_lt_is_Some_2 row p) as [v Hv]; [lia|].
      rewrite (lookup_exact_row _ _ _ _ v) by done. by rewrite decide_True.
    + intros i' p Hout. destruct (decide (i = i')) as [<-|Hne].
      * rewrite state_get_insert_eq by done.
        rewrite (state_get_row _ _ _ row) by done.
        destruct (row !! p) as [v|] eqn:Hv.
        -- rewrite (lookup_exact_row _ _ _ _ v) by done.
           rewrite decide_False; [done | tauto].
        -- apply lookup_ge_None. rewrite length_exact_row.
           by apply lookup_ge_None.
      * by rewrite state_get_insert_ne.
  - intros line' j' Hin Hfz. unfold exact_starts, fuzzy_starts in *.
    apply list_elem_of_filter in Hin as [Heq _].
    apply list_elem_of_filter in Hfz as [[Hne _] _]. done.
  - destruct (shape_lookup _ _ _ _ Hwf Hline) as (row & Hrow & Hl).
    eexists _, _. rewrite guess_spec by done.
    rewrite decide_False by lia. split; [done|].
    rewrite guess_result_count. simpl. split_and!.
    + by destruct (fuzzyAllowed cs).
    + destruct (fuzzyAllowed cs); simpl; lia.
    + intros p Hp.
      rewrite (state_get_row _ _ _ _ (lookup_guess_state _ _ _ _ _ _ _ Hline Hrow)).
      apply (line_row_exact _ _ _ _ _ j); [|done|done|lia].
      unfold windows. lia.
Qed.

Lemma exact_match_precedence_witness :
  ∃ cs', guess (text "int") sample = Some ((1, 1), cs') ∧
         state_get (state cs') 0 2 = Some EXACT_MATCH.
Proof.
  destruct (exact_match_precedence (text "int") sample 0 0
              (text "int x = ine;  ")) as (_ & _ & r & cs' & Hg & H1 & H2 & Hst).
  - repeat constructor.
  - unfold MIN_LEN. simpl. lia.
  - reflexivity.
  - simpl. lia.
  - reflexivity.
  - exists cs'. split.
    + rewrite Hg. destruct r as [r1 r2]. simpl in H1, H2. by rewrite H1, H2.
    + apply Hst. simpl. lia.
Defined.

(** C2. With fuzzy matching enabled, on a window whose text is not the
    guess: [failCount] being the number of offsets at which window and
    guess differ and [significant] the number of non-blank characters of
    the guess, the iteration increments [result[1]] exactly when
    [failCount ≤ 1] and [significant ≥ 2]; it then turns the [UNGUESSED]
    positions of the window into [FUZZY_MATCH] and leaves every other
    position as it is; otherwise it changes nothing.  Window [ine]
    against guess [int] has [failCount = 1] and [significant = 3], and is
    counted as a fuzzy match. *)
Theorem fuzzy_match_rule (g line : list ascii) (i j : nat) (result : Z * Z)
    (st : list (list Z)) (row : list Z) :
  st !! i = Some row → length line = length row →
  (j + length g ≤ length line)%nat →
  window_text line j (length g) ≠ g →
  let w := window_text line j (length g) in
  (failCount w g ≤ 1 ∧ 2 ≤ significant g →
   ∃ st',
     window true g line i j (result, st) =
       Some ((result.1, result.2 + 1), st') ∧
     (∀ p v, (j ≤ p < j + length g)%nat → state_get st i p = Some v →
             state_get st' i p =
             Some (if decide (v = UNGUESSED) then FUZZY_MATCH else v)) ∧
     (∀ i' p, ¬ (i' = i ∧ (j ≤ p < j + length g)%nat) →
              state_get st' i' p = state_get st i' p)) ∧
  (¬ (failCount w g ≤ 1 ∧ 2 ≤ significant g) →
   window true g line i j (result, st) = Some (result, st)) ∧
  failCount (text "ine") (text "int") = 1 ∧
  significant (text "int") = 3 ∧
  ∃ cs', guess (text "int") (loadFromFile [text "ine"] true)
           = Some ((0, 1), cs') ∧
         state cs' = [[FUZZY_MATCH; FUZZY_MATCH; FUZZY_MATCH; UNGUESSED; UNGUESSED]].
Proof.
  intros Hrow Hl Hfit Hne w.
  pose proof (lookup_lt_Some _ _ _ Hrow) as Hi.
  pose proof (window_spec true g line i j result st row Hrow Hl Hfit) as Hw.
  unfold window_result, window_row in Hw. simpl in Hw. fold w in Hw.
  rewrite !(decide_False (P := w = g)) in Hw by done.
  unfold fuzzy_rule, FUZZY_FAIL, FUZZY_COUNT in Hw.
  split_and!.
  - intros Hrule. rewrite !decide_True in Hw by done.
    eexists. split_and!; [exact Hw | |].
    + intros p v Hp Hv. rewrite state_get_insert_eq by done.
      rewrite (state_get_row _ _ _ row) in Hv by done.
      rewrite (lookup_fuzzy_row _ _ _ _ v) by done.
      repeat case_decide; (done || tauto).
    + intros i' p Hout. destruct (decide (i = i')) as [<-|Hne'].
      * rewrite state_get_insert_eq by done.
        rewrite (state_get_row _ _ _ row) by done.
        destruct (row !! p) as [v|] eqn:Hv.
        -- rewrite (lookup_fuzzy_row _ _ _ _ v) by done.
           rewrite decide_False; [done | tauto].
        -- apply lookup_ge_None. rewrite length_fuzzy_row.
           by apply lookup_ge_None.
      * by rewrite state_get_insert_ne.
  - intros Hrule. rewrite !decide_False in Hw by tauto.
    by rewrite list_insert_id in Hw.
  - reflexivity.
  - reflexivity.
  - eexists. split; reflexivity.
Qed.

Lemma fuzzy_match_rule_witness :
  ∃ st', window true (text "int") (text "ine  ") 0 0
           ((0, 0), [[0; 0; 2; 0; 0]]) = Some ((0, 1), st') ∧
         state_get st' 0 1 = Some FUZZY_MATCH ∧
         state_get st' 0 2 = Some EXACT_MATCH.
Proof.
  destruct (fuzzy_match_rule (text "int") (text "ine  ") 0 0 (0, 0)
              [[0; 0; 2; 0; 0]] [0; 0; 2; 0; 0])
    as (Hyes & _); [reflexivity | reflexivity | simpl; lia | discriminate |].
  destruct Hyes as (st' & Hw & Hin & _).
  - split; [reflexivity | unfold significant; simpl; lia].
  - exists st'. split_and!; [exact Hw | |].
    + by rewrite (Hin 1%nat 0) by (simpl; (lia || reflexivity)).
    + by rewrite (Hin 2%nat 2) by (simpl; (lia || reflexivity)).
Defined.

(** *** Sequences of operations on the reveal grid *)

Lemma guess_too_short g cs :
  Z.of_nat (length g) < MIN_LEN → guess g cs = Some ((-1, -1), cs).
Proof. intros Hlen. unfold guess. by rewrite decide_True. Qed.

Lemma guess_advances g cs :
  wf cs →
  ∃ result cs', guess g cs = Some (result, cs') ∧ wf cs' ∧
                code cs' = code cs ∧ fuzzyAllowed cs' = fuzzyAllowed cs ∧
                grid_advances (state cs) (state cs').
Proof.
  intros Hwf. rewrite guess_spec by done. case_decide.
  - eexists _, _. split_and!; (done || apply grid_advances_refl).
  - eexists _, _. split_and!; try done.
    + by apply shape_guess_state.
    + by apply guess_state_advances.
Qed.

Lemma reveal_advances raw cs :
  wf cs →
  ∃ cs', reveal raw cs = Some cs' ∧ wf cs' ∧
         code cs' = code cs ∧ fuzzyAllowed cs' = fuzzyAllowed cs ∧
         grid_advances (state cs) (state cs').
Proof.
  intros Hwf.
  destruct (reveal_spec raw cs Hwf)
    as [[_ ->]|(i & j & row & _ & _ & Hrow & Hj & ->)].
  - exists cs. split_and!; (done || apply grid_advances_refl).
  - eexists. split_and!; try done.
    + unfold wf. simpl. eapply shape_insert; [done..|].
      by rewrite length_insert.
    + by apply insert_advances.
Qed.

Lemma apply_op_advances o cs :
  wf cs →
  ∃ cs', apply_op o cs = Some cs' ∧ wf cs' ∧ code cs' = code cs ∧
         grid_advances (state cs) (state cs').
Proof.
  intros Hwf. destruct o as [g|raw]; simpl.
  - destruct (guess_advances g cs Hwf) as (r & cs' & -> & ? & ? & ? & ?).
    by exists cs'.
  - destruct (reveal_advances raw cs Hwf) as (cs' & -> & ? & ? & ? & ?).
    by exists cs'.
Qed.

Lemma run_advances ops cs :
  wf cs →
  ∃ cs', run ops cs = Some cs' ∧ wf cs' ∧ code cs' = code cs ∧
         grid_advances (state cs) (state cs').
Proof.
  revert cs. induction ops as [|o ops IH]; intros cs Hwf; simpl.
  - exists cs. split_and!; (done || apply grid_advances_refl).
  - destruct (apply_op_advances o cs Hwf) as (cs1 & -> & Hwf1 & Hc1 & Ha1).
    destruct (IH cs1 Hwf1) as (cs2 & Hrun & Hwf2 & Hc2 & Ha2).
    exists cs2. simpl. split_and!; [done | done | congruence |].
    by eapply grid_advances_trans.
Qed.

Lemma run_app ops1 ops2 cs :
  run (ops1 ++ ops2) cs = run ops1 cs ≫= run ops2.
Proof.
  revert cs. induction ops1 as [|o ops1 IH]; intros cs; simpl; [done|].
  destruct (apply_op o cs) as [cs1|]; simpl; [apply IH | done].
Qed.

(** C3. Along any sequence of guesses and assist reveals, between any two
    points of the sequence: a position that is [EXACT_MATCH] stays
    [EXACT_MATCH], a position that is [FUZZY_MATCH] does not go back to
    [UNGUESSED], and [check()], once true, stays true.  No operation of
    the sequence faults. *)
Theorem reveal_state_monotone (ops1 ops2 : list op) (cs : t) :
  wf cs →
  ∃ cs1 cs2,
    run ops1 cs = Some cs1 ∧ run (ops1 ++ ops2) cs = Some cs2 ∧
    code cs2 = code cs1 ∧
    (∀ i p, state_get (state cs1) i p = Some EXACT_MATCH →
            state_get (state cs2) i p = Some EXACT_MATCH) ∧
    (∀ i p, state_get (state cs1) i p = Some FUZZY_MATCH →
            ∃ v, state_get (state cs2) i p = Some v ∧ v ≠ UNGUESSED) ∧
    (check cs1 = Some true → check cs2 = Some true).
Proof.
  intros Hwf.
  destruct (run_advances ops1 cs Hwf) as (cs1 & Hrun1 & Hwf1 & _ & _).
  destruct (run_advances ops2 cs1 Hwf1) as (cs2 & Hrun2 & Hwf2 & Hcode & Hadv).
  exists cs1, cs2. split_and!; try done.
  - rewrite run_app, Hrun1. done.
  - intros i p Hv.
    destruct (grid_advances_get _ _ _ _ _ Hadv Hv) as (v' & -> & Hv').
    by rewrite (advances_exact _ Hv').
  - intros i p Hv.
    destruct (grid_advances_get _ _ _ _ _ Hadv Hv) as (v' & -> & Hv').
    exists v'. split; [done|]. by apply advances_fuzzy.
  - intros Hcheck.
    destruct (check_spec cs1 Hwf1) as (ok1 & Hok1 & Hiff1).
    destruct (check_spec cs2 Hwf2) as (ok2 & Hok2 & Hiff2).
    rewrite Hok2. f_equal. apply Hiff2. rewrite Hcode.
    eapply complete_advances; [|done].
    apply Hiff1. congruence.
Qed.

Lemma reveal_state_monotone_witness :
  ∃ cs1 cs2,
    run [Guess (text "int")] sample = Some cs1 ∧
    run ([Guess (text "int")] ++ [Reveal 7; Guess (text "xyz")]) sample
      = Some cs2 ∧
    state_get (state cs1) 0 0 = Some EXACT_MATCH ∧
    state_get (state cs2) 0 0 = Some EXACT_MATCH.
Proof.
  destruct (reveal_state_monotone [Guess (text "int")]
              [Reveal 7; Guess (text "xyz")] sample)
    as (cs1 & cs2 & H1 & H2 & _ & Hex & _).
  - repeat constructor.
  - exists cs1, cs2.
    assert (state_get (state cs1) 0 0 = Some EXACT_MATCH) as H0.
    { evaluate H1. reflexivity. }
    split_and!; [exact H1 | exact H2 | exact H0 | exact (Hex _ _ H0)].
Defined.

(** C10. On a well-formed snippet a call of [guess] with a guess of at
    least [MIN_LEN] characters returns without a fault, that is, without
    an access outside a line or a row.  The window starts of a line are
    the [j] with [j + len ≤ size]; for each of them and each offset
    [k < len] the character [line[j+k]] and the cell [state[i][j+k]]
    exist.  A line shorter than the guess has no window: it adds no match
    and changes no state. *)
Theorem guess_in_bounds (g : list ascii) (cs : t) :
  wf cs → MIN_LEN ≤ Z.of_nat (length g) →
  (∃ result cs', guess g cs = Some (result, cs') ∧ wf cs' ∧
                 code cs' = code cs) ∧
  (∀ line j, (j < windows line g)%nat ↔ (j + length g ≤ length line)%nat) ∧
  (∀ i line j k st,
     code cs !! i = Some line → shape (code cs) st →
     (j < windows line g)%nat → (k < length g)%nat →
     is_Some (line !! (j + k)%nat) ∧ is_Some (state_get st i (j + k))) ∧
  (∀ i line acc,
     code cs !! i = Some line → (length line < length g)%nat →
     guess_line (fuzzyAllowed cs) g (code cs) i acc = Some acc).
Proof.
  intros Hwf Hlen. split_and!.
  - destruct (guess_advances g cs Hwf) as (r & cs' & ? & ? & ? & _).
    by exists r, cs'.
  - intros line j. unfold windows. lia.
  - intros i line j k st Hline Hshape Hj Hk.
    apply windows_fit in Hj.
    destruct (shape_lookup _ _ _ _ Hshape Hline) as (row & Hrow & Hl).
    rewrite (state_get_row _ _ _ row) by done.
    split; apply lookup_lt_is_Some_2; lia.
  - intros i line acc Hline Hshort. unfold guess_line.
    rewrite Hline. simpl. by rewrite windows_short.
Qed.

Lemma guess_in_bounds_witness :
  ∃ result cs', guess (text "int") sample = Some (result, cs') ∧ wf cs' ∧
                code cs' = code sample.
Proof.
  apply (guess_in_bounds (text "int") sample).
  - repeat constructor.
  - unfold MIN_LEN. simpl. lia.
Defined.

(** The checked accesses are real: a window that runs past the end of
    its line faults. *)
Example window_past_the_end :
  window true (text "abc") (text "ab") 0 0 ((0, 0), [[0; 0]]) = None.
Proof. reflexivity. Qed.

(** *** How many positions [reveal] reveals *)

Lemma NoDup_positions cd : NoDup (positions cd).
Proof.
  induction cd as [|line cd IH] using rev_ind; [constructor|].
  rewrite positions_snoc. apply NoDup_app. split_and!.
  - done.
  - intros [i j] Hin Hin'. apply elem_of_positions in Hin as (l & Hl & _).
    apply lookup_lt_Some in Hl.
    apply list_elem_of_fmap in Hin' as (j' & [= -> ->] & _). lia.
  - apply NoDup_fmap_2; [|apply NoDup_seq]. by intros ?? [=].
Qed.

Lemma filter_iff_in {A} (P P' : A → Prop) `{∀ x, Decision (P x)}
    `{∀ x, Decision (P' x)} (l : list A) :
  (∀ x, x ∈ l → (P x ↔ P' x)) → filter P l = filter P' l.
Proof.
  induction l as [|y l IH]; intros Hiff; [done|].
  rewrite !filter_cons, IH.
  - pose proof (Hiff y ltac:(by left)).
    repeat case_decide; (done || tauto).
  - intros x Hx. apply Hiff. by right.
Qed.

Lemma filter_length_gain {A} (P P' : A → Prop) `{∀ x, Decision (P x)}
    `{∀ x, Decision (P' x)} (l : list A) (x : A) :
  NoDup l → x ∈ l → ¬ P x → (∀ y, P' y ↔ P y ∨ y = x) →
  length (filter P' l) = S (length (filter P l)).
Proof.
  intros Hnd Hin HPx HP'. induction Hnd as [|y l Hy Hnd IH]; [by inversion Hin|].
  rewrite !filter_cons. apply elem_of_cons in Hin as [<-|Hin].
  - rewrite (decide_True (P := P' x)) by (apply HP'; by right).
    rewrite (decide_False (P := P x)) by done. simpl. f_equal.
    f_equal. apply filter_iff_in.
    intros z Hz. rewrite HP'. split; [|by left].
    intros [?| ->]; done.
  - specialize (IH Hin). assert (y ≠ x) as Hne by (by intros ->).
    destruct (decide (P y)) as [Hp|Hp].
    + rewrite decide_True by (apply HP'; by left). simpl. by rewrite IH.
    + rewrite decide_False; [done|]. rewrite HP'. tauto.
Qed.

Lemma filter_length_loss {A} `{EqDecision A} (P P' : A → Prop)
    `{∀ x, Decision (P x)}
    `{∀ x, Decision (P' x)} (l : list A) (x : A) :
  NoDup l → x ∈ l → P x → (∀ y, P' y ↔ P y ∧ y ≠ x) →
  S (length (filter P' l)) = length (filter P l).
Proof.
  intros Hnd Hin HPx HP'. symmetry.
  apply (filter_length_gain P' P l x); [done | done | |].
  - rewrite HP'. tauto.
  - intros y. rewrite HP'. destruct (decide (y = x)) as [->|]; tauto.
Qed.

Lemma state_get_put st i j row i' j' :
  st !! i = Some row → (j < length row)%nat →
  state_get (<[i := <[j := EXACT_MATCH]> row]> st) i' j' =
  if decide ((i', j') = (i, j)) then Some EXACT_MATCH else state_get st i' j'.
Proof.
  intros Hrow Hj. pose proof (lookup_lt_Some _ _ _ Hrow) as Hi.
  destruct (decide (i' = i)) as [->|Hne].
  - rewrite state_get_insert_eq by done.
    rewrite (state_get_row _ _ _ row) by done.
    destruct (decide (j' = j)) as [->|Hnj].
    + rewrite list_lookup_insert_eq by done. by rewrite decide_True.
    + rewrite list_lookup_insert_ne by done.
      rewrite decide_False; [done | congruence].
  - rewrite state_get_insert_ne by done.
    rewrite decide_False; [done | congruence].
Qed.

(** One call of [reveal]: one more revealed position and one hidden
    position less, unless none is hidden. *)
Lemma reveal_count raw cs :
  wf cs →
  ∃ cs' (n : Z),
    reveal raw cs = Some cs' ∧ wf cs' ∧ code cs' = code cs ∧
    getGuessedNumber cs = Some n ∧
    getGuessedNumber cs' = Some (if decide (hidden_count cs = 0%nat)
                                 then n else n + 1) ∧
    hidden_count cs' = (hidden_count cs - 1)%nat.
Proof.
  intros Hwf. rewrite (getGuessedNumber_spec cs Hwf).
  destruct (reveal_spec raw cs Hwf)
    as [[Hnil ->]|(i & j & row & Hpos & Hhid & Hrow & Hj & ->)].
  - exists cs. eexists. split_and!; try done.
    + rewrite (getGuessedNumber_spec cs Hwf).
      unfold hidden_count. by rewrite Hnil.
    + unfold hidden_count. by rewrite Hnil.
  - set (st' := <[i := <[j := EXACT_MATCH]> row]> (state cs)).
    assert (wf (set_state st' cs)) as Hwf'.
    { unfold wf. simpl. eapply shape_insert; [done..|].
      by rewrite length_insert. }
    assert ((i, j) ∈ positions (code cs)) as Hin
      by (by apply nonblank_position, Hhid).
    assert (hidden_count cs ≠ 0%nat) as Hne.
    { unfold hidden_count. intros Hz. apply length_zero_iff_nil in Hz.
      assert ((i, j) ∈ filter (hidden (code cs) (state cs))
                              (positions (code cs))) as Hf
        by (by apply list_elem_of_filter).
      rewrite Hz in Hf. by apply not_elem_of_nil in Hf. }
    eexists _, _. split_and!; try done.
    + rewrite (getGuessedNumber_spec _ Hwf'). simpl.
      rewrite decide_False by done. f_equal.
      rewrite (filter_length_gain
                 (revealed (code cs) (state cs))
                 (revealed (code cs) st') _ (i, j));
        [lia | apply NoDup_positions | done | |].
      * intros [_ Hex]. by destruct Hhid as [_ Hh].
      * intros [i' j']. unfold revealed, st'. simpl.
        rewrite (state_get_put _ _ _ row) by done.
        case_decide as Heq.
        -- injection Heq as -> ->. destruct Hhid as [Hnb _]. tauto.
        -- split; [tauto|]. intros [?|?]; [tauto | congruence].
    + unfold hidden_count. simpl.
      rewrite <- (filter_length_loss
                    (hidden (code cs) (state cs))
                    (hidden (code cs) st') _ (i, j));
        [lia | apply NoDup_positions | done | done |].
      intros [i' j']. unfold hidden, st'. simpl.
      rewrite (state_get_put _ _ _ row) by done.
      case_decide as Heq.
      * injection Heq as -> ->. split; [tauto|]. intros [_ ?]. done.
      * split; [tauto|]. intros [? _]. done.
Qed.

(** [count] calls of [reveal] in a row reveal [count] positions, or all
    the hidden ones when there are fewer. *)
Lemma reveals_count (raws : nat → nat) (count : nat) cs :
  wf cs →
  ∃ cs' (n : Z),
    for_loop (λ k sn, reveal (raws k) sn) 0 count cs = Some cs' ∧
    getGuessedNumber cs = Some n ∧
    getGuessedNumber cs' = Some (n + Z.of_nat (count `min` hidden_count cs)).
Proof.
  intros Hwf.
  destruct (reveal_count 0 cs Hwf) as (_ & n & _ & _ & _ & Hn & _ & _).
  destruct (for_loop_inv
              (λ k sn, wf sn ∧
                       hidden_count sn = (hidden_count cs - k)%nat ∧
                       getGuessedNumber sn
                       = Some (n + Z.of_nat (k `min` hidden_count cs)))
              (λ k sn, reveal (raws k) sn) 0 count cs)
    as (cs' & Hloop & _ & _ & Hg).
  - split_and!; [done | lia |]. rewrite Hn. f_equal. lia.
  - intros k sn _ (Hwfk & Hh & Hg).
    destruct (reveal_count (raws k) sn Hwfk)
      as (sn' & m & -> & Hwf' & _ & Hm & Hm' & Hh').
    exists sn'. split_and!; [done | done | lia |].
    rewrite Hm'. rewrite Hg in Hm. injection Hm as <-. f_equal.
    case_decide; lia.
  - exists cs', n. by split_and!.
Qed.

End SnippetFacts.

(** ** The game modes *)

Module GameFacts.
Import CodeSnippet SnippetSpec SnippetFacts GameSpec.

(** *** Comparisons of [double]s *)

Lemma SFcompare_antisym x y : SFcompare y x = CompOpp <$> SFcompare x y.
Proof.
  destruct x as [s1|s1| |s1 m1 e1], y as [s2|s2| |s2 m2 e2]; simpl;
    try done; try (by destruct s1); try (by destruct s2);
    try (by destruct s1, s2).
  pose proof (Pos.compare_cont_antisym m1 m2 Eq) as Hm. simpl in Hm.
  destruct s1, s2; simpl; try done;
    rewrite (Z.compare_antisym e1 e2);
    destruct (e1 ?= e2); simpl; try done;
    rewrite <- Hm; by destruct (Pos.compare_cont Eq m1 m2).
Qed.

Lemma double_ltb_not_leb (x y : float) :
  (x <? y)%float = true → (y <=? x)%float = false.
Proof.
  rewrite ltb_spec, leb_spec. unfold SFltb, SFleb.
  rewrite (SFcompare_antisym (Prim2SF x) (Prim2SF y)).
  by destruct (SFcompare (Prim2SF x) (Prim2SF y)) as [[]|].
Qed.

Lemma double_leb_not_ltb (x y : float) :
  (x <=? y)%float = true → (y <? x)%float = false.
Proof.
  rewrite ltb_spec, leb_spec. unfold SFltb, SFleb.
  rewrite (SFcompare_antisym (Prim2SF x) (Prim2SF y)).
  by destruct (SFcompare (Prim2SF x) (Prim2SF y)) as [[]|].
Qed.

(** *** Point mode: the constructor *)

(** C8. The constructor of a point-mode game throws when
    [penalty <= 0], when [pfactor <= 0] or when [rfactor < 1.0]; when
    [penalty > 0], [pfactor > 0] and [rfactor >= 1.0] it returns a game
    that holds the three coefficients as given. *)
Theorem pointGame_validation (fuzzy show : bool)
    (penalty pfactor rfactor : float) (indeterminate : Z) :
  ((penalty <=? 0)%float = true ∨ (pfactor <=? 0)%float = true ∨
   (rfactor <? 1.0)%float = true →
   ∃ what, pointGame.new fuzzy show penalty pfactor rfactor indeterminate
           = Throw what) ∧
  ((0 <? penalty)%float = true → (0 <? pfactor)%float = true →
   (1.0 <=? rfactor)%float = true →
   ∃ g, pointGame.new fuzzy show penalty pfactor rfactor indeterminate
        = Return g ∧
        pointGame.guessPenalty g = penalty ∧
        pointGame.pointFactor g = pfactor ∧
        pointGame.rewardFactor g = rfactor ∧
        pointGame.points g = 0%float ∧
        pointGame.game g = Game.new fuzzy show).
Proof.
  unfold pointGame.new, AppException. split.
  - intros H.
    destruct (penalty <=? 0)%float; [by eexists|].
    destruct (pfactor <=? 0)%float; [by eexists|].
    destruct (rfactor <? 1.0)%float; [by eexists|].
    destruct H as [H|[H|H]]; discriminate.
  - intros Hp Hf Hr.
    rewrite (double_ltb_not_leb _ _ Hp), (double_ltb_not_leb _ _ Hf),
      (double_leb_not_ltb _ _ Hr).
    by eexists.
Qed.

Lemma pointGame_validation_witness :
  (∃ what, pointGame.new false false 0 500 1.5 0 = Throw what) ∧
  (∃ g, pointGame.new false false 100 500 1.5 0 = Return g ∧
        pointGame.guessPenalty g = 100%float).
Proof.
  split.
  - apply (pointGame_validation false false 0 500 1.5 0). by left.
  - destruct (pointGame_validation false false 100 500 1.5 0)
      as (_ & g & Hg & Hpen & _); [reflexivity..|].
    by exists g.
Defined.

(** *** A guess that is too short *)

Lemma set_snippet_snippet b : Game.set_snippet (Game.snippet b) b = b.
Proof. by destruct b. Qed.

(** C4, as stated, fails on the control tokens: in a point-mode game the
    one-character guess [P] is answered by [PID showing enabled], and
    identifier visibility is switched on; the message that quotes the
    minimum length is not what [makeGuess] returns. *)
Lemma short_guess_counterexample :
  ∃ g g',
    point_sample 100 = Some g ∧
    Z.of_nat (length (text "P")) < MIN_LEN ∧
    Game.makeGuess (text "P") 0 (λ _, 0%nat) g
      = Some (["PID showing enabled"], g') ∧
    Game.showPID (pointGame.game g') = true ∧
    ¬ (∃ g'', Game.makeGuess (text "P") 0 (λ _, 0%nat) g
              = Some (["Guess must be at least 3 chars"], g'')).
Proof.
  destruct (point_sample 100) as [g|] eqn:Hg; [|discriminate].
  evaluate Hg.
  eexists _, _. split_and!; [reflexivity | done | reflexivity | reflexivity |].
  intros (g'' & Hg''). discriminate.
Qed.

(** C4, amended. Resolving a guess shorter than [MIN_LEN] returns
    [{-1,-1}] and leaves the snippet as it is.  [makeGuess] answers such
    a guess with one message and changes neither the guess counter nor
    the snippet; unless the guess is a control token that it consumes
    first ([P] while the identifier is hidden, [F] while fuzzy matching is
    off), the message is [Guess must be at least 3 chars] and the whole
    game, the assist clock included, is left as it was. *)
Theorem short_guess_rejected {G : Type} `{Game.Mode G} (guess : list ascii)
    (now : Z) (raws : nat → nat) (g : G) :
  Z.of_nat (length guess) < MIN_LEN →
  CodeSnippet.guess guess (Game.snippet (Game.base g))
    = Some ((-1, -1), Game.snippet (Game.base g)) ∧
  ∃ msg g',
    Game.makeGuess guess now raws g = Some ([msg], g') ∧
    Game.guesses (Game.base g') = Game.guesses (Game.base g) ∧
    Game.snippet (Game.base g') = Game.snippet (Game.base g) ∧
    (¬ (Game.showPID (Game.base g) = false ∧ guess = text "P") →
     ¬ (Game.fuzzyAllowed (Game.base g) = false ∧ guess = text "F") →
     msg = "Guess must be at least 3 chars" ∧ g' = g).
Proof.
  intros Hshort. split; [by apply guess_too_short|].
  unfold Game.makeGuess.
  destruct (negb (Game.showPID (Game.base g))
            && bool_decide (guess = list_ascii_of_string "P")) eqn:HP.
  { apply andb_true_iff in HP as [Hs Hg].
    apply negb_true_iff in Hs. apply bool_decide_eq_true in Hg.
    eexists _, _. split; [done|]. rewrite Game.base_set_base.
    split_and!; [done | done |]. intros Hn. destruct Hn. done. }
  destruct (negb (Game.fuzzyAllowed (Game.base g))
            && bool_decide (guess = list_ascii_of_string "F")) eqn:HF.
  { apply andb_true_iff in HF as [Hs Hg].
    apply negb_true_iff in Hs. apply bool_decide_eq_true in Hg.
    eexists _, _. split; [done|]. rewrite Game.base_set_base.
    split_and!; [done | done |]. intros _ Hn. destruct Hn. done. }
  rewrite guess_too_short by done. simpl.
  rewrite set_snippet_snippet, Game.set_base_base.
  eexists _, _. split; [reflexivity|]. done.
Qed.

Lemma short_guess_rejected_witness :
  ∃ g, point_sample 100 = Some g ∧
       Game.makeGuess (text "ab") 0 (λ _, 0%nat) g
       = Some (["Guess must be at least 3 chars"], g).
Proof.
  destruct (point_sample 100) as [g|] eqn:Hg; [|discriminate].
  exists g. split; [done|].
  destruct (short_guess_rejected (text "ab") 0 (λ _, 0%nat) g)
    as (_ & msg & g' & Hm & _ & _ & Hmsg); [done|].
  destruct Hmsg as [-> ->]; [by intros [_ ?] | by intros [_ ?] | exact Hm].
Defined.

(** *** Point mode: the score *)

(** [calcPoint] never faults on a well-formed snippet, and this is the
    score it stores. *)
Lemma calcPoint_spec (g : pointGame.t) :
  wf (Game.snippet (pointGame.game g)) →
  let sn := Game.snippet (pointGame.game g) in
  let guessed :=
    Z.of_nat (length (filter (revealed (code sn) (state sn))
                             (positions (code sn)))) in
  pointGame.calcPoint g =
    Some (pointGame.set_points
            (score_formula (pointGame.pointFactor g) (pointGame.guessPenalty g)
               (pointGame.rewardFactor g) (pointGame.totalNumber g) guessed
               (Game.guesses (pointGame.game g))
               (Game.showPID (pointGame.game g))
               (Game.fuzzyAllowed (pointGame.game g))) g).
Proof.
  intros Hwf sn guessed.
  pose proof (getGuessedNumber_spec sn Hwf) as Hg. fold guessed in Hg.
  unfold pointGame.calcPoint. fold sn. rewrite Hg. simpl.
  unfold score_formula, pointGame.showPidPenalty, pointGame.fuzzyPenalty.
  reflexivity.
Qed.

(** C5. [calcPoint] sets [points] to the score of the formula, [guessed]
    being the number of non-blank positions that are [EXACT_MATCH].  With
    [total = 100], [guessed = 100], [guesses = 10], [pointFactor = 500],
    [guessPenalty = 100], [rewardFactor = 1.5], fuzzy matching disabled
    and the identifier hidden the score is [73500]; a point-mode game
    reaches that state on a snippet of 100 characters [a] with ten guesses
    [aaa]. *)
Theorem calcPoint_formula (g : pointGame.t) :
  wf (Game.snippet (pointGame.game g)) →
  let sn := Game.snippet (pointGame.game g) in
  let guessed :=
    Z.of_nat (length (filter (revealed (code sn) (state sn))
                             (positions (code sn)))) in
  getGuessedNumber sn = Some guessed ∧
  pointGame.calcPoint g =
    Some (pointGame.set_points
            (score_formula (pointGame.pointFactor g) (pointGame.guessPenalty g)
               (pointGame.rewardFactor g) (pointGame.totalNumber g) guessed
               (Game.guesses (pointGame.game g))
               (Game.showPID (pointGame.game g))
               (Game.fuzzyAllowed (pointGame.game g))) g) ∧
  score_formula 500 100 1.5 100 100 10 false false = 73500%float ∧
  ∃ g0 g10,
    point_sample 100 = Some g0 ∧
    play (replicate 10 (text "aaa")) g0 = Some g10 ∧
    pointGame.totalNumber g10 = 100 ∧
    getGuessedNumber (Game.snippet (pointGame.game g10)) = Some 100 ∧
    Game.guesses (pointGame.game g10) = 10 ∧
    pointGame.points <$> pointGame.calcPoint g10 = Some 73500%float.
Proof.
  intros Hwf sn guessed.
  pose proof (getGuessedNumber_spec sn Hwf) as Hg. fold guessed in Hg.
  split_and!.
  - exact Hg.
  - by apply calcPoint_spec.
  - vm_compute. reflexivity.
  - destruct (point_sample 100) as [g0|] eqn:H0; [|discriminate].
    destruct (play (replicate 10 (text "aaa")) g0) as [g10|] eqn:H10.
    + exists g0, g10. evaluate H0.
      evaluate H10.
      split_and!; vm_compute; reflexivity.
    + evaluate H0. vm_compute in H10. discriminate.
Qed.

Lemma calcPoint_formula_witness :
  ∃ g0 g10,
    point_sample 100 = Some g0 ∧
    play (replicate 10 (text "aaa")) g0 = Some g10 ∧
    pointGame.calcPoint g10 =
      Some (pointGame.set_points
              (score_formula 500 100 1.5 100 100 10 false false) g10).
Proof.
  destruct (point_sample 100) as [g0|] eqn:H0; [|discriminate].
  destruct (play (replicate 10 (text "aaa")) g0) as [g10|] eqn:H10;
    [|evaluate H0; vm_compute in H10; discriminate].
  exists g0, g10. split_and!; [done | done |].
  destruct (calcPoint_formula g10) as (Hn & Hc & _).
  - evaluate H0.
    evaluate H10.
    repeat constructor.
  - rewrite Hc.
    evaluate H0.
    evaluate H10.
    vm_compute. reflexivity.
Defined.

(** *** Guess-limited mode *)

Lemma getTotalNumber_nonneg cs : 0 ≤ getTotalNumber cs.
Proof.
  unfold getTotalNumber.
  assert (∀ (line : list ascii) n, 0 ≤ n →
            0 ≤ foldl (λ total c, if decide (c ≠ blank) then total + 1 else total)
                      n line) as Hline.
  { induction line as [|c line IH]; intros n Hn; simpl; [done|].
    apply IH. case_decide; lia. }
  generalize (code cs). intros cd.
  assert (∀ n, 0 ≤ n →
            0 ≤ foldl (λ total line,
                         foldl (λ total c,
                                  if decide (c ≠ blank) then total + 1 else total)
                               total line) n cd) as Hcd.
  { induction cd as [|line cd IH]; intros n Hn; simpl; [done|].
    apply IH. by apply Hline. }
  by apply Hcd.
Qed.

(** C6. On a repository that yields a snippet, [start()] of a
    guess-limited game sets [maxGuesses] to [max(total/3 + 5, 30)],
    [total] being [getTotalNumber()] of the snippet loaded; that is [30]
    when [total = 60].  [isOver()] is true exactly when
    [guesses >= maxGuesses].  On a snippet of 60 characters the game is
    not over after 29 guesses and is over after 30. *)
Theorem guessLimited_limit (d : drawn) (g : guessLimitedGame.t)
    (lines : list (list ascii)) :
  drawn_pid d ≠ "" → drawn_lines d = Some lines →
  (∃ g',
     guessLimitedGame.start d g = Return (true, g') ∧
     Game.snippet (guessLimitedGame.game g')
       = loadFromFile lines (Game.fuzzyAllowed (guessLimitedGame.game g)) ∧
     let total := getTotalNumber (Game.snippet (guessLimitedGame.game g')) in
     guessLimitedGame.maxGuesses g' = Z.max (total `div` 3 + 5) 30 ∧
     (total = 60 → guessLimitedGame.maxGuesses g' = 30)) ∧
  (∀ g' : guessLimitedGame.t,
     guessLimitedGame.isOver g' = true ↔
     guessLimitedGame.maxGuesses g' ≤ Game.guesses (guessLimitedGame.game g')) ∧
  ∃ g0 g29 g30,
    limited_sample 60 = Some g0 ∧
    getTotalNumber (Game.snippet (guessLimitedGame.game g0)) = 60 ∧
    guessLimitedGame.maxGuesses g0 = 30 ∧
    play (replicate 29 (text "xyz")) g0 = Some g29 ∧
    guessLimitedGame.isOver g29 = false ∧
    play [text "xyz"] g29 = Some g30 ∧
    guessLimitedGame.isOver g30 = true ∧
    Game.isFinished g30 = Some false.
Proof.
  intros Hpid Hlines. split_and!.
  - unfold guessLimitedGame.start, loadSnippet.
    rewrite decide_False by done. rewrite Hlines. simpl.
    eexists. split; [reflexivity|]. simpl. split; [done|].
    set (total := getTotalNumber _).
    pose proof (getTotalNumber_nonneg
                  (loadFromFile lines
                     (Game.fuzzyAllowed (guessLimitedGame.game g)))) as Hnn.
    fold total in Hnn.
    rewrite Z.quot_div_nonneg by lia. split; [done|].
    intros ->. reflexivity.
  - intros g'. unfold guessLimitedGame.isOver.
    rewrite bool_decide_eq_true. lia.
  - destruct (limited_sample 60) as [g0|] eqn:H0; [|discriminate].
    destruct (play (replicate 29 (text "xyz")) g0) as [g29|] eqn:H29;
      [|evaluate H0; vm_compute in H29; discriminate].
    destruct (play [text "xyz"] g29) as [g30|] eqn:H30;
      [|evaluate H0;
        evaluate H29;
        vm_compute in H30; discriminate].
    exists g0, g29, g30.
    evaluate H0.
    evaluate H29.
    evaluate H30.
    split_and!; vm_compute; reflexivity.
Qed.

Lemma guessLimited_limit_witness :
  ∃ g', guessLimitedGame.start
          {| drawn_pid := "P1000"; drawn_path := "codes/P1000.txt";
             drawn_lines := Some [replicate 60 "a"%char] |}
          {| guessLimitedGame.game := Game.new true true;
             guessLimitedGame.maxGuesses := 0 |} = Return (true, g') ∧
        guessLimitedGame.maxGuesses g' = 30.
Proof.
  destruct (guessLimited_limit
              {| drawn_pid := "P1000"; drawn_path := "codes/P1000.txt";
                 drawn_lines := Some [replicate 60 "a"%char] |}
              {| guessLimitedGame.game := Game.new true true;
                 guessLimitedGame.maxGuesses := 0 |}
              [replicate 60 "a"%char])
    as ((g' & Hs & _ & _ & H60) & _); [done | done |].
  exists g'. split; [exact Hs|]. apply H60.
  injection Hs as <-. vm_compute. reflexivity.
Defined.

(** *** Time-attack mode: the assist cadence *)

Lemma ascending_from from from' times :
  from' ≤ from → ascending from times → ascending from' times.
Proof. destruct times; simpl; [done|]. intros ? [? ?]. split; [lia | done]. Qed.

Lemma revealTimes_spec hz now g :
  0 < hz → timeAttackGame.lastRevealTime g ≤ now →
  let count := ((now - timeAttackGame.lastRevealTime g) `div` hz) `div` 10 in
  timeAttackGame.revealTimes hz now g =
    (count,
     {| timeAttackGame.game := timeAttackGame.game g;
        timeAttackGame.maxTime := timeAttackGame.maxTime g;
        timeAttackGame.startTime := timeAttackGame.startTime g;
        timeAttackGame.lastRevealTime :=
          timeAttackGame.lastRevealTime g + 10 * count * hz |}) ∧
  0 ≤ count ∧
  timeAttackGame.lastRevealTime g + 10 * count * hz ≤ now
    < timeAttackGame.lastRevealTime g + 10 * count * hz + 10 * hz.
Proof.
  intros Hhz Hnow count.
  set (d := now - timeAttackGame.lastRevealTime g) in *.
  assert (0 ≤ d) as Hd by (unfold d; lia).
  assert (0 ≤ d `div` hz) as Hs by (apply Z.div_pos; lia).
  split_and!.
  - unfold timeAttackGame.revealTimes, timeAttackGame.seconds_count,
      timeAttackGame.seconds, timeAttackGame.revealTime.
    fold d. rewrite (Z.quot_div_nonneg d hz) by lia.
    rewrite (Z.quot_div_nonneg (d `div` hz) 10) by lia. done.
  - apply Z.div_pos; lia.
  - unfold count. rewrite Z.div_div by lia.
    pose proof (Z.div_mod d (hz * 10) ltac:(lia)) as Hdm.
    pose proof (Z.mod_pos_bound d (hz * 10) ltac:(lia)) as Hmb.
    unfold d in *. lia.
  - unfold count. rewrite Z.div_div by lia.
    pose proof (Z.div_mod d (hz * 10) ltac:(lia)) as Hdm.
    pose proof (Z.mod_pos_bound d (hz * 10) ltac:(lia)) as Hmb.
    unfold d in *. lia.
Qed.

Lemma polls_spec hz times g :
  0 < hz → ascending (timeAttackGame.lastRevealTime g) times →
  let r := polls hz times g in
  0 ≤ r.1 ∧
  timeAttackGame.lastRevealTime r.2
    = timeAttackGame.lastRevealTime g + 10 * r.1 * hz ∧
  (times ≠ [] →
   timeAttackGame.lastRevealTime r.2 ≤ List.last times 0
     < timeAttackGame.lastRevealTime r.2 + 10 * hz).
Proof.
  intros Hhz. revert g. induction times as [|now rest IH]; intros g Hasc.
  - simpl. split_and!; [lia | lia | done].
  - destruct Hasc as [Hnow Hrest].
    destruct (revealTimes_spec hz now g Hhz Hnow) as (Hr & Hc & Hlo & Hhi).
    cbn [polls]. rewrite Hr. cbn [fst snd].
    set (g1 := timeAttackGame.mk _ _ _ _).
    destruct (IH g1) as (Hn & Hlast & Hbr).
    { eapply ascending_from; [|done]. simpl. lia. }
    cbn [fst snd]. split_and!.
    + lia.
    + rewrite Hlast. simpl. lia.
    + intros _. destruct rest as [|now' rest'].
      * simpl. lia.
      * change (List.last (now :: now' :: rest') 0)
          with (List.last (now' :: rest') 0).
        by apply Hbr.
Qed.

Lemma guess_counts_nonneg g cs :
  wf cs → MIN_LEN ≤ Z.of_nat (length g) →
  ∃ result cs', guess g cs = Some (result, cs') ∧ 0 ≤ result.1 ∧ wf cs' ∧
                code cs' = code cs.
Proof.
  intros Hwf Hlen. rewrite guess_spec by done.
  rewrite decide_False by lia. eexists _, _. split; [done|].
  rewrite guess_result_count. simpl. split_and!.
  - destruct (fuzzyAllowed cs); simpl; lia.
  - by apply shape_guess_state.
  - done.
Qed.

Lemma reveal_loop_spec count raws sn :
  wf sn → 0 ≤ count →
  ∃ sn', Game.reveal_loop count raws sn = Some sn' ∧
         for_loop (λ k sn, reveal (raws k) sn) 0 (Z.to_nat count) sn = Some sn' ∧
         wf sn' ∧ code sn' = code sn ∧
         grid_advances (state sn) (state sn').
Proof.
  intros Hwf Hcount. unfold Game.reveal_loop. rewrite decide_False by lia.
  destruct (for_loop_inv
              (λ _ sn', wf sn' ∧ code sn' = code sn ∧
                        grid_advances (state sn) (state sn'))
              (λ k sn, reveal (raws k) sn) 0 (Z.to_nat count) sn)
    as (sn' & Hloop & Hwf' & Hcode & Hadv).
  - split_and!; (done || apply grid_advances_refl).
  - intros k sn0 _ (Hwf0 & Hc0 & Ha0).
    destruct (reveal_advances (raws k) sn0 Hwf0)
      as (sn1 & -> & Hwf1 & Hc1 & _ & Ha1).
    exists sn1. split_and!; [done | done | congruence |].
    by eapply grid_advances_trans.
  - by exists sn'.
Qed.

(** C7. In time-attack mode, [lastRevealTime] not being ahead of the
    clock: [revealTimes()] returns [floor(elapsed/10)], [elapsed] being
    the whole seconds since [lastRevealTime], and advances
    [lastRevealTime] by exactly ten seconds times that count, so that
    fewer than ten seconds stay unaccounted; 25 seconds after the last
    assist the count is 2 and the advance 20 seconds.  [makeGuess] on a
    guess of at least [MIN_LEN] characters then calls [reveal()] exactly
    that many times, which reveals that many positions, or all the hidden
    ones when fewer are left.  Over any series of evaluations at
    ascending clock readings the counts add up to the number of whole
    ten-second intervals between the first [lastRevealTime] and the last
    reading: no reveal is lost. *)
Theorem timeAttack_catch_up (hz now : Z) (g : timeAttackGame.t) :
  0 < hz → timeAttackGame.lastRevealTime g ≤ now →
  wf (Game.snippet (timeAttackGame.game g)) →
  let last := timeAttackGame.lastRevealTime g in
  let elapsed := (now - last) `div` hz in
  let count := elapsed `div` 10 in
  let g' := {| timeAttackGame.game := timeAttackGame.game g;
               timeAttackGame.maxTime := timeAttackGame.maxTime g;
               timeAttackGame.startTime := timeAttackGame.startTime g;
               timeAttackGame.lastRevealTime := last + 10 * count * hz |} in
  timeAttackGame.revealTimes hz now g = (count, g') ∧
  last + 10 * count * hz ≤ now < last + 10 * count * hz + 10 * hz ∧
  (elapsed = 25 → count = 2 ∧
                  timeAttackGame.lastRevealTime g' = last + 20 * hz) ∧
  (∀ guess raws,
     MIN_LEN ≤ Z.of_nat (length guess) →
     ∃ result sn1 sn2 msg (n : Z),
       CodeSnippet.guess guess (Game.snippet (timeAttackGame.game g))
         = Some (result, sn1) ∧
       for_loop (λ k sn, reveal (raws k) sn) 0 (Z.to_nat count) sn1
         = Some sn2 ∧
       getGuessedNumber sn1 = Some n ∧
       getGuessedNumber sn2
         = Some (n + Z.of_nat (Z.to_nat count `min` hidden_count sn1)) ∧
       @Game.makeGuess _ (timeAttackGame.mode hz) guess now raws g =
         Some ([msg],
               {| timeAttackGame.game :=
                    Game.set_snippet sn2
                      (Game.set_guesses
                         (Game.guesses (timeAttackGame.game g) + 1)
                         (Game.set_snippet sn1 (timeAttackGame.game g)));
                  timeAttackGame.maxTime := timeAttackGame.maxTime g;
                  timeAttackGame.startTime := timeAttackGame.startTime g;
                  timeAttackGame.lastRevealTime := last + 10 * count * hz |})) ∧
  (∀ times, ascending last times → times ≠ [] →
            (polls hz times g).1 = (List.last times 0 - last) `div` (10 * hz)).
Proof.
  intros Hhz Hnow Hwf last elapsed count g'.
  destruct (revealTimes_spec hz now g Hhz Hnow) as (Hr & Hc & Hbr).
  fold last elapsed count in Hr, Hc, Hbr.
  split_and!.
  - exact Hr.
  - lia.
  - lia.
  - intros Hel. unfold count. rewrite Hel. split; [done|]. simpl.
    unfold count. rewrite Hel. change (25 `div` 10) with 2. lia.
  - intros guess raws Hlen.
    destruct (guess_counts_nonneg guess _ Hwf Hlen)
      as (result & sn1 & Hg & Hpos & Hwf1 & _).
    destruct (reveal_loop_spec count raws sn1 Hwf1 Hc)
      as (sn2 & Hloop & Hfor & _).
    destruct (reveals_count raws (Z.to_nat count) sn1 Hwf1)
      as (sn2' & n & Hfor' & Hn1 & Hn2).
    assert (sn2' = sn2) as -> by congruence.
    exists result, sn1, sn2. eexists. exists n.
    split_and!; [exact Hg | exact Hfor | exact Hn1 | exact Hn2 |].
    unfold Game.makeGuess.
    assert (bool_decide (guess = list_ascii_of_string "P") = false) as ->.
    { apply bool_decide_eq_false. intros ->. unfold MIN_LEN in Hlen.
      simpl in Hlen. lia. }
    assert (bool_decide (guess = list_ascii_of_string "F") = false) as ->.
    { apply bool_decide_eq_false. intros ->. unfold MIN_LEN in Hlen.
      simpl in Hlen. lia. }
    rewrite !andb_false_r. cbn [Game.base Game.set_base timeAttackGame.mode].
    rewrite Hg. cbn [mbind option_bind fst snd].
    rewrite decide_False by lia.
    cbn [Game.revealTimes timeAttackGame.mode Game.base Game.set_base].
    cbn [timeAttackGame.lastRevealTime timeAttackGame.game
         timeAttackGame.maxTime timeAttackGame.startTime].
    match goal with
    | |- context [timeAttackGame.revealTimes hz now ?x] =>
        destruct (revealTimes_spec hz now x Hhz Hnow) as (-> & _)
    end.
    cbn [timeAttackGame.lastRevealTime timeAttackGame.game Game.snippet
         Game.set_guesses Game.set_snippet timeAttackGame.maxTime
         timeAttackGame.startTime].
    fold last elapsed count. rewrite Hloop. reflexivity.
  - intros times Hasc Hne.
    destruct (polls_spec hz times g Hhz Hasc) as (Hn & Hlast & Hbr').
    specialize (Hbr' Hne). fold last in Hlast. rewrite Hlast in Hbr'.
    apply (Z.div_unique _ _ _ (List.last times 0 - last
                               - 10 * (polls hz times g).1 * hz));
      [left; lia | lia].
Qed.

Lemma timeAttack_catch_up_witness :
  ∃ g0 g1,
    time_sample 0 100 = Some g0 ∧
    timeAttackGame.revealTimes 1000000000 25900000000 g0 = (2, g1) ∧
    timeAttackGame.lastRevealTime g1 = 20000000000.
Proof.
  destruct (time_sample 0 100) as [g0|] eqn:H0; [|discriminate].
  evaluate H0.
  destruct (timeAttack_catch_up 1000000000 25900000000
              (timeAttackGame.mk
                 (Game.set_snippet
                    (loadFromFile [replicate 100 "a"%char] true)
                    (Game.set_pid "P1000" (Game.new true true)))
                 76 0 0))
    as (Hr & _ & H25 & _).
  - lia.
  - simpl. lia.
  - repeat constructor.
  - eexists _, _. split_and!; [reflexivity | exact Hr |].
    apply H25. reflexivity.
Defined.

(** *** Point mode: no losing end *)

Lemma calcPoint_again g g1 :
  pointGame.calcPoint g = Some g1 → pointGame.calcPoint g1 = Some g1.
Proof.
  unfold pointGame.calcPoint. intros Hc.
  destruct (getGuessedNumber (Game.snippet (pointGame.game g)))
    as [guessed|] eqn:Hg; [|done].
  simpl in Hc. injection Hc as <-. simpl. rewrite Hg. done.
Qed.

(** C9. In point mode [isOver()] is false in every state.  [Lose()] is
    [Win()]: it computes the score, appends to the history one record
    that reads [Win], whatever the score, counts one more point game and
    adds the score to the total.  After ten fruitless guesses the score is
    negative and the record still reads [Win]. *)
Theorem point_mode_never_loses (double_to_string : float → string)
    (time : string) (g : pointGame.t) (stats : StatisticsRepo.t) :
  wf (Game.snippet (pointGame.game g)) →
  (∀ (now : Z) (g' : pointGame.t),
     pointGame.isOver g' = false ∧ Game.isOver now g' = false) ∧
  pointGame.Lose double_to_string time g stats
    = pointGame.Win double_to_string time g stats ∧
  (∃ g' stats',
     pointGame.calcPoint g = Some g' ∧
     pointGame.Lose double_to_string time g stats =
       Some ("You achieved " +:+ double_to_string (pointGame.points g')
             +:+ " points!", g', stats') ∧
     StatisticsRepo.gameHistory stats' =
       StatisticsRepo.gameHistory stats
       ++ [point_record double_to_string time (Game.pid (pointGame.game g))
             (pointGame.points g')] ∧
     StatisticsRepo.pointGames stats' = StatisticsRepo.pointGames stats + 1 ∧
     StatisticsRepo.totalGames stats' = StatisticsRepo.totalGames stats + 1 ∧
     StatisticsRepo.totalPoints stats' =
       (StatisticsRepo.totalPoints stats + pointGame.points g')%float) ∧
  ∃ g0 g10 g',
    point_sample 100 = Some g0 ∧
    play (replicate 10 (text "xyz")) g0 = Some g10 ∧
    pointGame.calcPoint g10 = Some g' ∧
    (pointGame.points g' <? 0)%float = true ∧
    StatisticsRepo.gameHistory
      <$> (snd <$> pointGame.Lose double_to_string time g10 stats) =
    Some (StatisticsRepo.gameHistory stats
          ++ [point_record double_to_string time "P1000"
                (pointGame.points g')]).
Proof.
  intros Hwf. split_and!.
  - done.
  - done.
  - pose proof (calcPoint_spec g Hwf) as Hc. simpl in Hc.
    eexists _, _. split; [exact Hc|].
    unfold pointGame.Lose, pointGame.Win, pointGame.saveStatistics.
    rewrite Hc. cbn [mbind option_bind fst snd].
    rewrite (calcPoint_again _ _ Hc). cbn [mbind option_bind].
    split_and!; reflexivity.
  - destruct (point_sample 100) as [g0|] eqn:H0; [|discriminate].
    destruct (play (replicate 10 (text "xyz")) g0) as [g10|] eqn:H10;
      [|evaluate H0; vm_compute in H10; discriminate].
    destruct (pointGame.calcPoint g10) as [g'|] eqn:Hc;
      [|evaluate H0;
        evaluate H10;
        vm_compute in Hc; discriminate].
    exists g0, g10, g'. split_and!; [done | done | done | |].
    + evaluate H0.
      evaluate H10.
      evaluate Hc. reflexivity.
    + unfold pointGame.Lose, pointGame.Win, pointGame.saveStatistics.
      rewrite Hc. cbn [mbind option_bind fst snd].
      rewrite (calcPoint_again _ _ Hc). cbn [mbind option_bind fmap option_fmap option_map snd].
      evaluate H0.
      evaluate H10.
      evaluate Hc. reflexivity.
Qed.

Lemma point_mode_never_loses_witness :
  ∃ g0 g10 line,
    point_sample 100 = Some g0 ∧
    play (replicate 10 (text "xyz")) g0 = Some g10 ∧
    StatisticsRepo.gameHistory
      <$> (snd <$> pointGame.Lose (λ _, "-1000.000000")
                     "Tue May 13 17:21:15 2025 " g10
                     (StatisticsRepo.mk 0 0 0 0 0 0 0 [])) = Some [line] ∧
    line = "Tue May 13 17:21:15 2025  Point             P1000  points: -1000.000000 Win".
Proof.
  destruct (point_sample 100) as [g0|] eqn:H0; [|discriminate].
  destruct (play (replicate 10 (text "xyz")) g0) as [g10|] eqn:H10;
    [|evaluate H0; vm_compute in H10; discriminate].
  exists g0, g10.
  destruct (point_mode_never_loses (λ _, "-1000.000000")
              "Tue May 13 17:21:15 2025 " g10
              (StatisticsRepo.mk 0 0 0 0 0 0 0 []))
    as (_ & _ & (g' & stats' & Hc & HL & Hh & _) & _).
  - evaluate H0.
    evaluate H10.
    repeat constructor.
  - eexists. split_and!; [done | done | |].
    + rewrite HL. cbn [fmap option_fmap option_map snd]. rewrite Hh.
      reflexivity.
    + evaluate H0.
      evaluate H10.
      vm_compute. reflexivity.
Defined.

End GameFacts.

(** ** More on the reveal grid *)

Module SnippetMore.
Import CodeSnippet SnippetSpec SnippetFacts MoreSpec.

(** *** A call of [guess], cell by cell *)

Lemma exact_cover_S g line n p :
  exact_cover g line (S n) p ↔
  exact_cover g line n p ∨
  ((n ≤ p < n + length g)%nat ∧ window_text line n (length g) = g).
Proof.
  unfold exact_cover. rewrite seq_S, Exists_app, Exists_cons, Exists_nil.
  simpl. tauto.
Qed.

Lemma fuzzy_cover_S g line n p :
  fuzzy_cover g line (S n) p ↔
  fuzzy_cover g line n p ∨
  ((n ≤ p < n + length g)%nat ∧ window_text line n (length g) ≠ g ∧
   fuzzy_rule (window_text line n (length g)) g).
Proof.
  unfold fuzzy_cover. rewrite seq_S, Exists_app, Exists_cons, Exists_nil.
  simpl. tauto.
Qed.

Lemma exact_cover_iff g line n p :
  exact_cover g line n p ↔
  ∃ j, (j < n)%nat ∧ (j ≤ p < j + length g)%nat ∧
       window_text line j (length g) = g.
Proof.
  unfold exact_cover. rewrite Exists_exists. split.
  - intros (j & Hj & ?). apply elem_of_seq in Hj. exists j. split; [lia | done].
  - intros (j & Hj & ?). exists j. split; [apply elem_of_seq; lia | done].
Qed.

Lemma fuzzy_cover_iff g line n p :
  fuzzy_cover g line n p ↔
  ∃ j, (j < n)%nat ∧ (j ≤ p < j + length g)%nat ∧
       window_text line j (length g) ≠ g ∧
       fuzzy_rule (window_text line j (length g)) g.
Proof.
  unfold fuzzy_cover. rewrite Exists_exists. split.
  - intros (j & Hj & ?). apply elem_of_seq in Hj. exists j. split; [lia | done].
  - intros (j & Hj & ?). exists j. split; [apply elem_of_seq; lia | done].
Qed.

Lemma window_row_lookup fuzzy g line j row p v :
  row !! p = Some v →
  window_row fuzzy g line j row !! p =
  Some (if decide ((j ≤ p < j + length g)%nat ∧
                   window_text line j (length g) = g)
        then EXACT_MATCH
        else if decide (fuzzy = true ∧ (j ≤ p < j + length g)%nat ∧
                        window_text line j (length g) ≠ g ∧
                        fuzzy_rule (window_text line j (length g)) g ∧
                        v = UNGUESSED)
             then FUZZY_MATCH
             else v).
Proof.
  intros Hv. unfold window_row. simpl.
  destruct (decide (window_text line j (length g) = g)) as [Hex|Hex].
  - rewrite (lookup_exact_row _ _ _ _ v) by done.
    repeat case_decide; (done || tauto).
  - destruct (decide (fuzzy = true ∧
                      fuzzy_rule (window_text line j (length g)) g)) as [Hf|Hf].
    + rewrite (lookup_fuzzy_row _ _ _ _ v) by done.
      repeat case_decide; (done || tauto).
    + rewrite Hv. repeat case_decide; (done || tauto).
Qed.

(** The row after [n] windows, cell by cell. *)
Lemma line_row_mark fuzzy g line n row p v :
  row !! p = Some v →
  line_row fuzzy g line n row !! p = Some (mark fuzzy g line n p v).
Proof.
  intros Hv. induction n as [|n IH].
  - unfold line_row, mark, exact_cover, fuzzy_cover. simpl. rewrite Hv.
    f_equal. repeat case_decide; try done; exfalso;
      repeat match goal with H : _ ∧ _ |- _ => destruct H end;
      match goal with H : Exists _ [] |- _ => by apply Exists_nil in H end.
  - rewrite line_row_S, (window_row_lookup _ _ _ _ _ _ _ IH). f_equal.
    pose proof (exact_cover_S g line n p) as He.
    pose proof (fuzzy_cover_S g line n p) as Hf.
    unfold mark, UNGUESSED, FUZZY_MATCH, EXACT_MATCH in *.
    repeat case_decide; try done; exfalso; intuition (try lia; try congruence).
Qed.

Lemma line_row_imap fuzzy g line n row :
  line_row fuzzy g line n row = imap (λ p v, mark fuzzy g line n p v) row.
Proof.
  apply list_eq. intros p. rewrite list_lookup_imap.
  destruct (row !! p) as [v|] eqn:Hv; simpl.
  - by apply line_row_mark.
  - apply lookup_ge_None. rewrite length_line_row. by apply lookup_ge_None.
Qed.

Lemma imap_compose {A} (f h : nat → A → A) (l : list A) :
  imap f (imap h l) = imap (λ p v, f p (h p v)) l.
Proof.
  apply list_eq. intros p. rewrite !list_lookup_imap.
  by destruct (l !! p).
Qed.

Lemma mark_again fuzzy g line n p v :
  mark fuzzy g line n p (mark fuzzy g line n p v) = mark fuzzy g line n p v.
Proof.
  unfold mark, UNGUESSED, FUZZY_MATCH, EXACT_MATCH.
  repeat case_decide; try done; exfalso; intuition (try lia; try congruence).
Qed.

Lemma mark_swap fuzzy g1 g2 line n1 n2 p v :
  mark fuzzy g1 line n1 p (mark fuzzy g2 line n2 p v) =
  mark fuzzy g2 line n2 p (mark fuzzy g1 line n1 p v).
Proof.
  unfold mark, UNGUESSED, FUZZY_MATCH, EXACT_MATCH.
  repeat case_decide; try done; exfalso; intuition (try lia; try congruence).
Qed.

Lemma guess_state_again fuzzy g cd st :
  shape cd st →
  guess_state fuzzy g cd (guess_state fuzzy g cd st) = guess_state fuzzy g cd st.
Proof.
  unfold shape, guess_state.
  induction 1 as [|line row cd st Hl Hsh IH]; simpl; [done|].
  rewrite IH. f_equal. rewrite !line_row_imap, imap_compose.
  apply imap_ext. intros p v _. apply mark_again.
Qed.

Lemma guess_state_swap fuzzy g1 g2 cd st :
  shape cd st →
  guess_state fuzzy g1 cd (guess_state fuzzy g2 cd st) =
  guess_state fuzzy g2 cd (guess_state fuzzy g1 cd st).
Proof.
  unfold shape, guess_state.
  induction 1 as [|line row cd st Hl Hsh IH]; simpl; [done|].
  rewrite IH. f_equal. rewrite !line_row_imap, !imap_compose.
  apply imap_ext. intros p v _. apply mark_swap.
Qed.

(** X1. On a well-formed snippet a guess of at least [MIN_LEN]
    characters leaves the text alone and decides every cell by the
    windows of its line that cover it: a cell covered by a window equal to
    the guess becomes [EXACT_MATCH]; otherwise an [UNGUESSED] cell covered
    by a window that passes the fuzzy rule becomes [FUZZY_MATCH] when
    fuzzy matching is enabled; every other cell keeps its state. *)
Theorem guess_cell_by_cell (g : list ascii) (cs : t) :
  wf cs → MIN_LEN ≤ Z.of_nat (length g) →
  ∃ result cs',
    guess g cs = Some (result, cs') ∧ code cs' = code cs ∧
    fuzzyAllowed cs' = fuzzyAllowed cs ∧
    ∀ i line p v,
      code cs !! i = Some line → state_get (state cs) i p = Some v →
      let n := windows line g in
      state_get (state cs') i p
      = Some (if decide (exact_cover g line n p) then EXACT_MATCH
              else if decide (fuzzyAllowed cs = true ∧ fuzzy_cover g line n p ∧
                              v = UNGUESSED)
                   then FUZZY_MATCH
                   else v).
Proof.
  intros Hwf Hlen. rewrite guess_spec by done. rewrite decide_False by lia.
  eexists _, _. split_and!; [done..|].
  intros i line p v Hline Hv n. simpl.
  destruct (shape_lookup _ _ _ _ Hwf Hline) as (row & Hrow & Hl).
  rewrite (state_get_row _ _ _ row) in Hv by done.
  rewrite (state_get_row _ _ _ _
             (lookup_guess_state _ _ _ _ _ _ _ Hline Hrow)).
  by rewrite (line_row_mark _ _ _ _ _ _ v).
Qed.

Lemma guess_cell_by_cell_witness :
  ∃ cs', guess (text "int") sample = Some ((1, 1), cs') ∧
         state_get (state cs') 0 9 = Some FUZZY_MATCH ∧
         state_get (state cs') 0 4 = Some UNGUESSED.
Proof.
  destruct (guess_cell_by_cell (text "int") sample)
    as (r & cs' & Hg & _ & _ & Hcell).
  - repeat constructor.
  - unfold MIN_LEN. simpl. lia.
  - exists cs'. split_and!.
    + rewrite Hg. f_equal. vm_compute in Hg. by injection Hg as <- _.
    + by rewrite (Hcell 0%nat (text "int x = ine;  ") 9%nat 0).
    + by rewrite (Hcell 0%nat (text "int x = ine;  ") 4%nat 0).
Defined.

(** X2. Guessing is idempotent and the order of two guesses does not
    matter: on a well-formed snippet a guess repeated at once returns the
    same counts and changes nothing more, and two guesses made in either
    order return the same counts and leave the same snippet. *)
Theorem guess_again_and_swap (g1 g2 : list ascii) (cs : t) :
  wf cs →
  ∃ r1 r2 cs1 cs2 cs',
    guess g1 cs = Some (r1, cs1) ∧ guess g1 cs1 = Some (r1, cs1) ∧
    guess g2 cs = Some (r2, cs2) ∧
    guess g2 cs1 = Some (r2, cs') ∧ guess g1 cs2 = Some (r1, cs').
Proof.
  intros Hwf.
  destruct (guess_advances g1 cs Hwf) as (r1 & cs1 & Hg1 & Hwf1 & Hc1 & Hf1 & _).
  destruct (guess_advances g2 cs Hwf) as (r2 & cs2 & Hg2 & Hwf2 & Hc2 & Hf2 & _).
  exists r1, r2, cs1, cs2.
  rewrite guess_spec in Hg1, Hg2 by done.
  rewrite !guess_spec by done.
  destruct cs as [cd st fz]. unfold wf in *. simpl in *.
  destruct (decide (Z.of_nat (length g1) < MIN_LEN)) as [Hs1|Hs1],
           (decide (Z.of_nat (length g2) < MIN_LEN)) as [Hs2|Hs2];
    injection Hg1 as <- <-; injection Hg2 as <- <-; simpl;
    eexists; split_and!; try reflexivity; unfold set_state; simpl.
  - by rewrite guess_state_again.
  - by rewrite guess_state_again.
  - by rewrite guess_state_swap.
Qed.

Lemma guess_again_and_swap_witness :
  ∃ cs1 cs',
    guess (text "int") sample = Some ((1, 1), cs1) ∧
    guess (text "int") cs1 = Some ((1, 1), cs1) ∧
    guess (text "x =") cs1 = Some ((1, 0), cs').
Proof.
  destruct (guess_again_and_swap (text "int") (text "x =") sample)
    as (r1 & r2 & cs1 & cs2 & cs' & H1 & H11 & H2 & H12 & H21).
  - repeat constructor.
  - exists cs1, cs'.
    assert (r1 = (1, 1)) as -> by (vm_compute in H1; by injection H1 as <- _).
    assert (r2 = (1, 0)) as -> by (vm_compute in H2; by injection H2 as <- _).
    done.
Defined.

(** *** What every reachable snippet satisfies *)

Lemma advances_in_range v v' :
  advances v v' →
  v = UNGUESSED ∨ v = FUZZY_MATCH ∨ v = EXACT_MATCH →
  v' = UNGUESSED ∨ v' = FUZZY_MATCH ∨ v' = EXACT_MATCH.
Proof. unfold advances, UNGUESSED, FUZZY_MATCH, EXACT_MATCH. lia. Qed.

Lemma grid_advances_in_range st st' :
  grid_advances st st' → in_range st → in_range st'.
Proof.
  unfold grid_advances, in_range. intros Hadv.
  induction Hadv as [|row row' st st' Hrow _ IH]; [done|].
  intros Hr. apply Forall_cons in Hr as [Hr Hst].
  constructor; [|by apply IH].
  clear -Hrow Hr. induction Hrow as [|v v' row row' Hv _ IH]; [done|].
  apply Forall_cons in Hr as [Hr Hrest].
  constructor; [by eapply advances_in_range | by apply IH].
Qed.

Lemma in_range_loadFromFile lines fuzzy :
  in_range (state (loadFromFile lines fuzzy)).
Proof.
  unfold in_range, loadFromFile. simpl.
  apply Forall_fmap, Forall_forall. intros line _. simpl.
  apply Forall_replicate. by left.
Qed.

Lemma fuzzyAllowed_run ops cs cs' :
  wf cs → run ops cs = Some cs' → fuzzyAllowed cs' = fuzzyAllowed cs.
Proof.
  revert cs. induction ops as [|o ops IH]; intros cs Hwf Hrun; simpl in Hrun.
  - by injection Hrun as <-.
  - destruct o as [g|raw]; simpl in Hrun.
    + destruct (guess_advances g cs Hwf) as (r & cs1 & Hg & Hwf1 & _ & Hf & _).
      rewrite Hg in Hrun. simpl in Hrun. rewrite (IH _ Hwf1 Hrun). done.
    + destruct (reveal_advances raw cs Hwf) as (cs1 & Hg & Hwf1 & _ & Hf & _).
      rewrite Hg in Hrun. simpl in Hrun. rewrite (IH _ Hwf1 Hrun). done.
Qed.

(** X3. Whatever file was loaded and whatever guesses and reveals
    followed, none of them faults and the snippet keeps its invariants:
    the text and the fuzzy flag are those of the load, the state has the
    shape of the text, and every cell holds [UNGUESSED], [FUZZY_MATCH] or
    [EXACT_MATCH]. *)
Theorem reachable_snippet (lines : list (list ascii)) (fuzzy : bool)
    (ops : list op) :
  ∃ cs,
    run ops (loadFromFile lines fuzzy) = Some cs ∧
    code cs = load_line <$> lines ∧ fuzzyAllowed cs = fuzzy ∧
    wf cs ∧ in_range (state cs).
Proof.
  pose proof (wf_loadFromFile lines fuzzy) as Hwf.
  destruct (run_advances ops _ Hwf) as (cs & Hrun & Hwf' & Hcode & Hadv).
  exists cs. split_and!; try done.
  - by rewrite (fuzzyAllowed_run _ _ _ Hwf Hrun).
  - eapply grid_advances_in_range; [done|]. apply in_range_loadFromFile.
Qed.

(** *** The masked view *)

Lemma masked_row_loop st ph fz i line row :
  st !! i = Some row → length line = length row →
  for_loop (masked_cell st ph fz i) 0 (length line) line =
  Some (zip_with (masked_char ph fz) line row).
Proof.
  intros Hrow Hl.
  destruct (for_loop_inv
              (λ j acc, acc = zip_with (masked_char ph fz)
                                (take j line) (take j row) ++ drop j line)
              (masked_cell st ph fz i) 0 (length line) line)
    as (acc & -> & ->).
  - by rewrite !take_0, drop_0.
  - intros j acc Hj ->.
    destruct (lookup_lt_is_Some_2 line j) as [c Hc]; [lia|].
    destruct (lookup_lt_is_Some_2 row j) as [v Hv]; [lia|].
    set (done_ := zip_with (masked_char ph fz) (take j line) (take j row)).
    assert (length done_ = j) as Hlen.
    { unfold done_. rewrite length_zip_with, !length_take. lia. }
    assert ((done_ ++ drop j line) !! j = Some c) as Hj'.
    { rewrite lookup_app_r by lia. rewrite Hlen, Nat.sub_diag.
      by rewrite lookup_drop, Nat.add_0_r. }
    assert (∀ x, <[j := x]> (done_ ++ drop j line)
                 = (done_ ++ [x]) ++ drop (S j) line) as Hins.
    { intros x. rewrite <- (Nat.add_0_r j) at 1. rewrite <- Hlen at 1.
      rewrite insert_app_r, (drop_S line c j) by done. simpl.
      by rewrite <- app_assoc. }
    exists ((done_ ++ [masked_char ph fz c v]) ++ drop (S j) line). split.
    + unfold masked_cell. rewrite Hj'. simpl.
      rewrite <- Hins. unfold masked_char.
      rewrite (state_get_row _ _ _ row) by done. rewrite Hv.
      unfold UNGUESSED, FUZZY_MATCH, EXACT_MATCH.
      repeat (case_decide; simpl); try lia;
        rewrite ?list_insert_insert_eq; try done;
        by rewrite list_insert_id.
    + rewrite (take_S_r line j c), (take_S_r row j v) by done.
      rewrite zip_with_app by (rewrite !length_take; lia). done.
  - simpl. rewrite take_ge, (take_ge row), drop_ge by lia.
    by rewrite app_nil_r.
Qed.

(** [getMasked] in closed form. *)
Lemma getMasked_spec ph fz cs :
  wf cs →
  getMasked ph fz cs =
  Some (zip_with (zip_with (masked_char ph fz)) (code cs) (state cs)).
Proof.
  intros Hwf. unfold getMasked.
  pose proof (shape_length _ _ Hwf) as Hlen.
  destruct (for_loop_inv
              (λ i acc, acc = zip_with (zip_with (masked_char ph fz))
                                (take i (code cs)) (take i (state cs)))
              (λ i result,
                 line ← code cs !! i;
                 masked ← for_loop (masked_cell (state cs) ph fz i)
                                   0 (length line) line;
                 Some (result ++ [masked]))
              0 (length (code cs)) []) as (acc & -> & ->).
  - by rewrite !take_0.
  - intros i acc Hi ->.
    destruct (lookup_lt_is_Some_2 (code cs) i) as [line Hline]; [lia|].
    destruct (shape_lookup _ _ _ _ Hwf Hline) as (row & Hrow & Hl).
    eexists. split.
    + rewrite Hline. simpl. rewrite (masked_row_loop _ _ _ _ _ row) by done.
      reflexivity.
    + rewrite (take_S_r (code cs) i line), (take_S_r (state cs) i row) by done.
      rewrite zip_with_app by (rewrite !length_take; lia). done.
  - simpl. by rewrite take_ge, (take_ge (state cs)) by lia.
Qed.

(** X4. On a well-formed snippet [getMasked] returns one line per line
    of the text, of the same length, and shows at every position the
    character itself when it is blank or [EXACT_MATCH], the placeholder
    when it is [UNGUESSED] and the fuzzy placeholder when it is
    [FUZZY_MATCH]; so a character that is hidden is not shown, and the
    view of a complete snippet is the text. *)
Theorem getMasked_view (ph fz : ascii) (cs : t) :
  wf cs →
  ∃ view,
    getMasked ph fz cs = Some view ∧ length view = length (code cs) ∧
    (∀ i line, code cs !! i = Some line →
       ∃ shown, view !! i = Some shown ∧ length shown = length line ∧
         ∀ p c v, line !! p = Some c → state_get (state cs) i p = Some v →
           ∃ c', shown !! p = Some c' ∧
             (c = blank → c' = c) ∧ (v = EXACT_MATCH → c' = c) ∧
             (c ≠ blank → v = UNGUESSED → c' = ph) ∧
             (c ≠ blank → v = FUZZY_MATCH → c' = fz)) ∧
    (complete (code cs) (state cs) → view = code cs).
Proof.
  intros Hwf. pose proof (shape_length _ _ Hwf) as Hlen.
  eexists. split; [by apply getMasked_spec|]. split_and!.
  - rewrite length_zip_with. lia.
  - intros i line Hline.
    destruct (shape_lookup _ _ _ _ Hwf Hline) as (row & Hrow & Hl).
    eexists. rewrite lookup_zip_with, Hline. simpl. rewrite Hrow. simpl.
    split_and!; [done | rewrite length_zip_with; lia |].
    intros p c v Hc Hv. rewrite (state_get_row _ _ _ row) in Hv by done.
    eexists. rewrite lookup_zip_with, Hc. simpl. rewrite Hv. simpl.
    split; [done|]. unfold masked_char, UNGUESSED, FUZZY_MATCH, EXACT_MATCH.
    split_and!; intros; repeat case_decide; (done || lia).
  - intros Hcomplete. apply list_eq. intros i.
    rewrite lookup_zip_with.
    destruct (code cs !! i) as [line|] eqn:Hline; [|done]. simpl.
    destruct (shape_lookup _ _ _ _ Hwf Hline) as (row & Hrow & Hl).
    rewrite Hrow. simpl. f_equal. apply list_eq. intros p.
    rewrite lookup_zip_with.
    destruct (line !! p) as [c|] eqn:Hc; [|done]. simpl.
    destruct (lookup_lt_is_Some_2 row p) as [v Hv].
    { rewrite <- Hl. by eapply lookup_lt_Some. }
    rewrite Hv. simpl. f_equal. unfold masked_char.
    destruct (decide (c = blank)) as [|Hnb]; [done|].
    assert (nonblank (code cs) (i, p)) as Hn
      by (by apply (cell_nonblank _ _ _ _ _ Hline Hc)).
    specialize (Hcomplete _ Hn). simpl in Hcomplete.
    rewrite (state_get_row _ _ _ row) in Hcomplete by done.
    assert (v = EXACT_MATCH) as -> by congruence.
    by rewrite decide_True.
Qed.

Lemma getMasked_view_witness :
  ∃ cs,
    run [Guess (text "int")] sample = Some cs ∧
    getMasked "@" "#" cs = Some [text "int @ @ ###@  "].
Proof.
  destruct (run [Guess (text "int")] sample) as [cs|] eqn:Hrun;
    [|vm_compute in Hrun; discriminate].
  exists cs. split; [done|]. evaluate Hrun.
  match goal with
  | |- getMasked _ _ ?c = _ =>
      destruct (getMasked_view "@" "#" c) as (view & Hv & _)
  end.
  - repeat constructor.
  - rewrite Hv. vm_compute in Hv. injection Hv as <-. reflexivity.
Defined.

(** *** Counting positions *)

Lemma nonblank_row_count cd i line k :
  cd !! i = Some line → (k ≤ length line)%nat →
  length (filter (nonblank cd) (pair i <$> seq 0 k)) =
  length (filter (λ c, c ≠ blank) (take k line)).
Proof.
  intros Hline. induction k as [|k IH]; intros Hk; [by rewrite take_0|].
  destruct (lookup_lt_is_Some_2 line k) as [c Hc]; [lia|].
  rewrite seq_S, fmap_app, filter_app, length_app, IH by lia.
  rewrite (take_S_r line k c), filter_app, length_app by done.
  f_equal. simpl. rewrite !filter_cons, !filter_nil.
  pose proof (cell_nonblank cd i k line c Hline Hc).
  repeat case_decide; (done || tauto).
Qed.

(** [getTotalNumber] counts the non-blank positions. *)
Lemma getTotalNumber_spec cs :
  getTotalNumber cs =
  Z.of_nat (length (filter (nonblank (code cs)) (positions (code cs)))).
Proof.
  unfold getTotalNumber. set (cd := code cs).
  set (F := λ (total : Z) (line : list ascii),
              foldl (λ total c, if decide (c ≠ blank) then total + 1 else total)
                    total line).
  assert (∀ k, (k ≤ length cd)%nat →
               foldl F 0 (take k cd) =
               Z.of_nat (length (filter (nonblank cd) (positions (take k cd)))))
    as Hk.
  { induction k as [|k IH]; intros Hle; [by rewrite take_0|].
    destruct (lookup_lt_is_Some_2 cd k) as [line Hline]; [lia|].
    rewrite (take_S_r cd k line), foldl_app by done. simpl.
    rewrite IH by lia. unfold F at 1.
    rewrite (foldl_count (λ c, c ≠ blank)).
    rewrite <- (take_S_r cd k line), (positions_take_S _ _ line) by done.
    rewrite filter_app, length_app.
    rewrite (nonblank_row_count cd k line (length line)) by done.
    rewrite (take_ge line) by lia. lia. }
  specialize (Hk (length cd) ltac:(lia)). by rewrite take_ge in Hk by lia.
Qed.

Lemma filter_length_split {A} (P Q : A → Prop) `{∀ x, Decision (P x)}
    `{∀ x, Decision (Q x)} (l : list A) :
  (length (filter (λ x, P x ∧ Q x) l) + length (filter (λ x, P x ∧ ¬ Q x) l)
   = length (filter P l))%nat.
Proof.
  induction l as [|x l IH]; [done|].
  rewrite !filter_cons. repeat case_decide; simpl; (lia || tauto).
Qed.

Lemma guessed_hidden_total cs :
  (length (filter (revealed (code cs) (state cs)) (positions (code cs)))
   + hidden_count cs
   = length (filter (nonblank (code cs)) (positions (code cs))))%nat.
Proof.
  unfold hidden_count.
  rewrite <- (filter_length_split (nonblank (code cs))
                (λ pos, state_get (state cs) pos.1 pos.2 = Some EXACT_MATCH)).
  f_equal.
Qed.

Lemma hidden_count_complete cs :
  hidden_count cs = 0%nat ↔ complete (code cs) (state cs).
Proof.
  rewrite complete_positions. unfold hidden_count.
  rewrite length_zero_iff_nil. split.
  - intros Hnil. apply Forall_forall. intros pos Hin Hh.
    assert (pos ∈ filter (hidden (code cs) (state cs)) (positions (code cs)))
      as Hf by (by apply list_elem_of_filter).
    rewrite Hnil in Hf. by apply not_elem_of_nil in Hf.
  - intros Hall. apply elem_of_nil_inv. intros pos Hin.
    apply list_elem_of_filter in Hin as [Hh Hin].
    rewrite Forall_forall in Hall. by apply (Hall pos).
Qed.

(** X5. On a well-formed snippet the counters agree with each other:
    [getTotalNumber()] is the number of non-blank positions,
    [getGuessedNumber()] the number of those that are [EXACT_MATCH], so
    that [0 ≤ guessed ≤ total]; [check()] is true exactly when the two are
    equal; and [reveal()] changes nothing exactly when [check()] is
    true. *)
Theorem counters_agree (raw : nat) (cs : t) :
  wf cs →
  ∃ guessed ok cs',
    getGuessedNumber cs = Some guessed ∧ check cs = Some ok ∧
    reveal raw cs = Some cs' ∧
    getTotalNumber cs
      = Z.of_nat (length (filter (nonblank (code cs)) (positions (code cs)))) ∧
    guessed + Z.of_nat (hidden_count cs) = getTotalNumber cs ∧
    0 ≤ guessed ≤ getTotalNumber cs ∧
    (ok = true ↔ guessed = getTotalNumber cs) ∧
    (cs' = cs ↔ ok = true).
Proof.
  intros Hwf.
  destruct (check_spec cs Hwf) as (ok & Hok & Hiff).
  destruct (reveal_count raw cs Hwf)
    as (cs' & n & Hrev & Hwf' & _ & Hn & Hn' & Hh).
  pose proof (getTotalNumber_spec cs) as Ht.
  pose proof (guessed_hidden_total cs) as Hsum.
  pose proof (getGuessedNumber_spec cs Hwf) as Hg.
  rewrite Hn in Hg. injection Hg as Hg.
  pose proof (hidden_count_complete cs) as Hhc.
  exists n, ok, cs'. split_and!; try done; try lia.
  - rewrite Hiff, <- Hhc. lia.
  - rewrite Hiff, <- Hhc. split.
    + intros ->. rewrite Hn in Hn'. injection Hn' as Hn'.
      case_decide; [done | lia].
    + intros Hz.
      destruct (reveal_spec raw cs Hwf) as [[_ Hr]|(i & j & row & Hpos & _)].
      * congruence.
      * unfold hidden_count in Hz. apply length_zero_iff_nil in Hz.
        rewrite Hz in Hpos. done.
Qed.

Lemma counters_agree_witness :
  ∃ cs', reveal 3 sample = Some cs' ∧ cs' ≠ sample ∧
         getTotalNumber sample = 9 ∧ check sample = Some false.
Proof.
  destruct (counters_agree 3 sample)
    as (n & ok & cs' & Hn & Hok & Hrev & _ & _ & _ & _ & Hsame).
  - repeat constructor.
  - exists cs'. split_and!; [done | | reflexivity |].
    + intros Heq. apply Hsame in Heq. subst ok. vm_compute in Hok. done.
    + rewrite Hok. vm_compute in Hok. by injection Hok as <-.
Defined.

(** *** Finishing a snippet by guesses alone *)

Lemma padded_load lines : padded (load_line <$> lines).
Proof.
  intros i line p c Hline Hc Hnb.
  apply list_lookup_fmap_Some in Hline as (raw & -> & _).
  unfold load_line in *. rewrite length_app, length_replicate.
  destruct (decide (p < length (expand_tabs raw))%nat) as [Hp|Hp].
  - unfold MIN_LEN. lia.
  - rewrite lookup_app_r in Hc by lia.
    apply lookup_replicate in Hc as [-> _]. done.
Qed.

Lemma guess_at_exact cs i line p :
  wf cs → code cs !! i = Some line →
  (p + Z.to_nat MIN_LEN ≤ length line)%nat →
  ∃ result cs',
    guess (guess_at (code cs) (i, p)) cs = Some (result, cs') ∧ wf cs' ∧
    code cs' = code cs ∧ grid_advances (state cs) (state cs') ∧
    state_get (state cs') i p = Some EXACT_MATCH.
Proof.
  intros Hwf Hline Hp.
  destruct (guess_advances (guess_at (code cs) (i, p)) cs Hwf)
    as (result & cs' & Hg & Hwf' & Hcode & _ & Hadv).
  exists result, cs'. split_and!; try done.
  rewrite guess_spec in Hg by done.
  assert (length (guess_at (code cs) (i, p)) = Z.to_nat MIN_LEN) as Hlen.
  { unfold guess_at. simpl. rewrite Hline. simpl.
    by rewrite length_window_text. }
  rewrite decide_False in Hg by (rewrite Hlen; unfold MIN_LEN; lia).
  injection Hg as _ <-. simpl.
  destruct (shape_lookup _ _ _ _ Hwf Hline) as (row & Hrow & Hl).
  destruct (lookup_lt_is_Some_2 row p) as [v Hv]; [unfold MIN_LEN in Hp; lia|].
  rewrite (state_get_row _ _ _ _
             (lookup_guess_state _ _ _ _ _ _ _ Hline Hrow)).
  rewrite (line_row_mark _ _ _ _ _ _ v) by done.
  unfold mark. rewrite decide_True; [done|].
  apply exact_cover_iff. exists p. rewrite Hlen. split_and!; try lia.
  - unfold windows. rewrite Hlen. lia.
  - unfold MIN_LEN. simpl. lia.
  - unfold guess_at. simpl. by rewrite Hline.
Qed.

Lemma run_guess_at cd (L : list (nat * nat)) cs :
  wf cs → code cs = cd →
  Forall (λ pos, ∃ line, cd !! pos.1 = Some line ∧
                         (pos.2 + Z.to_nat MIN_LEN ≤ length line)%nat) L →
  ∃ cs', run ((λ pos, Guess (guess_at cd pos)) <$> L) cs = Some cs' ∧
         wf cs' ∧ code cs' = cd ∧
         Forall (λ pos, state_get (state cs') pos.1 pos.2 = Some EXACT_MATCH) L.
Proof.
  intros Hwf Hcode HL. revert cs Hwf Hcode.
  induction HL as [|[i p] L (line & Hline & Hp) HL IH]; intros cs Hwf Hcode.
  - exists cs. by split_and!.
  - simpl in Hline, Hp. subst cd.
    destruct (guess_at_exact cs i line p Hwf Hline Hp)
      as (result & cs1 & Hg & Hwf1 & Hcode1 & _ & Hcell).
    destruct (IH cs1 Hwf1 Hcode1) as (cs' & Hrun & Hwf' & Hcode' & Hall).
    exists cs'. split_and!; try done.
    + simpl. rewrite Hg. simpl. done.
    + constructor; [|done]. simpl.
      destruct (run_advances ((λ pos, Guess (guess_at (code cs) pos)) <$> L)
                  cs1 Hwf1) as (cs'' & Hrun' & _ & _ & Hadv).
      rewrite Hrun in Hrun'. injection Hrun' as <-.
      destruct (grid_advances_get _ _ _ _ _ Hadv Hcell) as (v' & Hv' & Ha).
      by rewrite Hv', (advances_exact _ Ha).
Qed.

(** X6. A snippet can always be finished by guesses alone.  Every line
    is loaded with [MIN_LEN - 1] blanks appended, so every non-blank
    character starts a window of [MIN_LEN] characters; whatever guesses
    and reveals came before, guessing that window for every non-blank
    position leaves a snippet on which [check()] is true. *)
Theorem guesses_can_finish (lines : list (list ascii)) (fuzzy : bool)
    (ops : list op) (cs : t) :
  run ops (loadFromFile lines fuzzy) = Some cs →
  padded (code cs) ∧
  Forall (λ o, ∃ g, o = Guess g ∧ Z.of_nat (length g) = MIN_LEN)
         (solution (code cs)) ∧
  ∃ cs', run (solution (code cs)) cs = Some cs' ∧ code cs' = code cs ∧
         check cs' = Some true.
Proof.
  intros Hrun.
  destruct (run_advances ops _ (wf_loadFromFile lines fuzzy))
    as (cs0 & Hrun0 & Hwf & Hcode & _).
  rewrite Hrun in Hrun0. injection Hrun0 as <-.
  assert (padded (code cs)) as Hpad by (rewrite Hcode; apply padded_load).
  assert (Forall (λ pos, ∃ line, code cs !! pos.1 = Some line ∧
                    (pos.2 + Z.to_nat MIN_LEN ≤ length line)%nat)
                 (filter (nonblank (code cs)) (positions (code cs)))) as Hfit.
  { apply Forall_forall. intros [i p] Hin.
    apply list_elem_of_filter in Hin as [(c & Hc & Hnb) _].
    unfold char_at in Hc. simpl in *.
    destruct (code cs !! i) as [line|] eqn:Hline; [|done]. simpl in Hc.
    exists line. split; [done|]. by eapply Hpad. }
  split_and!; [done | |].
  - unfold solution. apply Forall_fmap.
    eapply Forall_impl; [exact Hfit|].
    intros [i p] (line & Hline & Hp). simpl in *.
    eexists. split; [done|].
    unfold guess_at. simpl. rewrite Hline. simpl.
    rewrite length_window_text by done. unfold MIN_LEN. lia.
  - destruct (run_guess_at (code cs) _ cs Hwf eq_refl Hfit)
      as (cs' & Hrun' & Hwf' & Hcode' & Hall).
    exists cs'. split_and!; [done | done |].
    destruct (check_spec cs' Hwf') as (ok & -> & Hok).
    f_equal. apply Hok. rewrite Hcode'. intros pos Hnb.
    rewrite Forall_forall in Hall. apply Hall.
    apply list_elem_of_filter. split; [done | by apply nonblank_position].
Qed.

Lemma guesses_can_finish_witness :
  ∃ cs cs',
    run [Reveal 4; Guess (text "x =")] sample = Some cs ∧
    length (solution (code cs)) = 9%nat ∧
    run (solution (code cs)) cs = Some cs' ∧ check cs' = Some true.
Proof.
  destruct (run [Reveal 4; Guess (text "x =")] sample) as [cs|] eqn:Hcs;
    [|discriminate].
  destruct (guesses_can_finish [text "int x = ine;"] true
              [Reveal 4; Guess (text "x =")] cs Hcs)
    as (_ & _ & cs' & Hrun & _ & Hok).
  exists cs, cs'. split_and!; [done | | done | done].
  evaluate Hcs. reflexivity.
Defined.

(** *** Finishing a snippet by reveals alone *)

Lemma run_reveals (raws : list nat) cs :
  wf cs →
  ∃ cs', run (Reveal <$> raws) cs = Some cs' ∧ wf cs' ∧ code cs' = code cs ∧
         hidden_count cs' = (hidden_count cs - length raws)%nat.
Proof.
  revert cs. induction raws as [|raw raws IH]; intros cs Hwf.
  - exists cs. split_and!; try done. simpl. lia.
  - destruct (reveal_count raw cs Hwf)
      as (cs1 & n & Hrev & Hwf1 & Hcode1 & _ & _ & Hh1).
    destruct (IH cs1 Hwf1) as (cs' & Hrun & Hwf' & Hcode' & Hh').
    exists cs'. split_and!; [| done | congruence | simpl; lia].
    simpl. rewrite Hrev. done.
Qed.

(** X7. Reveals alone finish a snippet after exactly as many calls as
    it has hidden positions, whatever the generator draws: every call
    but the surplus ones uncovers one more position, and [check()] is
    true afterwards exactly when the calls were at least that many. *)
Theorem reveals_can_finish (raws : list nat) (cs : t) :
  wf cs →
  ∃ cs' ok,
    run (Reveal <$> raws) cs = Some cs' ∧ code cs' = code cs ∧
    hidden_count cs' = (hidden_count cs - length raws)%nat ∧
    check cs' = Some ok ∧
    (ok = true ↔ (hidden_count cs ≤ length raws)%nat).
Proof.
  intros Hwf.
  destruct (run_reveals raws cs Hwf) as (cs' & Hrun & Hwf' & Hcode & Hh).
  destruct (check_spec cs' Hwf') as (ok & Hok & Hiff).
  exists cs', ok. split_and!; try done.
  rewrite Hiff, <- hidden_count_complete. lia.
Qed.

Lemma reveals_can_finish_witness :
  ∃ cs1 cs2,
    run (Reveal <$> [7; 7; 7; 7; 7; 7; 7; 7]%nat) sample = Some cs1 ∧
    check cs1 = Some false ∧
    run (Reveal <$> [7; 7; 7; 7; 7; 7; 7; 7; 7]%nat) sample = Some cs2 ∧
    check cs2 = Some true.
Proof.
  assert (wf sample) as Hwf by repeat constructor.
  destruct (reveals_can_finish [7; 7; 7; 7; 7; 7; 7; 7]%nat sample Hwf)
    as (cs1 & ok1 & Hrun1 & _ & _ & Hok1 & Hiff1).
  destruct (reveals_can_finish [7; 7; 7; 7; 7; 7; 7; 7; 7]%nat sample Hwf)
    as (cs2 & ok2 & Hrun2 & _ & _ & Hok2 & Hiff2).
  exists cs1, cs2. split_and!; [done | | done |].
  - rewrite Hok1. f_equal. destruct ok1; [|done].
    destruct Hiff1 as [Hiff1 _]. specialize (Hiff1 eq_refl).
    vm_compute in Hiff1. lia.
  - rewrite Hok2. f_equal. apply Hiff2. vm_compute. lia.
Defined.

(** *** A guess that finds nothing *)

Lemma filter_none {A} (P : A → Prop) `{∀ x, Decision (P x)} (l : list A) :
  (∀ x, x ∈ l → ¬ P x) → filter P l = [].
Proof.
  induction l as [|y l IH]; intros Hno; [done|].
  rewrite filter_cons_False by (apply Hno; by left).
  apply IH. intros x Hx. apply Hno. by right.
Qed.

Lemma no_exact_cover g line p :
  exact_starts g line = [] → ¬ exact_cover g line (windows line g) p.
Proof.
  intros Hnil (j & Hj & _ & Hw)%exact_cover_iff.
  assert (j ∈ exact_starts g line) as Hin.
  { apply list_elem_of_filter. split; [done | apply elem_of_seq; lia]. }
  rewrite Hnil in Hin. by apply elem_of_nil in Hin.
Qed.

Lemma no_fuzzy_cover g line p :
  fuzzy_starts g line = [] → ¬ fuzzy_cover g line (windows line g) p.
Proof.
  intros Hnil (j & Hj & _ & Hne & Hw)%fuzzy_cover_iff.
  assert (j ∈ fuzzy_starts g line) as Hin.
  { apply list_elem_of_filter. split; [done | apply elem_of_seq; lia]. }
  rewrite Hnil in Hin. by apply elem_of_nil in Hin.
Qed.

Lemma guess_state_same fuzzy g cd st :
  shape cd st →
  sum_list_with (λ line, length (exact_starts g line)) cd = 0%nat →
  (fuzzy = true →
   sum_list_with (λ line, length (fuzzy_starts g line)) cd = 0%nat) →
  guess_state fuzzy g cd st = st.
Proof.
  unfold shape, guess_state.
  induction 1 as [|line row cd st Hl Hsh IH]; simpl; intros He Hf; [done|].
  rewrite IH; [|lia|intros Hfz; specialize (Hf Hfz); lia].
  f_equal. rewrite line_row_imap.
  apply list_eq. intros p. rewrite list_lookup_imap.
  destruct (row !! p) as [v|]; simpl; [|done]. f_equal. unfold mark.
  rewrite decide_False by (apply no_exact_cover, length_zero_iff_nil; lia).
  rewrite decide_False; [done|].
  intros (Hfz & Hcov & _). revert Hcov.
  apply no_fuzzy_cover, length_zero_iff_nil. specialize (Hf Hfz). lia.
Qed.

(** X8. A guess that reports no match changes nothing.  On a
    well-formed snippet every guess returns; when neither count it
    returns is positive (too short a guess included), the snippet is left
    exactly as it was. *)
Theorem guess_without_match (g : list ascii) (cs : t) :
  wf cs →
  ∃ result cs',
    guess g cs = Some (result, cs') ∧
    (result.1 ≤ 0 → result.2 ≤ 0 → cs' = cs).
Proof.
  intros Hwf. rewrite guess_spec by done.
  case_decide; [by eexists _, _|].
  eexists _, _. split; [done|]. rewrite guess_result_count. simpl.
  intros He Hf. destruct cs as [cd st fz]. unfold set_state. simpl in *.
  f_equal. apply guess_state_same; [done | |].
  - destruct fz; simpl in He; lia.
  - intros ->. simpl in Hf. lia.
Qed.

Lemma guess_without_match_witness :
  guess (text "zzz") sample = Some ((0, 0), sample).
Proof.
  destruct (guess_without_match (text "zzz") sample)
    as (result & cs' & Hg & Hsame).
  - repeat constructor.
  - rewrite Hg.
    assert (result = (0, 0)) as -> by (vm_compute in Hg; by injection Hg as <- _).
    by rewrite Hsame.
Defined.

(** *** A snippet as loaded *)

Lemma expand_tabs_no_tab raw : tab ∉ expand_tabs raw.
Proof.
  induction raw as [|c raw IH]; simpl; [apply not_elem_of_nil|].
  case_decide.
  - rewrite !not_elem_of_cons. by split_and!.
  - rewrite not_elem_of_cons. by split.
Qed.

Lemma length_expand_tabs raw :
  length (expand_tabs raw)
  = (length raw + 3 * length (filter (λ c, c = tab) raw))%nat.
Proof.
  induction raw as [|c raw IH]; simpl; [done|].
  rewrite filter_cons. case_decide; simpl; lia.
Qed.

Lemma nonblank_expand_tabs raw :
  filter (λ c, c ≠ blank) (expand_tabs raw)
  = filter (λ c, c ≠ blank ∧ c ≠ tab) raw.
Proof.
  induction raw as [|c raw IH]; simpl; [done|].
  rewrite (filter_cons (λ c, c ≠ blank ∧ c ≠ tab)).
  destruct (decide (c = tab)) as [->|Hc].
  - rewrite decide_False by tauto. rewrite <- IH. done.
  - rewrite filter_cons, IH. repeat case_decide; (done || tauto).
Qed.

Lemma fresh_unguessed lines fuzzy i p v :
  state_get (state (loadFromFile lines fuzzy)) i p = Some v → v = UNGUESSED.
Proof.
  unfold state_get, loadFromFile. simpl. rewrite list_lookup_fmap.
  destruct ((load_line <$> lines) !! i); simpl; [|done].
  intros Hv. apply lookup_replicate in Hv. by destruct Hv.
Qed.

(** X9. What [loadFromFile] makes of a file.  Every line is stored
    with each tab replaced by four blanks and [MIN_LEN - 1] blanks
    appended: no tab is left, and the non-blank characters are those of
    the file, in order.  Nothing counts as guessed, every non-blank
    position is hidden, and [check()] is already true exactly when the
    file has no non-blank character. *)
Theorem fresh_snippet (lines : list (list ascii)) (fuzzy : bool) :
  let cs := loadFromFile lines fuzzy in
  Forall2 (λ raw line,
             (tab ∉ line) ∧
             length line
             = (length raw + 3 * length (filter (λ c, c = tab) raw)
                + Z.to_nat (MIN_LEN - 1))%nat ∧
             filter (λ c, c ≠ blank) line
             = filter (λ c, c ≠ blank ∧ c ≠ tab) raw)
          lines (code cs) ∧
  getGuessedNumber cs = Some 0 ∧
  Z.of_nat (hidden_count cs) = getTotalNumber cs ∧
  check cs = Some (bool_decide (getTotalNumber cs = 0)).
Proof.
  intros cs. pose proof (wf_loadFromFile lines fuzzy) as Hwf. fold cs in Hwf.
  assert (filter (revealed (code cs) (state cs)) (positions (code cs)) = [])
    as Hnone.
  { apply filter_none. intros [i p] _ [_ Hst]. simpl in Hst.
    by apply fresh_unguessed in Hst. }
  pose proof (guessed_hidden_total cs) as Hsum. rewrite Hnone in Hsum.
  pose proof (getTotalNumber_spec cs) as Ht.
  split_and!.
  - unfold cs, loadFromFile. simpl. apply Forall2_fmap_r, Forall_Forall2_diag.
    apply Forall_forall. intros raw _. unfold load_line. split_and!.
    + rewrite not_elem_of_app. split; [apply expand_tabs_no_tab|].
      intros Hin. by apply elem_of_replicate in Hin as [? _].
    + rewrite length_app, length_replicate, length_expand_tabs. done.
    + rewrite filter_app, nonblank_expand_tabs.
      rewrite (filter_none _ (replicate _ _)); [by rewrite app_nil_r|].
      intros c Hin. apply elem_of_replicate in Hin as [-> _]. tauto.
  - by rewrite getGuessedNumber_spec, Hnone.
  - by rewrite Ht, <- Hsum.
  - destruct (check_spec cs Hwf) as (ok & -> & Hok). f_equal.
    rewrite <- hidden_count_complete in Hok.
    rewrite Ht, <- Hsum. simpl.
    destruct ok; symmetry.
    + apply bool_decide_eq_true. destruct Hok as [Hok _].
      specialize (Hok eq_refl). lia.
    + apply bool_decide_eq_false. intros Hz.
      destruct Hok as [_ Hok].
      assert (true = false) by (symmetry; apply Hok; lia). done.
Qed.

(** *** Which position a reveal uncovers *)

(** X19. A call of [reveal()] touches one cell, and that cell is a
    hidden position: whatever the generator draws, the snippet is left as
    it is when nothing is hidden, and otherwise one hidden position
    becomes [EXACT_MATCH] and every other cell keeps its state.  No
    hidden position is out of reach: for each one there is a draw that
    uncovers it. *)
Theorem reveal_any_hidden (cs : t) :
  wf cs →
  (∀ raw, ∃ cs',
     reveal raw cs = Some cs' ∧
     ((hidden_count cs = 0%nat ∧ cs' = cs) ∨
      ∃ pos, hidden (code cs) (state cs) pos ∧ revealed_at cs cs' pos)) ∧
  (∀ pos, hidden (code cs) (state cs) pos →
          ∃ raw cs', reveal raw cs = Some cs' ∧ revealed_at cs cs' pos).
Proof.
  intros Hwf.
  assert (∀ i j row,
            state cs !! i = Some row → (j < length row)%nat →
            revealed_at cs
              (set_state (<[i := <[j := EXACT_MATCH]> row]> (state cs)) cs)
              (i, j)) as Hat.
  { intros i j row Hrow Hj. split_and!; [done | done |].
    intros i' p'. simpl. by apply state_get_put. }
  split.
  - intros raw.
    destruct (reveal_spec raw cs Hwf)
      as [[Hnil Hr]|(i & j & row & Hpos & Hhid & Hrow & Hj & Hr)].
    + exists cs. split; [done|]. left. split; [|done].
      unfold hidden_count. by rewrite Hnil.
    + eexists. split; [exact Hr|]. right. exists (i, j).
      split; [done | by apply Hat].
  - intros pos Hhid.
    assert (pos ∈ filter (hidden (code cs) (state cs)) (positions (code cs)))
      as Hin.
    { apply list_elem_of_filter. split; [done|].
      apply nonblank_position, Hhid. }
    apply list_elem_of_lookup_1 in Hin as (k & Hk).
    pose proof (lookup_lt_Some _ _ _ Hk) as Hlt.
    exists k.
    destruct (reveal_spec k cs Hwf)
      as [[Hnil _]|(i & j & row & Hpos & _ & Hrow & Hj & Hr)].
    + rewrite Hnil in Hlt. simpl in Hlt. lia.
    + eexists. split; [exact Hr|].
      assert (dist (length (filter (hidden (code cs) (state cs))
                                   (positions (code cs))) - 1) k = k) as Hd.
      { unfold dist.
        replace (S (length (filter (hidden (code cs) (state cs))
                                   (positions (code cs))) - 1))
          with (length (filter (hidden (code cs) (state cs))
                               (positions (code cs)))) by lia.
        by apply Nat.mod_small. }
      rewrite Hd, Hk in Hpos. injection Hpos as ->. by apply Hat.
Qed.

Lemma reveal_any_hidden_witness :
  ∃ raw cs', reveal raw sample = Some cs' ∧
             state_get (state cs') 0 8 = Some EXACT_MATCH ∧
             state_get (state cs') 0 9 = Some UNGUESSED.
Proof.
  destruct (reveal_any_hidden sample) as [_ Hany].
  - repeat constructor.
  - destruct (Hany (0%nat, 8%nat)) as (raw & cs' & Hr & _ & _ & Hcell).
    + vm_compute. split; [|discriminate]. eexists. split; [reflexivity|].
      discriminate.
    + exists raw, cs'. split_and!; [done | |].
      * by rewrite Hcell.
      * by rewrite Hcell.
Defined.

End SnippetMore.

(** ** Further facts about the games, the statistics and the hints *)

Module GameMore.
Import CodeSnippet SnippetSpec GameSpec MoreSpec SnippetFacts GameFacts
       SnippetMore.

(** *** The statistics repository *)

Lemma addGame_total line ty state s :
  StatisticsRepo.totalGames (StatisticsRepo.addGame line ty state s)
  = StatisticsRepo.totalGames s + 1 ∧
  StatisticsRepo.gameHistory (StatisticsRepo.addGame line ty state s)
  = StatisticsRepo.gameHistory s ++ [line].
Proof. unfold StatisticsRepo.addGame. by repeat case_decide. Qed.

(** X10. The counters of the statistics stay consistent under the
    records of the three modes: after [saveStatistics] of a
    guess-limited, a time-attack or a point game the total is still the
    sum of the three modes, the history has one line for each game, the
    last of them the new record, and the wins of a mode are among its
    games.  A record of any other game type is counted in the total and
    the history and in no mode. *)
Theorem statistics_consistent (stats : StatisticsRepo.t)
    (double_to_string : float → string) (hz now : Z) (time : string)
    (isWin : bool) :
  consistent stats →
  (∀ g, let stats' := (guessLimitedGame.saveStatistics time isWin g stats).2 in
        consistent stats' ∧
        StatisticsRepo.guessLimitedGames stats'
        = StatisticsRepo.guessLimitedGames stats + 1 ∧
        StatisticsRepo.guessLimitedWins stats'
        = StatisticsRepo.guessLimitedWins stats + (if isWin then 1 else 0)) ∧
  (∀ g, let stats' :=
          (timeAttackGame.saveStatistics hz now time isWin g stats).2 in
        consistent stats' ∧
        StatisticsRepo.timeAttackGames stats'
        = StatisticsRepo.timeAttackGames stats + 1 ∧
        StatisticsRepo.timeAttackWins stats'
        = StatisticsRepo.timeAttackWins stats + (if isWin then 1 else 0)) ∧
  (∀ g, wf (Game.snippet (pointGame.game g)) →
        ∃ g' stats',
          pointGame.saveStatistics double_to_string time isWin g stats
          = Some (g', stats') ∧
          consistent stats' ∧
          StatisticsRepo.pointGames stats' = StatisticsRepo.pointGames stats + 1 ∧
          StatisticsRepo.totalPoints stats'
          = (StatisticsRepo.totalPoints stats + pointGame.points g')%float) ∧
  (∀ line ty state,
     ty ≠ "guessLimited" → ty ≠ "timeAttack" → ty ≠ "point" →
     let stats' := StatisticsRepo.addGame line ty state stats in
     ¬ consistent stats' ∧
     StatisticsRepo.totalGames stats' = StatisticsRepo.totalGames stats + 1 ∧
     StatisticsRepo.gameHistory stats'
     = StatisticsRepo.gameHistory stats ++ [line]).
Proof.
  intros (Hsum & Hhist & Hgl & Hta & Hpt). split_and!.
  - intros g. simpl. unfold consistent. cbn. rewrite length_app. simpl.
    destruct isWin; split_and!; lia.
  - intros g. simpl. unfold consistent. cbn. rewrite length_app. simpl.
    destruct isWin; split_and!; lia.
  - intros g Hwf. unfold pointGame.saveStatistics.
    rewrite calcPoint_spec by done. cbn [mbind option_bind].
    eexists _, _. split; [reflexivity|].
    unfold consistent. cbn. rewrite length_app. simpl.
    split_and!; (lia || done).
  - intros line ty state H1 H2 H3. simpl.
    unfold consistent, StatisticsRepo.addGame.
    rewrite !decide_False by done. cbn. split_and!; [|done..]. lia.
Qed.

Lemma statistics_consistent_witness :
  ∃ g stats,
    guessLimitedGame.saveStatistics "Tue May 13 17:21:15 2025 " true
      {| guessLimitedGame.game := Game.new true false;
         guessLimitedGame.maxGuesses := 30 |} StatisticsRepo.new = (g, stats) ∧
    consistent stats ∧ StatisticsRepo.guessLimitedWins stats = 1.
Proof.
  destruct (statistics_consistent StatisticsRepo.new (λ _, "0.000000") 1000 0
              "Tue May 13 17:21:15 2025 " true) as (Hgl & _).
  - unfold consistent. simpl. lia.
  - destruct (Hgl {| guessLimitedGame.game := Game.new true false;
                     guessLimitedGame.maxGuesses := 30 |}) as (Hc & _ & Hw).
    eexists _, _. split_and!; [reflexivity | exact Hc | exact Hw].
Defined.

(** The history loop of [getStatistics]: the lines, the last one first. *)
Lemma history_loop (history result : list string) :
  for_loop (λ k result,
              line ← history !! (length history - 1 - k)%nat;
              Some (result ++ [line]))
           0 (length history) result
  = Some (result ++ reverse history).
Proof.
  destruct (for_loop_inv
              (λ k r, (k ≤ length history)%nat ∧
                      r = result ++ reverse (drop (length history - k) history))
              (λ k result,
                 line ← history !! (length history - 1 - k)%nat;
                 Some (result ++ [line]))
              0 (length history) result) as (r & -> & _ & ->).
  - split; [lia|]. rewrite Nat.sub_0_r, drop_all, reverse_nil, app_nil_r. done.
  - intros k r Hk (_ & ->).
    destruct (lookup_lt_is_Some_2 history (length history - 1 - k))
      as [line Hline]; [lia|].
    rewrite Hline. simpl. eexists. split; [done|]. split; [lia|].
    replace (length history - k)%nat with (S (length history - 1 - k)) by lia.
    replace (length history - S k)%nat with (length history - 1 - k)%nat by lia.
    rewrite (drop_S _ _ _ Hline), reverse_cons, app_assoc. done.
  - simpl. rewrite Nat.sub_diag, drop_0. done.
Qed.

(** X11. [getStatistics()] never faults: it returns seven lines of
    counters and then the whole history, the last game first, so that a
    game just added is the line after the heading.  With no point game
    played the average is printed as zero, without a division. *)
Theorem getStatistics_newest_first (double_to_string : float → string)
    (s : StatisticsRepo.t) :
  ∃ header,
    StatisticsRepo.getStatistics double_to_string s
    = Some (header ++ reverse (StatisticsRepo.gameHistory s)) ∧
    length header = 7%nat ∧
    header !! 0%nat
    = Some ("Total Games: " +:+ to_string (StatisticsRepo.totalGames s)) ∧
    (StatisticsRepo.pointGames s = 0 →
     header !! 4%nat = Some ("Average Points: " +:+ double_to_string 0%float)) ∧
    ∀ line ty state,
      (StatisticsRepo.getStatistics double_to_string
         (StatisticsRepo.addGame line ty state s)) ≫= (.!! 7%nat)
      = Some line.
Proof.
  unfold StatisticsRepo.getStatistics. rewrite history_loop.
  eexists. split_and!; [reflexivity | done | done | |].
  - intros ->. simpl. done.
  - intros line ty state. rewrite history_loop.
    destruct (addGame_total line ty state s) as [_ ->].
    cbn [mbind option_bind]. rewrite lookup_app_r by (simpl; lia).
    by rewrite reverse_snoc.
Qed.

(** *** The history line *)

Lemma text_append s1 s2 : text (s1 +:+ s2) = text s1 ++ text s2.
Proof.
  unfold text. induction s1 as [|c s1 IH]; simpl; [done|]. by rewrite IH.
Qed.

Lemma length_text s : length (text s) = String.length s.
Proof.
  unfold text. induction s as [|c s IH]; simpl; [done|]. by rewrite IH.
Qed.

Lemma text_setw_left w s :
  text (GameHistoryFormatter.setw_left w s)
  = text s ++ replicate (w - String.length s) " "%char.
Proof.
  unfold GameHistoryFormatter.setw_left. rewrite text_append. f_equal.
  apply list_ascii_of_string_of_list_ascii.
Qed.

Lemma format_text time ty pid info :
  text (GameHistoryFormatter.format time ty pid info)
  = (text time ++ replicate (26 - String.length time) " "%char)
    ++ (text ty ++ replicate (18 - String.length ty) " "%char)
    ++ (text pid ++ replicate (7 - String.length pid) " "%char)
    ++ text info.
Proof.
  unfold GameHistoryFormatter.format.
  rewrite !text_append, !text_setw_left.
  unfold GameHistoryFormatter.timeWidth, GameHistoryFormatter.gameTypeWidth,
    GameHistoryFormatter.pidWidth.
  by rewrite <- !app_assoc.
Qed.

(** X12. The history line is laid out in columns.  When the time, the
    game type and the identifier fit their widths of 26, 18 and 7
    characters, they start at columns 0, 26 and 44, blanks fill each field
    up to its width, and the game information starts at column 51 and
    runs to the end of the line.  No field is ever cut: whatever the
    lengths, the line is at least as long as the four texts together and
    ends with the game information. *)
Theorem format_columns (time ty pid info : string) :
  (String.length time ≤ 26)%nat → (String.length ty ≤ 18)%nat →
  (String.length pid ≤ 7)%nat →
  let out := text (GameHistoryFormatter.format time ty pid info) in
  length out = (51 + String.length info)%nat ∧
  take 26 out = text time ++ replicate (26 - String.length time) " "%char ∧
  take 18 (drop 26 out)
  = text ty ++ replicate (18 - String.length ty) " "%char ∧
  take 7 (drop 44 out)
  = text pid ++ replicate (7 - String.length pid) " "%char ∧
  drop 51 out = text info ∧
  ∀ time' ty' pid',
    let out' := text (GameHistoryFormatter.format time' ty' pid' info) in
    (String.length time' + String.length ty' + String.length pid'
     + String.length info ≤ length out')%nat ∧
    drop (length out' - String.length info) out' = text info.
Proof.
  intros Ht Hy Hp out.
  assert (∀ (s : string) w, (String.length s ≤ w)%nat →
            length (text s ++ replicate (w - String.length s) " "%char) = w)
    as Hw.
  { intros s w Hs. rewrite length_app, length_replicate, length_text. lia. }
  unfold out. split_and!.
  - rewrite format_text, !length_app, !length_replicate, !length_text. lia.
  - rewrite format_text. by rewrite take_app_length' by (by rewrite Hw).
  - rewrite format_text. rewrite drop_app_length' by (by rewrite Hw).
    by rewrite take_app_length' by (by rewrite Hw).
  - rewrite format_text, app_assoc.
    rewrite drop_app_length'
      by (rewrite !length_app, !length_replicate, !length_text; lia).
    by rewrite take_app_length' by (by rewrite Hw).
  - rewrite format_text, !app_assoc.
    by rewrite drop_app_length'
      by (rewrite !length_app, !length_replicate, !length_text; lia).
  - intros time' ty' pid'. cbv zeta. rewrite format_text, !app_assoc.
    split.
    + rewrite !length_app, !length_text. lia.
    + apply drop_app_length'. rewrite (length_app _ (text info)), length_text.
      lia.
Qed.

Lemma format_columns_witness :
  drop 51 (text (GameHistoryFormatter.format "Tue May 13 17:21:15 2025 "
                   "Limited Guesses" "P1000" "guesses: 12/30 Win"))
  = text "guesses: 12/30 Win".
Proof.
  destruct (format_columns "Tue May 13 17:21:15 2025 " "Limited Guesses"
              "P1000" "guesses: 12/30 Win") as (_ & _ & _ & _ & Hd & _).
  - simpl. lia.
  - simpl. lia.
  - simpl. lia.
  - exact Hd.
Defined.

(** *** Time-attack mode: the deadline *)

Lemma seconds_count_ge hz d m :
  0 < hz → 0 ≤ d → (timeAttackGame.seconds_count hz d >= m ↔ m * hz ≤ d).
Proof.
  intros Hhz Hd. unfold timeAttackGame.seconds_count.
  rewrite Z.quot_div_nonneg by lia.
  pose proof (Z.div_mod d hz ltac:(lia)).
  pose proof (Z.mod_pos_bound d hz Hhz). split; intros; nia.
Qed.

(** X13. The deadline of a time-attack game.  With a clock that has
    not gone back behind the start, [isOver()] is true exactly from the
    reading that lies [maxTime] whole seconds after [startTime]; parts of
    a second do not count, and once the game is over it is over at every
    later reading.  Neither the guesses nor the reveals move the
    deadline. *)
Theorem timeAttack_deadline (hz now now' : Z) (g : timeAttackGame.t) :
  0 < hz → timeAttackGame.startTime g ≤ now → now ≤ now' →
  (timeAttackGame.isOver hz now g = true ↔
   timeAttackGame.startTime g + timeAttackGame.maxTime g * hz ≤ now) ∧
  (timeAttackGame.isOver hz now g = true →
   timeAttackGame.isOver hz now' g = true) ∧
  (∀ b t, timeAttackGame.isOver hz now
            (@Game.set_base _ (timeAttackGame.mode hz) b g)
          = timeAttackGame.isOver hz now g ∧
          timeAttackGame.isOver hz now (timeAttackGame.revealTimes hz t g).2
          = timeAttackGame.isOver hz now g).
Proof.
  intros Hhz Hnow Hlater.
  assert (∀ t, timeAttackGame.startTime g ≤ t →
            (timeAttackGame.isOver hz t g = true ↔
             timeAttackGame.startTime g + timeAttackGame.maxTime g * hz ≤ t))
    as Hiff.
  { intros t Ht. unfold timeAttackGame.isOver.
    rewrite bool_decide_eq_true, seconds_count_ge by lia. lia. }
  split_and!.
  - by apply Hiff.
  - rewrite !Hiff by lia. lia.
  - intros b t. by split.
Qed.

Lemma timeAttack_deadline_witness :
  ∃ g, time_sample 5 30 = Some g ∧ timeAttackGame.maxTime g = 60 ∧
       timeAttackGame.isOver 1000 60004 g = false ∧
       timeAttackGame.isOver 1000 60005 g = true ∧
       timeAttackGame.isOver 1000 70000 g = true.
Proof.
  destruct (time_sample 5 30) as [g|] eqn:Hg; [|discriminate].
  exists g.
  destruct (timeAttack_deadline 1000 60005 70000 g) as (Hiff & Hmono & _).
  - lia.
  - evaluate Hg. simpl. lia.
  - lia.
  - assert (timeAttackGame.isOver 1000 60005 g = true) as Hover.
    { apply Hiff. evaluate Hg. simpl. lia. }
    split_and!; [done | | | done | by apply Hmono].
    + by evaluate Hg.
    + by evaluate Hg.
Defined.

(** *** Guess-limited mode: the assist *)

Lemma not_token (guess : list ascii) (token : string) :
  MIN_LEN ≤ Z.of_nat (length guess) → String.length token = 1%nat →
  bool_decide (guess = list_ascii_of_string token) = false.
Proof.
  intros Hlen Htok. apply bool_decide_eq_false. intros ->.
  change (list_ascii_of_string token) with (text token) in Hlen.
  rewrite length_text, Htok in Hlen. unfold MIN_LEN in Hlen. lia.
Qed.

(** X14. In guess-limited mode a guess of at least [MIN_LEN]
    characters is counted, and is followed by one call of [reveal()]
    when the new number of guesses is a multiple of five and by none
    otherwise; the limit is left as it is.  The call uncovers one hidden
    position when there is one. *)
Theorem guessLimited_assist (guess : list ascii) (now : Z) (raws : nat → nat)
    (g : guessLimitedGame.t) :
  wf (Game.snippet (guessLimitedGame.game g)) →
  MIN_LEN ≤ Z.of_nat (length guess) →
  let counted := Game.guesses (guessLimitedGame.game g) + 1 in
  ∃ result sn1 sn2 msg,
    CodeSnippet.guess guess (Game.snippet (guessLimitedGame.game g))
    = Some (result, sn1) ∧
    (if decide (counted `rem` 5 = 0) then reveal (raws 0%nat) sn1 else Some sn1)
    = Some sn2 ∧
    hidden_count sn2
    = (hidden_count sn1
       - (if decide (counted `rem` 5 = 0)%Z then 1 else 0))%nat ∧
    Game.makeGuess guess now raws g =
      Some ([msg],
            {| guessLimitedGame.game :=
                 Game.set_snippet sn2
                   (Game.set_guesses counted
                      (Game.set_snippet sn1 (guessLimitedGame.game g)));
               guessLimitedGame.maxGuesses := guessLimitedGame.maxGuesses g |}).
Proof.
  intros Hwf Hlen counted.
  destruct (guess_counts_nonneg guess _ Hwf Hlen)
    as (result & sn1 & Hg & Hpos & Hwf1 & _).
  destruct (reveal_count (raws 0%nat) sn1 Hwf1)
    as (sn' & n & Hrev & _ & _ & _ & _ & Hh).
  exists result, sn1.
  exists (if decide (counted `rem` 5 = 0) then sn' else sn1).
  eexists. split_and!.
  - exact Hg.
  - by case_decide.
  - case_decide; lia.
  - unfold Game.makeGuess. rewrite !not_token by done.
    rewrite !andb_false_r.
    cbn [Game.base Game.set_base guessLimitedGame.mode]. rewrite Hg.
    cbn [mbind option_bind fst snd]. rewrite decide_False by lia.
    cbn [Game.revealTimes guessLimitedGame.mode Game.base Game.set_base
         guessLimitedGame.revealTimes guessLimitedGame.game
         guessLimitedGame.maxGuesses Game.guesses Game.set_guesses
         Game.snippet Game.set_snippet].
    unfold guessLimitedGame.revealGuesses. fold counted.
    unfold Game.reveal_loop.
    destruct (decide (counted `rem` 5 = 0)) as [Hfive|Hfive].
    + rewrite (decide_False (P := 1 < 0)) by lia. simpl. rewrite Hrev.
      reflexivity.
    + rewrite (decide_False (P := 0 < 0)) by lia. reflexivity.
Qed.

Lemma guessLimited_assist_witness :
  ∃ g0 g4 g5,
    limited_sample 100 = Some g0 ∧
    play (replicate 4 (text "zzz")) g0 = Some g4 ∧
    hidden_count (Game.snippet (guessLimitedGame.game g4)) = 100%nat ∧
    Game.makeGuess (text "zzz") 0 (λ _, 0%nat) g4
    = Some (["0 matches found, 0 fuzzy matches found."], g5) ∧
    hidden_count (Game.snippet (guessLimitedGame.game g5)) = 99%nat.
Proof.
  destruct (limited_sample 100) as [g0|] eqn:H0; [|discriminate].
  destruct (play (replicate 4 (text "zzz")) g0) as [g4|] eqn:H4;
    [|evaluate H0; vm_compute in H4; discriminate].
  exists g0, g4. evaluate H0. evaluate H4.
  match goal with
  | |- context [Game.makeGuess _ _ _ ?g] =>
      destruct (guessLimited_assist (text "zzz") 0 (λ _, 0%nat) g)
        as (result & sn1 & sn2 & msg & Hg & Hrev & Hh & Hmg)
  end.
  - repeat constructor.
  - unfold MIN_LEN. simpl. lia.
  - eexists. split_and!; [reflexivity | reflexivity | reflexivity | |].
    + rewrite Hmg. vm_compute in Hmg. injection Hmg as <- _. reflexivity.
    + simpl. rewrite Hh. vm_compute in Hg. injection Hg as <- <-.
      vm_compute. reflexivity.
Defined.

(** *** The control token [F] *)

(** With fuzzy matching disabled in the snippet a guess returns [-1] as
    its second count and makes no cell [FUZZY_MATCH]. *)
Lemma guess_not_fuzzy g cs :
  wf cs → fuzzyAllowed cs = false →
  ∃ n cs',
    guess g cs = Some ((n, -1), cs') ∧ wf cs' ∧ fuzzyAllowed cs' = false ∧
    ∀ i p v, state_get (state cs) i p = Some v → v ≠ FUZZY_MATCH →
             state_get (state cs') i p ≠ Some FUZZY_MATCH.
Proof.
  intros Hwf Hfz.
  destruct (guess_advances g cs Hwf) as (r & cs' & Hg & Hwf' & _ & Hfz' & _).
  rewrite Hg. rewrite guess_spec in Hg by done.
  destruct (decide (Z.of_nat (length g) < MIN_LEN)) as [Hs|Hs].
  - injection Hg as <- <-. exists (-1), cs. split_and!; try done.
    intros i p v Hv Hne. rewrite Hv. congruence.
  - injection Hg as <- <-. rewrite guess_result_count, Hfz. simpl.
    eexists _, _. split_and!; [done | by rewrite <- Hfz | congruence |].
    intros i p v Hv Hne. simpl.
    unfold state_get in Hv.
    destruct (state cs !! i) as [row|] eqn:Hrow; [|done]. simpl in Hv.
    destruct (Forall2_lookup_r _ _ _ _ _ Hwf Hrow) as (line & Hline & Hl).
    rewrite (state_get_row _ _ _ _
               (lookup_guess_state _ _ _ _ _ _ _ Hline Hrow)).
    rewrite (line_row_mark _ _ _ _ _ _ v) by done.
    unfold mark. case_decide; [done|].
    rewrite decide_False by (by intros [? _]). congruence.
Qed.

(** X15. The token [F] switches fuzzy matching on in the game only.
    While the game has fuzzy matching off, [makeGuess("F")] answers
    [Fuzzy match enabled], sets the flag of the game and leaves the
    snippet, whose own flag was fixed when it was loaded, as it is.  So
    when the snippet was loaded with fuzzy matching off, every later
    guess and reveal still finds it off: a guess returns [-1] as its
    fuzzy count and marks no cell [FUZZY_MATCH]. *)
Theorem fuzzy_token_not_forwarded {G : Type} `{Game.Mode G} (now : Z)
    (raws : nat → nat) (g : G) :
  wf (Game.snippet (Game.base g)) →
  Game.fuzzyAllowed (Game.base g) = false →
  fuzzyAllowed (Game.snippet (Game.base g)) = false →
  ∃ g',
    Game.makeGuess (text "F") now raws g = Some (["Fuzzy match enabled"], g') ∧
    Game.fuzzyAllowed (Game.base g') = true ∧
    Game.snippet (Game.base g') = Game.snippet (Game.base g) ∧
    Game.guesses (Game.base g') = Game.guesses (Game.base g) ∧
    ∀ ops sn guess,
      run ops (Game.snippet (Game.base g')) = Some sn →
      ∃ n sn',
        CodeSnippet.guess guess sn = Some ((n, -1), sn') ∧
        ∀ i p v, state_get (state sn) i p = Some v → v ≠ FUZZY_MATCH →
                 state_get (state sn') i p ≠ Some FUZZY_MATCH.
Proof.
  intros Hwf Hoff Hsn.
  exists (Game.set_base (Game.set_fuzzyAllowed true (Game.base g)) g).
  split_and!.
  - unfold Game.makeGuess. rewrite Hoff.
    replace (bool_decide (text "F" = list_ascii_of_string "P")) with false
      by (symmetry; by apply bool_decide_eq_false).
    rewrite andb_false_r. reflexivity.
  - by rewrite Game.base_set_base.
  - by rewrite Game.base_set_base.
  - by rewrite Game.base_set_base.
  - rewrite Game.base_set_base. simpl. intros ops sn guess Hrun.
    destruct (run_advances ops _ Hwf) as (sn0 & Hrun0 & Hwf0 & _).
    rewrite Hrun in Hrun0. injection Hrun0 as <-.
    pose proof (fuzzyAllowed_run _ _ _ Hwf Hrun) as Hfz. rewrite Hsn in Hfz.
    destruct (guess_not_fuzzy guess sn Hwf0 Hfz) as (n & sn' & Hg & _ & _ & Hc).
    by exists n, sn'.
Qed.

Lemma fuzzy_token_not_forwarded_witness :
  ∃ g0 g1 g2,
    point_sample 8 = Some g0 ∧
    Game.makeGuess (text "F") 0 (λ _, 0%nat) g0
    = Some (["Fuzzy match enabled"], g1) ∧
    Game.makeGuess (text "aab") 0 (λ _, 0%nat) g1
    = Some (["0 matches found."], g2).
Proof.
  destruct (point_sample 8) as [g0|] eqn:H0; [|discriminate].
  exists g0. evaluate H0.
  match goal with
  | |- context [Game.makeGuess (text "F") _ _ ?g] =>
      destruct (fuzzy_token_not_forwarded 0 (λ _, 0%nat) g)
        as (g1 & Hmg & _)
  end.
  - repeat constructor.
  - reflexivity.
  - reflexivity.
  - exists g1. eexists. split_and!; [reflexivity | exact Hmg |].
    vm_compute in Hmg. injection Hmg as <-. vm_compute. reflexivity.
Defined.

(** X16. In point mode the token [F] costs points and gains nothing.
    On a game started with fuzzy matching off, [makeGuess("F")] changes
    neither the snippet nor the number of guesses, yet the score that
    [calcPoint] stores afterwards is the one with the fuzzy factor [0.8]
    applied, where before it was the one without. *)
Theorem point_fuzzy_token_costs (now : Z) (raws : nat → nat) (g : pointGame.t) :
  wf (Game.snippet (pointGame.game g)) →
  Game.fuzzyAllowed (pointGame.game g) = false →
  let sn := Game.snippet (pointGame.game g) in
  let guessed :=
    Z.of_nat (length (filter (revealed (code sn) (state sn))
                             (positions (code sn)))) in
  let score := score_formula (pointGame.pointFactor g) (pointGame.guessPenalty g)
                 (pointGame.rewardFactor g) (pointGame.totalNumber g) guessed
                 (Game.guesses (pointGame.game g))
                 (Game.showPID (pointGame.game g)) in
  ∃ g',
    Game.makeGuess (text "F") now raws g = Some (["Fuzzy match enabled"], g') ∧
    Game.snippet (pointGame.game g') = sn ∧
    pointGame.points <$> pointGame.calcPoint g = Some (score false) ∧
    pointGame.points <$> pointGame.calcPoint g' = Some (score true).
Proof.
  intros Hwf Hoff sn guessed score.
  eexists. split_and!.
  - unfold Game.makeGuess.
    cbn [Game.base Game.set_base pointGame.mode]. rewrite Hoff.
    replace (bool_decide (text "F" = list_ascii_of_string "P")) with false
      by (symmetry; by apply bool_decide_eq_false).
    rewrite andb_false_r. reflexivity.
  - reflexivity.
  - rewrite calcPoint_spec by done. simpl. unfold score. by rewrite Hoff.
  - rewrite calcPoint_spec by done. reflexivity.
Qed.

Lemma point_fuzzy_token_costs_witness :
  ∃ g0 g10 g11,
    point_sample 100 = Some g0 ∧
    play (replicate 10 (text "aaa")) g0 = Some g10 ∧
    pointGame.points <$> pointGame.calcPoint g10 = Some 73500%float ∧
    Game.makeGuess (text "F") 0 (λ _, 0%nat) g10
    = Some (["Fuzzy match enabled"], g11) ∧
    pointGame.points <$> pointGame.calcPoint g11 = Some 58800%float.
Proof.
  destruct (point_sample 100) as [g0|] eqn:H0; [|discriminate].
  destruct (play (replicate 10 (text "aaa")) g0) as [g10|] eqn:H10;
    [|evaluate H0; vm_compute in H10; discriminate].
  exists g0, g10. evaluate H0. evaluate H10.
  match goal with
  | |- context [Game.makeGuess (text "F") _ _ ?g] =>
      destruct (point_fuzzy_token_costs 0 (λ _, 0%nat) g)
        as (g11 & Hmg & _ & Hbefore & Hafter)
  end.
  - repeat constructor.
  - reflexivity.
  - exists g11. split_and!; [reflexivity | reflexivity | | exact Hmg |].
    + rewrite Hbefore. vm_compute. reflexivity.
    + rewrite Hafter. vm_compute. reflexivity.
Defined.

(** *** The hints of [AutoGuess] *)

(** A flag that a loop only ever sets. *)
Lemma foldl_flag {A} (step : bool → A → bool) (Q : A → Prop) (l : list A) v :
  (∀ v x, step v x = true ↔ v = true ∨ Q x) →
  foldl step v l = true ↔ v = true ∨ ∃ x, x ∈ l ∧ Q x.
Proof.
  intros Hstep. revert v. induction l as [|y l IH]; intros v; simpl.
  - split; [by left|]. intros [?|(x & Hx & _)]; [done|].
    by apply elem_of_nil in Hx.
  - rewrite IH, Hstep. split.
    + intros [[?|?]|(x & Hx & ?)]; [by left | right | right].
      * exists y. split; [by left | done].
      * exists x. split; [by right | done].
    + intros [?|(x & Hx & ?)]; [by left; left|].
      apply elem_of_cons in Hx as [->|Hx]; [by left; right|].
      right. by exists x.
Qed.

Lemma visited_spec mask keyword :
  Z.of_nat (length keyword) = AutoGuess.guessLength →
  AutoGuess.visited mask keyword = true ↔ occurs mask keyword.
Proof.
  intros Hlen. unfold AutoGuess.visited, AutoGuess.guessLength in *.
  rewrite (foldl_flag _
             (λ line, ∃ i, (i + length keyword ≤ length line)%nat ∧
                           take (length keyword) (drop i line) = keyword)).
  - unfold occurs. split.
    + intros [?|(line & Hin & i & Hi & Hw)]; [done|]. by exists line, i.
    + intros (line & i & Hin & Hi & Hw). right. exists line. split; [done|].
      by exists i.
  - intros v line.
    rewrite (foldl_flag _
               (λ i, take (Z.to_nat 3) (drop i line) = keyword)).
    + replace (Z.to_nat 3) with (length keyword) by lia. split.
      * intros [?|(i & Hi & Hw)]; [by left|]. right. exists i.
        apply elem_of_seq in Hi. split; [lia | done].
      * intros [?|(i & Hi & Hw)]; [by left|]. right. exists i.
        split; [apply elem_of_seq; lia | done].
    + intros v' i. case_decide; tauto.
Qed.

Lemma keywords_length : length AutoGuess.keywords = 35%nat.
Proof. reflexivity. Qed.

Lemma keywords_lookup k keyword :
  AutoGuess.keywords !! k = Some keyword →
  Z.of_nat (length keyword) = AutoGuess.guessLength.
Proof.
  intros Hk.
  assert (Forall (λ keyword, Z.of_nat (length keyword) = AutoGuess.guessLength)
                 AutoGuess.keywords) as Hall by (by repeat constructor).
  rewrite Forall_lookup in Hall. by eapply Hall.
Qed.

Lemma random_spec raws :
  ∃ hint, AutoGuess.random raws = Some hint ∧
          Z.of_nat (length hint) = AutoGuess.guessLength ∧
          Forall (λ c, c ∈ AutoGuess.alphabet_) hint.
Proof.
  assert (∀ raw, ∃ c,
            AutoGuess.alphabet_ !! dist (length AutoGuess.alphabet_ - 1) raw
            = Some c) as Hpick.
  { intros raw. apply lookup_lt_is_Some_2. unfold dist.
    change (length AutoGuess.alphabet_) with 53%nat.
    change (S (53 - 1)) with 53%nat. apply Nat.mod_upper_bound. lia. }
  destruct (Hpick (raws 0%nat)) as [c0 H0], (Hpick (raws 1%nat)) as [c1 H1],
           (Hpick (raws 2%nat)) as [c2 H2].
  exists [c0; c1; c2]. split_and!.
  - unfold AutoGuess.random, AutoGuess.guessLength.
    change (Z.to_nat 3) with 3%nat. cbn [for_loop].
    rewrite H0. cbn [mbind option_bind]. rewrite H1. cbn [mbind option_bind].
    rewrite H2. reflexivity.
  - reflexivity.
  - rewrite !Forall_cons. split_and!; [..|apply Forall_nil_2];
      by eapply list_elem_of_lookup_2.
Qed.

Lemma guess_fuel_spec mask raws fuel count :
  0 ≤ count ≤ 35 → (35 - count ≤ Z.of_nat fuel) →
  ∃ hint count',
    AutoGuess.guess_fuel fuel mask raws count = Some (hint, count') ∧
    count ≤ count' ≤ 35 ∧
    (∀ k keyword, count ≤ Z.of_nat k → Z.of_nat k < count' - 1 →
                  AutoGuess.keywords !! k = Some keyword →
                  occurs mask keyword) ∧
    ((count < count' ∧ AutoGuess.keywords !! Z.to_nat (count' - 1) = Some hint ∧
      ¬ occurs mask hint)
     ∨
     (count' = 35 ∧ AutoGuess.random raws = Some hint ∧
      ∀ keyword, AutoGuess.keywords !! Z.to_nat (count' - 1) = Some keyword →
                 count < count' → occurs mask keyword)).
Proof.
  revert count. induction fuel as [|fuel IH]; intros count Hc Hfuel.
  - assert (count = 35) as -> by lia.
    destruct (random_spec raws) as (hint & Hr & _).
    exists hint, 35. cbn [AutoGuess.guess_fuel]. rewrite keywords_length.
    change (Z.of_nat 35) with 35. rewrite decide_True by done. rewrite Hr. split_and!; try done; try lia.
    right. split_and!; [done | done | lia].
  - cbn [AutoGuess.guess_fuel]. rewrite keywords_length.
    change (Z.of_nat 35) with 35.
    destruct (decide (count = 35)) as [->|Hne].
    + destruct (random_spec raws) as (hint & Hr & _).
      exists hint, 35. rewrite Hr. split_and!; try done; try lia.
      right. split_and!; [done | done | lia].
    + rewrite decide_False by lia.
      destruct (lookup_lt_is_Some_2 AutoGuess.keywords (Z.to_nat count))
        as [keyword Hk]; [rewrite keywords_length; lia|].
      rewrite Hk. cbn [mbind option_bind].
      pose proof (visited_spec mask keyword (keywords_lookup _ _ Hk)) as Hv.
      destruct (AutoGuess.visited mask keyword) eqn:Hseen.
      * destruct (IH (count + 1)) as (hint & count' & -> & Hb & Hbefore & Hlast);
          [lia | lia |].
        exists hint, count'. split_and!; [done | lia | lia | |].
        -- intros k kw Hk1 Hk2 Hkw.
           destruct (decide (Z.of_nat k = count)) as [Heq|Hneq].
           ++ rewrite <- Heq, Nat2Z.id in Hk. rewrite Hk in Hkw.
              injection Hkw as <-. by apply Hv.
           ++ eapply Hbefore; [| |done]; lia.
        -- destruct Hlast as [(Hlt & Hh & Hno)|(-> & Hr & Hall)].
           ++ left. split_and!; [lia | done | done].
           ++ right. split_and!; [done | done |].
              intros kw Hkw _.
              destruct (decide (count + 1 < 35)) as [Hlt|Hge].
              ** by apply Hall.
              ** assert (count = 34) as -> by lia.
                 change (Z.to_nat (35 - 1)) with (Z.to_nat 34) in Hkw.
                 rewrite Hk in Hkw. injection Hkw as <-. by apply Hv.
      * replace (count + 1 - 1) with count by lia. rewrite Hk.
        cbn [mbind option_bind].
        exists keyword, (count + 1). split_and!; [done | lia | lia | |].
        -- intros k kw Hk1 Hk2. lia.
        -- left. replace (count + 1 - 1) with count by lia.
           split_and!; [lia | done |].
           intros Hocc. apply Hv in Hocc. done.
Qed.

(** X17. A hint of [AutoGuess] is always there and always three
    characters long.  While keywords are left, the hint is the first
    keyword from [count] on that stands nowhere in the view shown, and
    [count] moves just past it; every keyword passed over stands in the
    view.  When all that were left stand in the view, or none was left,
    [count] stops at the number of keywords and the hint is three
    characters drawn from the alphabet. *)
Theorem autoguess_hint (mask : list (list ascii)) (raws : nat → nat)
    (count : Z) :
  0 ≤ count ≤ Z.of_nat (length AutoGuess.keywords) →
  ∃ hint count',
    AutoGuess.guess mask raws count = Some (hint, count') ∧
    Z.of_nat (length hint) = AutoGuess.guessLength ∧
    count ≤ count' ≤ Z.of_nat (length AutoGuess.keywords) ∧
    (∀ k keyword, count ≤ Z.of_nat k → Z.of_nat k < count' - 1 →
                  AutoGuess.keywords !! k = Some keyword →
                  occurs mask keyword) ∧
    ((count < count' ∧ AutoGuess.keywords !! Z.to_nat (count' - 1) = Some hint ∧
      ¬ occurs mask hint)
     ∨
     (count' = Z.of_nat (length AutoGuess.keywords) ∧
      AutoGuess.random raws = Some hint ∧
      Forall (λ c, c ∈ AutoGuess.alphabet_) hint ∧
      ∀ keyword, AutoGuess.keywords !! Z.to_nat (count' - 1) = Some keyword →
                 count < count' → occurs mask keyword)).
Proof.
  rewrite keywords_length. intros Hc. unfold AutoGuess.guess.
  destruct (guess_fuel_spec mask raws (length AutoGuess.keywords) count)
    as (hint & count' & Hg & Hb & Hbefore & Hlast);
    [lia | rewrite keywords_length; lia |].
  exists hint, count'. split_and!; [done | | lia | lia | done |].
  - destruct Hlast as [(_ & Hk & _)|(_ & Hr & _)].
    + by eapply keywords_lookup.
    + destruct (random_spec raws) as (hint' & Hr' & Hlen & _). congruence.
  - destruct Hlast as [?|(-> & Hr & Hall)]; [by left|]. right.
    split_and!; [done | done | | done].
    destruct (random_spec raws) as (hint' & Hr' & _ & Hin). congruence.
Qed.

Lemma autoguess_hint_witness :
  AutoGuess.guess [text "int main() { for"] (λ _, 0%nat) 0
  = Some (text "if(", 3).
Proof.
  destruct (autoguess_hint [text "int main() { for"] (λ _, 0%nat) 0)
    as (hint & count' & Hg & _).
  - simpl. lia.
  - rewrite Hg. vm_compute in Hg. by injection Hg as <- <-.
Defined.

(** *** A turn of a guess-limited game *)

(** X18. How a guess ends a guess-limited game.  [onGuess()] looks at
    the limit before it looks at the snippet: a guess of at least
    [MIN_LEN] characters that brings the count to [maxGuesses] loses the
    game, also when it completes the snippet; below the limit it wins the
    game when [check()] is then true and otherwise the game goes on.  A
    lost game is recorded with no win, a won game with one. *)
Theorem guessLimited_turn (guess : list ascii) (now now' : Z)
    (raws : nat → nat) (time : string) (g : guessLimitedGame.t)
    (stats : StatisticsRepo.t) :
  wf (Game.snippet (guessLimitedGame.game g)) →
  MIN_LEN ≤ Z.of_nat (length guess) →
  let counted := Game.guesses (guessLimitedGame.game g) + 1 in
  ∃ msg g' finished,
    Game.makeGuess guess now raws g = Some ([msg], g') ∧
    Game.guesses (guessLimitedGame.game g') = counted ∧
    check (Game.snippet (guessLimitedGame.game g')) = Some finished ∧
    GUI.onGuess (λ g stats, Some (guessLimitedGame.Win time g stats))
                (λ g stats, Some (guessLimitedGame.Lose time g stats))
                guess now now' raws g stats
    = Some (if decide (guessLimitedGame.maxGuesses g ≤ counted) then
              GUI.Over ("You lose. You have used " +:+ to_string counted
                        +:+ " guesses.")
                       g' (guessLimitedGame.saveStatistics time false g' stats).2
            else if finished then
              GUI.Over ("You win! You only used " +:+ to_string counted
                        +:+ " guesses!")
                       g' (guessLimitedGame.saveStatistics time true g' stats).2
            else GUI.Playing [msg] g' stats) ∧
    StatisticsRepo.guessLimitedWins
      (guessLimitedGame.saveStatistics time false g' stats).2
    = StatisticsRepo.guessLimitedWins stats.
Proof.
  intros Hwf Hlen counted.
  destruct (guess_counts_nonneg guess _ Hwf Hlen)
    as (result & sn1 & Hg & Hpos & Hwf1 & _).
  destruct (reveal_advances (raws 0%nat) sn1 Hwf1)
    as (sn' & Hrev & Hwf' & _).
  assert (∃ msg sn2,
            wf sn2 ∧
            Game.makeGuess guess now raws g =
            Some ([msg],
                  {| guessLimitedGame.game :=
                       Game.set_snippet sn2
                         (Game.set_guesses counted
                            (Game.set_snippet sn1 (guessLimitedGame.game g)));
                     guessLimitedGame.maxGuesses :=
                       guessLimitedGame.maxGuesses g |}))
    as (msg & sn2 & Hwf2 & Hmg).
  { exists (let msg := to_string result.1 +:+ " matches found" in
            let msg := if decide (result.2 ≠ -1)
                       then msg +:+ ", " +:+ to_string result.2
                            +:+ " fuzzy matches found"
                       else msg in
            msg +:+ "."),
           (if decide (counted `rem` 5 = 0) then sn' else sn1).
    split; [by case_decide|].
    unfold Game.makeGuess. rewrite !not_token by done.
    rewrite !andb_false_r.
    cbn [Game.base Game.set_base guessLimitedGame.mode]. rewrite Hg.
    cbn [mbind option_bind fst snd]. rewrite decide_False by lia.
    cbn [Game.revealTimes guessLimitedGame.mode Game.base Game.set_base
         guessLimitedGame.revealTimes guessLimitedGame.game
         guessLimitedGame.maxGuesses Game.guesses Game.set_guesses
         Game.snippet Game.set_snippet].
    unfold guessLimitedGame.revealGuesses. fold counted.
    unfold Game.reveal_loop.
    destruct (decide (counted `rem` 5 = 0)) as [Hfive|Hfive].
    - rewrite (decide_False (P := 1 < 0)) by lia. simpl. rewrite Hrev.
      reflexivity.
    - rewrite (decide_False (P := 0 < 0)) by lia. reflexivity. }
  destruct (check_spec sn2 Hwf2) as (finished & Hfin & _).
  eexists msg, _, finished. split_and!; [exact Hmg | done | exact Hfin | | ].
  - unfold GUI.onGuess.
    rewrite decide_False by (intros ->; unfold MIN_LEN in Hlen; simpl in Hlen; lia).
    rewrite Hmg. cbn [mbind option_bind fst snd].
    cbn [Game.isOver guessLimitedGame.mode guessLimitedGame.isOver
         guessLimitedGame.game guessLimitedGame.maxGuesses Game.guesses
         Game.set_guesses Game.set_snippet].
    unfold guessLimitedGame.isOver.
    cbn [guessLimitedGame.game guessLimitedGame.maxGuesses Game.guesses
         Game.set_guesses Game.set_snippet].
    destruct (decide (guessLimitedGame.maxGuesses g ≤ counted)) as [Hmax|Hmax].
    + rewrite bool_decide_eq_true_2 by lia. reflexivity.
    + rewrite bool_decide_eq_false_2 by lia.
      unfold Game.isFinished.
      cbn [Game.base guessLimitedGame.mode guessLimitedGame.game
           Game.snippet Game.set_snippet].
      simpl in Hfin. rewrite Hfin. cbn [mbind option_bind].
      destruct finished; reflexivity.
  - unfold guessLimitedGame.saveStatistics, StatisticsRepo.addGame. simpl.
    lia.
Qed.

Lemma guessLimited_turn_witness :
  ∃ g0 g29 g30 stats,
    limited_sample 60 = Some g0 ∧
    play (replicate 29 (text "zzz")) g0 = Some g29 ∧
    GUI.onGuess
      (λ g stats,
         Some (guessLimitedGame.Win "Tue May 13 17:21:15 2025 " g stats))
      (λ g stats,
         Some (guessLimitedGame.Lose "Tue May 13 17:21:15 2025 " g stats))
      (text "aaa") 0 0 (λ _, 0%nat) g29 StatisticsRepo.new
    = Some (GUI.Over "You lose. You have used 30 guesses." g30 stats) ∧
    check (Game.snippet (guessLimitedGame.game g30)) = Some true.
Proof.
  destruct (limited_sample 60) as [g0|] eqn:H0; [|discriminate].
  destruct (play (replicate 29 (text "zzz")) g0) as [g29|] eqn:H29;
    [|evaluate H0; vm_compute in H29; discriminate].
  exists g0, g29. evaluate H0. evaluate H29.
  match goal with
  | |- context [GUI.onGuess _ _ _ _ _ _ ?g] =>
      destruct (guessLimited_turn (text "aaa") 0 0 (λ _, 0%nat)
                  "Tue May 13 17:21:15 2025 " g StatisticsRepo.new)
        as (msg & g30 & finished & Hmg & _ & Hfin & Hturn & _)
  end.
  - repeat constructor.
  - unfold MIN_LEN. simpl. lia.
  - exists g30. eexists. split_and!; [reflexivity | reflexivity | |].
    + rewrite Hturn. rewrite decide_True by (simpl; lia). reflexivity.
    + rewrite Hfin. vm_compute in Hmg. injection Hmg as _ <-.
      vm_compute in Hfin. by injection Hfin as <-.
Defined.

(** *** The statistics file *)

Lemma getlines_line line l rest :
  StatisticsRepo.line_feed ∉ l →
  StatisticsRepo.getlines line (l ++ StatisticsRepo.line_feed :: rest)
  = (line ++ l) :: StatisticsRepo.getlines [] rest.
Proof.
  revert line. induction l as [|c l IH]; intros line Hl; simpl.
  - by rewrite app_nil_r.
  - apply not_elem_of_cons in Hl as [Hc Hl].
    rewrite decide_False by done. rewrite IH by done.
    by rewrite <- app_assoc.
Qed.

Lemma put_lines_cons line lines :
  StatisticsRepo.put_lines (line :: lines)
  = text line ++ StatisticsRepo.line_feed :: StatisticsRepo.put_lines lines.
Proof.
  unfold StatisticsRepo.put_lines. rewrite fmap_cons. simpl.
  by rewrite <- app_assoc.
Qed.

Lemma getlines_put_lines (lines : list string) :
  Forall (λ line, StatisticsRepo.line_feed ∉ text line) lines →
  string_of_list_ascii
    <$> StatisticsRepo.getlines [] (StatisticsRepo.put_lines lines)
  = lines.
Proof.
  induction 1 as [|line lines Hline _ IH]; [done|].
  rewrite put_lines_cons, getlines_line by done.
  rewrite fmap_cons, IH. simpl. unfold text.
  by rewrite string_of_list_ascii_of_string.
Qed.

Lemma getlines_no_line_feed line rest :
  StatisticsRepo.line_feed ∉ line →
  Forall (λ l, StatisticsRepo.line_feed ∉ l) (StatisticsRepo.getlines line rest).
Proof.
  revert line. induction rest as [|c rest IH]; intros line Hline; simpl.
  - case_decide; [done|]. by repeat constructor.
  - case_decide.
    + constructor; [done|]. apply IH, not_elem_of_nil.
    + apply IH. rewrite not_elem_of_app, not_elem_of_cons.
      split_and!; [done | done | apply not_elem_of_nil].
Qed.

(** X20. The statistics survive the file.  What [saveToFile] writes,
    [loadFromFile] reads back into a fresh repository as the same
    counters and the same history, provided no history line holds a line
    feed; a line that does comes back in pieces, so the proviso is also
    necessary.  Loading into a repository that already has a history
    appends to it. *)
Theorem statistics_round_trip (s s0 : StatisticsRepo.t) :
  (StatisticsRepo.loadFromFile (StatisticsRepo.saveToFile s) StatisticsRepo.new
   = s
   ↔ Forall (λ line, StatisticsRepo.line_feed ∉ text line)
            (StatisticsRepo.gameHistory s)) ∧
  (Forall (λ line, StatisticsRepo.line_feed ∉ text line)
          (StatisticsRepo.gameHistory s) →
   StatisticsRepo.gameHistory
     (StatisticsRepo.loadFromFile (StatisticsRepo.saveToFile s) s0)
   = StatisticsRepo.gameHistory s0 ++ StatisticsRepo.gameHistory s).
Proof.
  split.
  - split.
    + intros Heq.
      assert (StatisticsRepo.gameHistory s
              = string_of_list_ascii
                  <$> StatisticsRepo.getlines []
                        (StatisticsRepo.put_lines (StatisticsRepo.gameHistory s)))
        as -> by (by rewrite <- Heq at 1).
      apply Forall_fmap.
      eapply Forall_impl; [apply getlines_no_line_feed, not_elem_of_nil|].
      intros l Hl. simpl. unfold text.
      by rewrite list_ascii_of_string_of_list_ascii.
    + intros Hall. destruct s. unfold StatisticsRepo.loadFromFile. simpl in *.
      by rewrite getlines_put_lines.
  - intros Hall. simpl. by rewrite getlines_put_lines.
Qed.

Lemma statistics_round_trip_witness :
  StatisticsRepo.gameHistory
    (StatisticsRepo.loadFromFile
       (StatisticsRepo.saveToFile
          (StatisticsRepo.addGame "second" "point" (StatisticsRepo.Double 1)
             (StatisticsRepo.addGame "first" "timeAttack" (StatisticsRepo.Int 1)
                StatisticsRepo.new)))
       StatisticsRepo.new)
  = ["first"; "second"].
Proof.
  destruct (statistics_round_trip
              (StatisticsRepo.addGame "second" "point" (StatisticsRepo.Double 1)
                 (StatisticsRepo.addGame "first" "timeAttack"
                    (StatisticsRepo.Int 1) StatisticsRepo.new))
              StatisticsRepo.new) as [_ Hrt].
  rewrite Hrt; [reflexivity|].
  vm_compute. repeat constructor; intros Hin;
    repeat (apply elem_of_cons in Hin as [Hin|Hin]; [discriminate|]);
    by apply elem_of_nil in Hin.
Defined.

(** *** Point mode on a snippet without characters *)

Lemma nan_mul (x y : float) :
  Prim2SF x = S754_nan → Prim2SF (x * y) = S754_nan.
Proof. intros Hx. rewrite mul_spec, Hx. reflexivity. Qed.

Lemma nan_sub (x y : float) :
  Prim2SF x = S754_nan → Prim2SF (x - y) = S754_nan.
Proof. intros Hx. rewrite sub_spec, Hx. reflexivity. Qed.

Lemma nan_add (x y : float) :
  Prim2SF y = S754_nan → Prim2SF (x + y) = S754_nan.
Proof.
  intros Hy. rewrite add_spec, Hy. by destruct (Prim2SF x) as [[]|[]| |].
Qed.

Lemma zero_by_zero (x : float) : Prim2SF (x * 0 * 0 / 0) = S754_nan.
Proof.
  rewrite div_spec, !mul_spec. change (Prim2SF 0) with (S754_zero false).
  by destruct (Prim2SF x) as [[]|[]| |[] ? ?].
Qed.

Lemma score_formula_nan pf gp rf guesses showPID fuzzy :
  Prim2SF (score_formula pf gp rf 0 0 guesses showPID fuzzy) = S754_nan.
Proof.
  unfold score_formula. change (int_to_double 0) with 0%float.
  rewrite decide_True by done.
  apply nan_mul.
  assert (Prim2SF (pf * 0 * 0 / 0 - gp * int_to_double guesses) = S754_nan)
    as Hraw by apply nan_sub, zero_by_zero.
  destruct showPID, fuzzy; repeat apply nan_mul; exact Hraw.
Qed.

(** X21. A point game on a snippet without a non-blank character has
    no score.  [calcPoint] then divides zero by zero: whatever the
    coefficients and the number of guesses, the score it stores is not a
    number, and the record of the game makes [totalPoints] not a number
    as well. *)
Theorem blank_snippet_score (double_to_string : float → string)
    (time : string) (isWin : bool) (g : pointGame.t) (stats : StatisticsRepo.t) :
  wf (Game.snippet (pointGame.game g)) →
  getTotalNumber (Game.snippet (pointGame.game g)) = 0 →
  pointGame.totalNumber g = 0 →
  ∃ g' stats',
    pointGame.saveStatistics double_to_string time isWin g stats
    = Some (g', stats') ∧
    pointGame.calcPoint g = Some g' ∧
    Prim2SF (pointGame.points g') = S754_nan ∧
    Prim2SF (StatisticsRepo.totalPoints stats') = S754_nan.
Proof.
  intros Hwf Htotal Hfield.
  pose proof (calcPoint_spec g Hwf) as Hc. simpl in Hc.
  pose proof (guessed_hidden_total (Game.snippet (pointGame.game g))) as Hsum.
  rewrite getTotalNumber_spec in Htotal.
  assert (length (filter (revealed (code (Game.snippet (pointGame.game g)))
                                   (state (Game.snippet (pointGame.game g))))
                         (positions (code (Game.snippet (pointGame.game g)))))
          = 0%nat) as Hnone by lia.
  rewrite Hnone, Hfield in Hc. simpl in Hc.
  unfold pointGame.saveStatistics. rewrite Hc. cbn [mbind option_bind].
  eexists _, _. split_and!; [reflexivity | reflexivity | |].
  - simpl. apply score_formula_nan.
  - unfold StatisticsRepo.addGame. simpl. apply nan_add, score_formula_nan.
Qed.

Lemma blank_snippet_score_witness :
  ∃ g0 g1 stats,
    point_sample 0 = Some g0 ∧
    pointGame.saveStatistics (λ _, "nan") "Tue May 13 17:21:15 2025 " false g0
      StatisticsRepo.new = Some (g1, stats) ∧
    Prim2SF (StatisticsRepo.totalPoints stats) = S754_nan.
Proof.
  destruct (point_sample 0) as [g0|] eqn:H0; [|discriminate].
  exists g0. evaluate H0.
  match goal with
  | |- context [pointGame.saveStatistics _ _ _ ?g] =>
      destruct (blank_snippet_score (λ _, "nan") "Tue May 13 17:21:15 2025 "
                  false g StatisticsRepo.new)
        as (g1 & stats & Hs & _ & _ & Hnan)
  end.
  - repeat constructor.
  - reflexivity.
  - reflexivity.
  - by exists g1, stats.
Defined.

(** *** Guess-limited mode: the assists of a whole session *)

Lemma filter_length_mono {A} (P P' : A → Prop) `{∀ x, Decision (P x)}
    `{∀ x, Decision (P' x)} (l : list A) :
  (∀ x, P' x → P x) → (length (filter P' l) ≤ length (filter P l))%nat.
Proof.
  intros Himp. induction l as [|y l IH]; [done|].
  rewrite !filter_cons. destruct (decide (P' y)) as [Hy|Hy].
  - rewrite decide_True by (by apply Himp). simpl. lia.
  - case_decide; simpl; lia.
Qed.

(** Nothing that advances the grid hides a position again. *)
Lemma hidden_count_advances cs cs' :
  code cs' = code cs → grid_advances (state cs) (state cs') →
  (hidden_count cs' ≤ hidden_count cs)%nat.
Proof.
  intros Hcode Hadv. unfold hidden_count. rewrite Hcode.
  apply filter_length_mono. intros pos [Hnb Hne]. split; [done|].
  intros Hex. apply Hne.
  destruct (grid_advances_get _ _ _ _ _ Hadv Hex) as (v' & -> & Hv).
  by rewrite (advances_exact _ Hv).
Qed.

(** One counted guess of a guess-limited game. *)
Lemma guessLimited_makeGuess guess now raws (g : guessLimitedGame.t) :
  wf (Game.snippet (guessLimitedGame.game g)) →
  MIN_LEN ≤ Z.of_nat (length guess) →
  let counted := Game.guesses (guessLimitedGame.game g) + 1 in
  ∃ msg g',
    Game.makeGuess guess now raws g = Some ([msg], g') ∧
    wf (Game.snippet (guessLimitedGame.game g')) ∧
    code (Game.snippet (guessLimitedGame.game g'))
    = code (Game.snippet (guessLimitedGame.game g)) ∧
    Game.guesses (guessLimitedGame.game g') = counted ∧
    guessLimitedGame.maxGuesses g' = guessLimitedGame.maxGuesses g ∧
    (hidden_count (Game.snippet (guessLimitedGame.game g'))
     ≤ hidden_count (Game.snippet (guessLimitedGame.game g))
       - (if decide (counted `rem` 5 = 0)%Z then 1 else 0))%nat.
Proof.
  intros Hwf Hlen counted.
  destruct (guess_advances guess _ Hwf)
    as (result & sn1 & Hg & Hwf1 & Hcode1 & _ & Hadv1).
  destruct (guess_counts_nonneg guess _ Hwf Hlen)
    as (result' & sn1' & Hg' & Hpos & _).
  rewrite Hg in Hg'. injection Hg' as <- <-.
  pose proof (hidden_count_advances _ _ Hcode1 Hadv1) as Hh1.
  destruct (reveal_count (raws 0%nat) sn1 Hwf1)
    as (sn' & n & Hrev & Hwf' & Hcode' & _ & _ & Hh').
  eexists _, _. split_and!.
  - unfold Game.makeGuess. rewrite !not_token by done.
    rewrite !andb_false_r.
    cbn [Game.base Game.set_base guessLimitedGame.mode]. rewrite Hg.
    cbn [mbind option_bind fst snd]. rewrite decide_False by lia.
    cbn [Game.revealTimes guessLimitedGame.mode Game.base Game.set_base
         guessLimitedGame.revealTimes guessLimitedGame.game
         guessLimitedGame.maxGuesses Game.guesses Game.set_guesses
         Game.snippet Game.set_snippet].
    unfold guessLimitedGame.revealGuesses. fold counted.
    unfold Game.reveal_loop.
    instantiate (1 := {| guessLimitedGame.game :=
                           Game.set_snippet
                             (if decide (counted `rem` 5 = 0) then sn' else sn1)
                             (Game.set_guesses counted
                                (Game.set_snippet sn1 (guessLimitedGame.game g)));
                         guessLimitedGame.maxGuesses :=
                           guessLimitedGame.maxGuesses g |}).
    destruct (decide (counted `rem` 5 = 0)) as [Hfive|Hfive].
    + rewrite (decide_False (P := 1 < 0)) by lia. simpl. rewrite Hrev.
      reflexivity.
    + rewrite (decide_False (P := 0 < 0)) by lia. reflexivity.
  - simpl. by case_decide.
  - simpl. case_decide; congruence.
  - done.
  - done.
  - simpl. case_decide; lia.
Qed.

(** X22. The assists of a guess-limited session add up.  After any
    series of guesses of at least [MIN_LEN] characters the game has
    counted every one of them, kept its limit and its text, and has
    called [reveal()] once for every multiple of five that the count has
    reached: that many positions fewer are hidden, or none is, whatever
    the guesses themselves uncovered. *)
Theorem guessLimited_assists_add_up
    (turns : list (list ascii * Z * (nat → nat))) (g : guessLimitedGame.t) :
  wf (Game.snippet (guessLimitedGame.game g)) →
  0 ≤ Game.guesses (guessLimitedGame.game g) →
  Forall (λ turn, MIN_LEN ≤ Z.of_nat (length turn.1.1)) turns →
  let before := Game.guesses (guessLimitedGame.game g) in
  let after := before + Z.of_nat (length turns) in
  ∃ g',
    session turns g = Some g' ∧
    Game.guesses (guessLimitedGame.game g') = after ∧
    guessLimitedGame.maxGuesses g' = guessLimitedGame.maxGuesses g ∧
    code (Game.snippet (guessLimitedGame.game g'))
    = code (Game.snippet (guessLimitedGame.game g)) ∧
    Z.of_nat (hidden_count (Game.snippet (guessLimitedGame.game g')))
    ≤ Z.max 0 (Z.of_nat (hidden_count (Game.snippet (guessLimitedGame.game g)))
               - (after `div` 5 - before `div` 5)).
Proof.
  intros Hwf Hpos Hall. revert g Hwf Hpos.
  induction Hall as [|[[guess now] raws] turns Hlen _ IH]; intros g Hwf Hpos.
  - exists g. simpl. rewrite !Z.add_0_r, Z.sub_diag, Z.sub_0_r.
    split_and!; try done; lia.
  - simpl in Hlen.
    destruct (guessLimited_makeGuess guess now raws g Hwf Hlen)
      as (msg & g1 & Hmg & Hwf1 & Hcode1 & Hg1 & Hmax1 & Hh1).
    destruct (IH g1 Hwf1 ltac:(lia)) as (g' & Hs & Hg' & Hmax' & Hcode' & Hh').
    exists g'. cbn [session]. rewrite Hmg. cbn [mbind option_bind snd].
    split_and!; [done | | congruence | congruence |].
    + rewrite Hg', Hg1. cbn [length]. lia.
    + rewrite Hg1 in Hh'. cbn [length].
      set (n := Game.guesses (guessLimitedGame.game g)) in *.
      set (k := Z.of_nat (length turns)) in *.
      replace (n + Z.of_nat (S (length turns))) with (n + 1 + k) by lia.
      assert ((n + 1) `div` 5 - n `div` 5
              = if decide ((n + 1) `rem` 5 = 0) then 1 else 0) as Hstep.
      { rewrite Z.rem_mod_nonneg by lia.
        pose proof (Z.div_mod n 5 ltac:(lia)).
        pose proof (Z.div_mod (n + 1) 5 ltac:(lia)).
        pose proof (Z.mod_pos_bound n 5 ltac:(lia)).
        pose proof (Z.mod_pos_bound (n + 1) 5 ltac:(lia)).
        destruct (decide ((n + 1) `mod` 5 = 0)); lia. }
      pose proof (Z.div_le_mono (n + 1) (n + 1 + k) 5 ltac:(lia) ltac:(lia)).
      destruct (decide ((n + 1) `rem` 5 = 0)); lia.
Qed.

Lemma guessLimited_assists_add_up_witness :
  ∃ g0 g12,
    limited_sample 100 = Some g0 ∧
    session (replicate 12 (text "zzz", 0, λ _, 0%nat)) g0 = Some g12 ∧
    Game.guesses (guessLimitedGame.game g12) = 12 ∧
    (hidden_count (Game.snippet (guessLimitedGame.game g12)) ≤ 98)%nat.
Proof.
  destruct (limited_sample 100) as [g0|] eqn:H0; [|discriminate].
  exists g0. evaluate H0.
  match goal with
  | |- context [session _ ?g] =>
      destruct (guessLimited_assists_add_up
                  (replicate 12 (text "zzz", 0, λ _, 0%nat)) g)
        as (g12 & Hs & Hg & _ & _ & Hh)
  end.
  - repeat constructor.
  - simpl. lia.
  - repeat constructor; unfold MIN_LEN; simpl; lia.
  - exists g12. split_and!; [reflexivity | exact Hs | exact Hg |].
    match type of Hh with
    | _ ≤ ?bound =>
        let v := eval vm_compute in bound in change bound with v in Hh
    end.
    lia.
Defined.

End GameMore.
